(** * GoalStack roadmap planner: the weekly allocation engine and its producers

    A shallow embedding of the planner's front end (the [schedule]
    computation of the React component, its normaliser and its drag
    handler) and of the two request handlers of the Express back end,
    followed by the properties stated about them.

    Numbers.  The engine is embedded twice.  [Engine] works over
    [number]: a finite value is an exact rational in lowest terms ([Qc]),
    next to the three special values [PInf], [NInf] and [NaN] with the
    arithmetic IEEE 754 gives them.  Rounding of finite doubles and the
    sign of zero are left out there, every finite operation is exact:
    this is the arithmetic of the properties on the structure of a plan
    and of those that speak of exact sums.  [F64] works over binary64,
    the numbers the program computes with; it is the embedding to read
    where rounding, or how far a double counts, decides the matter. *)

From Stdlib Require Import QArith Qcanon Qround Lia Lqa Permutation Sorted.
From Corelib Require Import PrimFloat FloatOps SpecFloat.
From stdpp Require Import numbers gmap strings fin_maps list.

Local Open Scope Z_scope.

(** ** Numbers *)

Module Num.

Inductive number : Type :=
  | Fin (q : Qc)
  | PInf
  | NInf
  | NaN.

#[global] Instance number_eq_dec : EqDecision number.
Proof. solve_decision. Defined.

Definition of_Z (z : Z) : number := Fin (Q2Qc (inject_Z z)).

Definition zero : number := of_Z 0.
Definition one : number := of_Z 1.

(** [Number.isFinite]. *)
Definition isFinite (x : number) : bool :=
  match x with Fin _ => true | _ => false end.

Definition isNaN (x : number) : bool :=
  match x with NaN => true | _ => false end.

(** Unary minus. *)
Definition neg (x : number) : number :=
  match x with
  | Fin q => Fin (- q)%Qc
  | PInf => NInf
  | NInf => PInf
  | NaN => NaN
  end.

(** [x + y] without rounding: two finite values give their exact sum,
    where the program keeps the nearest double ([PrimFloat.add] in [F64]). *)
Definition add (x y : number) : number :=
  match x, y with
  | NaN, _ | _, NaN => NaN
  | Fin p, Fin q => Fin (p + q)%Qc
  | PInf, NInf | NInf, PInf => NaN
  | PInf, _ | _, PInf => PInf
  | NInf, _ | _, NInf => NInf
  end.

(** [x - y], exact in the same way. *)
Definition sub (x y : number) : number := add x (neg y).

(** [x / y], exact in the same way; a zero divisor is taken as [+0]. *)
Definition div (x y : number) : number :=
  match x, y with
  | NaN, _ | _, NaN => NaN
  | Fin p, Fin q =>
      if bool_decide (q = 0%Qc) then
        if bool_decide (0 < p)%Qc then PInf
        else if bool_decide (p < 0)%Qc then NInf
        else NaN
      else Fin (p / q)%Qc
  | Fin _, _ => zero
  | PInf, Fin q => if bool_decide (q < 0)%Qc then NInf else PInf
  | NInf, Fin q => if bool_decide (q < 0)%Qc then PInf else NInf
  | _, _ => NaN
  end.

(** [x < y]: false as soon as one side is [NaN]. *)
Definition ltb (x y : number) : bool :=
  match x, y with
  | NaN, _ | _, NaN => false
  | Fin p, Fin q => bool_decide (p < q)%Qc
  | PInf, _ | _, NInf => false
  | NInf, _ | _, PInf => true
  end.

(** [x <= y]. *)
Definition leb (x y : number) : bool :=
  match x, y with
  | NaN, _ | _, NaN => false
  | Fin p, Fin q => bool_decide (p ≤ q)%Qc
  | NInf, _ | _, PInf => true
  | PInf, _ | _, NInf => false
  end.

(** [x === y] on numbers. *)
Definition eqb (x y : number) : bool :=
  match x, y with
  | Fin p, Fin q => bool_decide (p = q)
  | PInf, PInf | NInf, NInf => true
  | _, _ => false
  end.

(** [x > y] and [x >= y]. *)
Definition gtb (x y : number) : bool := ltb y x.
Definition geb (x y : number) : bool := leb y x.

(** [Math.max(x, y)] and [Math.min(x, y)]. *)
Definition max (x y : number) : number :=
  match x, y with
  | NaN, _ | _, NaN => NaN
  | _, _ => if ltb x y then y else x
  end.

Definition min (x y : number) : number :=
  match x, y with
  | NaN, _ | _, NaN => NaN
  | _, _ => if ltb y x then y else x
  end.

(** Truthiness of a number: everything but [0] and [NaN]. *)
Definition truthy (x : number) : bool :=
  match x with
  | NaN => false
  | Fin q => negb (bool_decide (q = 0%Qc))
  | _ => true
  end.

(** [x || y] on numbers. *)
Definition or_else (x y : number) : number := if truthy x then x else y.

(** [Math.round]: the nearest integer, halves towards plus infinity. *)
Definition round (x : number) : number :=
  match x with
  | Fin q => of_Z (Qfloor (q + Q2Qc (1 # 2))%Qc)
  | _ => x
  end.

(** The integer a finite number denotes, when it denotes one. *)
Definition to_Z (x : number) : option Z :=
  match x with
  | Fin q => if bool_decide (Qden q = 1%positive) then Some (Qnum q) else None
  | _ => None
  end.

Definition is_integer (x : number) : bool :=
  match to_Z x with Some _ => true | None => false end.

End Num.

Export Num (number, Fin, PInf, NInf, NaN).

(** ** Outcomes of a computation that may raise *)

(** An exception is a [TypeError] raised by the runtime or an [Error]
    the program throws with a message of its own. *)
Inductive js_error : Type :=
  | TypeError
  | Error (message : string).

Inductive outcome (A : Type) : Type :=
  | Done (a : A)
  | Throw (e : js_error)
  | OutOfFuel.

Arguments Done {A} a.
Arguments Throw {A} e.
Arguments OutOfFuel {A}.

Definition bind {A B : Type} (m : outcome A) (k : A → outcome B) : outcome B :=
  match m with
  | Done a => k a
  | Throw e => Throw e
  | OutOfFuel => OutOfFuel
  end.

#[global] Instance outcome_bind : MBind outcome := λ A B k m, bind m k.

(** ** Data model *)

Record Initiative : Type := mkInitiative {
  id : number;
  title : string;
  effortManDays : number;
  week : number;
  okr : string;
  taskDependencies : list string;
  teamDependencies : list string
}.

#[global] Instance Initiative_eq_dec : EqDecision Initiative.
Proof. solve_decision. Defined.

(** [{ ...item, effortManDays: e, week: w }] *)
Definition fragment (item : Initiative) (e w : number) : Initiative :=
  {| id := id item;
     title := title item;
     effortManDays := e;
     week := w;
     okr := okr item;
     taskDependencies := taskDependencies item;
     teamDependencies := teamDependencies item |}.

(** The [byWeek] object: its keys are the week numbers written by the
    initialisation loop. *)
Abbreviation weekmap := (gmap Z (list Initiative)).

Record Plan : Type := mkPlan {
  byWeek : weekmap;
  backlog : list Initiative
}.

#[global] Instance Plan_eq_dec : EqDecision Plan.
Proof. solve_decision. Defined.

#[global] Instance js_error_eq_dec : EqDecision js_error.
Proof. solve_decision. Defined.

#[global] Instance outcome_eq_dec `{EqDecision A} : EqDecision (outcome A).
Proof. solve_decision. Defined.

(** ** The allocation engine *)

Module Engine.

(** [Number.isFinite(timelineWeeks) && timelineWeeks > 0 ? timelineWeeks : 1] *)
Definition safeWeeks (timelineWeeks : number) : number :=
  if Num.isFinite timelineWeeks && Num.gtb timelineWeeks Num.zero
  then timelineWeeks else Num.one.

(** [manDays / safeWeeks] *)
Definition weeklyCapacity (manDays timelineWeeks : number) : number :=
  Num.div manDays (safeWeeks timelineWeeks).

(** Number of integers in [1..x]. *)
Definition week_count (x : number) : Z :=
  match x with
  | Fin q => Z.max 0 (Qfloor q)
  | _ => 0
  end.

(** [for (let w = 1; w <= safeWeeks; w++) byWeek[w] = []], as the table
    the loop leaves when it ends: an empty week for each whole number in
    [1..safeWeeks].  The loop gets there when [safeWeeks] is below
    [2^53]; [F64.init_weeks] is the loop with its counter. *)
Definition init_byWeek (sw : number) : weekmap :=
  foldl (λ m k, <[k := []]> m) ∅ (seqZ 1 (week_count sw)).

(** [byWeek[w]]: [None] stands for [undefined]. *)
Definition week_slot (bw : weekmap) (w : number) : option (Z * list Initiative) :=
  k ← Num.to_Z w; frs ← bw !! k; Some (k, frs).

(** [frs.reduce((s, i) => s + i.effortManDays, 0)] *)
Definition used_of (frs : list Initiative) : number :=
  foldl (λ s i, Num.add s (effortManDays i)) Num.zero frs.

(** The comparator handed to [sort]:
    [(a, b) => a.week - b.week || a.id - b.id]. *)
Definition compare (a b : Initiative) : number :=
  Num.or_else (Num.sub (week a) (week b)) (Num.sub (id a) (id b)).

(** [Array.prototype.sort] is a stable sort; [a] goes after [b] exactly
    when the comparator is positive.  For a consistent comparator every
    stable sort returns the same array; insertion from the right is the
    one written here. *)
Fixpoint insert_sorted (x : Initiative) (l : list Initiative) : list Initiative :=
  match l with
  | [] => [x]
  | y :: l' =>
      if Num.gtb (compare x y) Num.zero then y :: insert_sorted x l'
      else x :: l
  end.

Definition sort (l : list Initiative) : list Initiative :=
  foldr insert_sorted [] l.

(** State of the inner [while] loop. *)
Record loop_state : Type := mkLoop {
  remaining : number;
  cursor : number;
  weeks : weekmap
}.

(** [remaining > 0 && w <= safeWeeks] *)
Definition loop_guard (sw : number) (s : loop_state) : bool :=
  Num.gtb (remaining s) Num.zero && Num.leb (cursor s) sw.

(** One pass through the body of the [while] loop. *)
Definition loop_body (cap : number) (item : Initiative) (s : loop_state)
  : outcome loop_state :=
  match week_slot (weeks s) (cursor s) with
  | None => Throw TypeError
  | Some (k, frs) =>
      let used := used_of frs in
      let capacityLeft := Num.sub cap used in
      if Num.leb capacityLeft Num.zero then
        Done (mkLoop (remaining s) (Num.add (cursor s) Num.one) (weeks s))
      else
        let effortThisWeek := Num.min (remaining s) capacityLeft in
        Done (mkLoop (Num.sub (remaining s) effortThisWeek)
                     (Num.add (cursor s) Num.one)
                     (<[k := frs ++ [fragment item effortThisWeek (cursor s)]]>
                        (weeks s)))
  end.

(** The [while] loop; [fuel] bounds the number of passes, and running out
    of it is reported as [OutOfFuel]. *)
Fixpoint place (fuel : nat) (cap sw : number) (item : Initiative)
    (s : loop_state) : outcome loop_state :=
  if loop_guard sw s then
    match fuel with
    | O => OutOfFuel
    | S fuel' => s' ← loop_body cap item s; place fuel' cap sw item s'
    end
  else Done s.

(** The body of [for (const item of sorted)]. *)
Definition schedule_item (fuel : nat) (cap sw : number)
    (st : weekmap * list Initiative) (item : Initiative)
  : outcome (weekmap * list Initiative) :=
  s ← place fuel cap sw item
        (mkLoop (effortManDays item) (Num.max Num.one (week item)) st.1);
  Done (weeks s,
        if Num.gtb (remaining s) Num.zero then st.2 ++ [item] else st.2).

Fixpoint schedule_items (fuel : nat) (cap sw : number)
    (items : list Initiative) (st : weekmap * list Initiative)
  : outcome (weekmap * list Initiative) :=
  match items with
  | [] => Done st
  | item :: rest =>
      st' ← schedule_item fuel cap sw st item;
      schedule_items fuel cap sw rest st'
  end.

Definition schedule_fuel (fuel : nat) (initiatives : list Initiative)
    (manDays timelineWeeks : number) : outcome Plan :=
  let sw := safeWeeks timelineWeeks in
  let cap := weeklyCapacity manDays timelineWeeks in
  st ← schedule_items fuel cap sw (sort initiatives) (init_byWeek sw, []);
  Done (mkPlan st.1 st.2).

(** Passes the [while] loop can make for one item. *)
Definition loop_fuel (sw : number) : nat := Z.to_nat (week_count sw).

(** The [schedule] memo of the component. *)
Definition schedule (initiatives : list Initiative)
    (manDays timelineWeeks : number) : outcome Plan :=
  schedule_fuel (loop_fuel (safeWeeks timelineWeeks))
    initiatives manDays timelineWeeks.

End Engine.

Export Engine.

(** ** What a plan holds for one initiative *)

(** The fragments of a week that carry the identifier [x]. *)
Definition fragments_of (x : number) (frs : list Initiative) : list Initiative :=
  filter (λ f, id f = x) frs.

(** Effort placed for [x] in week [k], and over the weeks [1..n]. *)
Definition placed_in_week (x : number) (bw : weekmap) (k : Z) : number :=
  used_of (fragments_of x (default [] (bw !! k))).

Definition placed_total (x : number) (bw : weekmap) (n : Z) : number :=
  foldl (λ s k, Num.add s (placed_in_week x bw k)) Num.zero (seqZ 1 n).

(** Rational readings, used to reason about sums of finite efforts. *)
Definition to_Qc (x : number) : Qc :=
  match x with Fin q => q | _ => 0%Qc end.

Definition effort_sum (frs : list Initiative) : Qc :=
  foldr (λ f acc, (to_Qc (effortManDays f) + acc)%Qc) 0%Qc frs.

Definition finite_efforts (frs : list Initiative) : Prop :=
  Forall (λ f, Num.isFinite (effortManDays f) = true) frs.

(** Lexicographic order on (week, id), as the comparator reads it. *)
Definition lex_le (a b : Initiative) : Prop :=
  Num.ltb (week a) (week b) = true
  ∨ (week a = week b ∧ Num.leb (id a) (id b) = true).

(** An initiative whose [week] and [id] are numbers proper. *)
Definition ordered_fields (i : Initiative) : Prop :=
  Num.isNaN (week i) = false ∧ Num.isNaN (id i) = false.

(** Rational effort placed for [x] over the weeks listed in [ks]. *)
Definition placed_sum (x : number) (bw : weekmap) (ks : list Z) : Qc :=
  foldr (λ k acc, (effort_sum (fragments_of x (default [] (bw !! k))) + acc)%Qc)
        0%Qc ks.

(** A week table whose keys lie in [ks] and whose fragments carry a finite
    effort and the week they sit in. *)
Definition well_formed (ks : list Z) (bw : weekmap) : Prop :=
  ∀ k frs, bw !! k = Some frs →
    k ∈ ks ∧ finite_efforts frs ∧ Forall (λ f, week f = Num.of_Z k) frs.

(** No week that holds a fragment is filled beyond [c]. *)
Definition bounded (c : Qc) (bw : weekmap) : Prop :=
  ∀ k frs, bw !! k = Some frs → frs ≠ [] → (effort_sum frs ≤ c)%Qc.

(** [bw'] has the keys of [bw], and every week of [bw] is a prefix of the
    same week of [bw']. *)
Definition extends (bw bw' : weekmap) : Prop :=
  ∀ k, match bw !! k, bw' !! k with
       | Some frs, Some frs' => ∃ more, frs' = frs ++ more
       | None, None => True
       | _, _ => False
       end.

(** What the loop keeps, relative to the state [s0] it starts from. *)
Definition place_post (c : Qc) (ks : list Z) (item : Initiative)
    (s0 s : loop_state) : Prop :=
  well_formed ks (weeks s) ∧ extends (weeks s0) (weeks s) ∧
  (bounded c (weeks s0) → bounded c (weeks s)) ∧
  (∀ x, x ≠ id item → placed_sum x (weeks s) ks = placed_sum x (weeks s0) ks) ∧
  (∀ r0, remaining s0 = Fin r0 → (0 ≤ r0)%Qc →
     ∃ r, remaining s = Fin r ∧ (0 ≤ r)%Qc ∧
          (placed_sum (id item) (weeks s) ks + r
           = placed_sum (id item) (weeks s0) ks + r0)%Qc) ∧
  (remaining s0 = PInf → remaining s = PInf).

(** Every fragment carries the week it is stored under. *)
Definition tagged (bw : weekmap) : Prop :=
  ∀ k frs, bw !! k = Some frs → Forall (λ f, week f = Num.of_Z k) frs.

(** The table has an entry for each week up to [sw]. *)
Definition keys_ok (sw : number) (bw : weekmap) : Prop :=
  ∀ k, 1 ≤ k ≤ week_count sw → is_Some (bw !! k).


(** ** Values exchanged with the producers *)

(** A value read from JSON: the request body of a handler, the reply of a
    producer, the entries handed to a normaliser.  An object lists its own
    properties. *)
#[warnings="-register-all"] Inductive jsval : Type :=
  | JUndefined
  | JNull
  | JBool (b : bool)
  | JNum (n : number)
  | JStr (s : string)
  | JArr (items : list jsval)
  | JObj (fields : list (string * jsval)).

(** Result of code that may raise and has no loop. *)
Inductive result (A : Type) : Type :=
  | Ok (a : A)
  | Raise (e : js_error).

Arguments Ok {A} a.
Arguments Raise {A} e.

#[global] Instance result_bind : MBind result := λ A B k m,
  match m with
  | Ok a => k a
  | Raise e => Raise e
  end.

#[global] Instance result_eq_dec `{EqDecision A} : EqDecision (result A).
Proof. solve_decision. Defined.

Module Js.

(** Truthiness of a value. *)
Definition truthy (v : jsval) : bool :=
  match v with
  | JUndefined | JNull => false
  | JBool b => b
  | JNum n => Num.truthy n
  | JStr s => negb (bool_decide (s = ""))
  | JArr _ | JObj _ => true
  end.

Fixpoint assoc (key : string) (fields : list (string * jsval)) : jsval :=
  match fields with
  | [] => JUndefined
  | (k, v) :: rest => if bool_decide (k = key) then v else assoc key rest
  end.

(** [v.key], for the property names the program reads (none of them is
    a property of a primitive or of an array). *)
Definition get (v : jsval) (key : string) : result jsval :=
  match v with
  | JUndefined | JNull => Raise TypeError
  | JObj fields => Ok (assoc key fields)
  | _ => Ok JUndefined
  end.

(** [v[0]] *)
Definition get_first (v : jsval) : result jsval :=
  match v with
  | JUndefined | JNull => Raise TypeError
  | JArr items => Ok (default JUndefined (head items))
  | JStr s => Ok (match s with
                  | EmptyString => JUndefined
                  | String c _ => JStr (String c EmptyString)
                  end)
  | JObj fields => Ok (assoc "0" fields)
  | _ => Ok JUndefined
  end.

(** A destructuring pattern [{ key = dflt }]: the default replaces
    [undefined] only. *)
Definition destructure (v : jsval) (key : string) (dflt : jsval) : result jsval :=
  x ← get v key;
  Ok (match x with JUndefined => dflt | _ => x end).

(** [Array.isArray(v) && v.length !== 0] *)
Definition nonempty_array (v : jsval) : bool :=
  match v with
  | JArr (_ :: _) => true
  | _ => false
  end.

(** Whether an object lists [key] among its own properties. *)
Definition has_own (key : string) (fields : list (string * jsval)) : bool :=
  existsb (λ kv, bool_decide (kv.1 = key)) fields.

(** Whether [String(v)] and [Number(v)] return, for a value read from
    JSON.  A primitive converts.  An object converts through the
    [toString] it inherits, unless it has a property [toString] of its
    own: that one, read from JSON, is not a function, the inherited
    [valueOf] returns the object itself, and the conversion raises a
    [TypeError].  An array converts through [join], which converts each
    entry other than [null] and [undefined]. *)
Fixpoint converts (v : jsval) : bool :=
  match v with
  | JObj fields => negb (has_own "toString" fields)
  | JArr items =>
      (fix all (l : list jsval) : bool :=
         match l with
         | [] => true
         | x :: rest => converts x && all rest
         end) items
  | _ => true
  end.

End Js.

(** What the program takes from outside its own text: from the language
    runtime the numeric reading of a string, the string image of a value
    that is not a string, the clock read while entry [idx] is converted
    and the text of a [TypeError]; the rendering of the two prompt
    templates (with the weekly capacity the first one prints); and the two
    library calls of [safeJsonParse], the [replace]/[trim] chain and
    [JSON.parse]. *)
Record runtime : Type := mkRuntime {
  string_to_number : string → number;
  to_string : jsval → string;
  now : nat → number;
  type_error_message : string;
  generate_prompt : list jsval → list jsval → list jsval → result string;
  modify_prompt : jsval → jsval → list jsval → list jsval → result string;
  strip_fences : string → string;
  JSON_parse : string → option jsval
}.

Section Runtime.

Variable rt : runtime.

(** The number and the string a value converts to, when it converts. *)
Definition number_of (v : jsval) : number :=
  match v with
  | JUndefined => NaN
  | JNull => Num.zero
  | JBool b => if b then Num.one else Num.zero
  | JNum n => n
  | JStr s => string_to_number rt s
  | JArr _ | JObj _ => string_to_number rt (to_string rt v)
  end.

Definition string_of (v : jsval) : string :=
  match v with
  | JStr s => s
  | _ => to_string rt v
  end.

(** [Number(v)] *)
Definition to_number (v : jsval) : result number :=
  if Js.converts v then Ok (number_of v) else Raise TypeError.

(** [String(v)] *)
Definition String_ (v : jsval) : result string :=
  if Js.converts v then Ok (string_of v) else Raise TypeError.

(** [a || b] *)
Definition or_value (a b : jsval) : jsval := if Js.truthy a then a else b.

(** [Number.isFinite(v) ? v : Date.now() + idx] *)
Definition id_of (v : jsval) (idx : nat) : number :=
  match v with
  | JNum n => if Num.isFinite n then n
              else Num.add (now rt idx) (Num.of_Z (Z.of_nat idx))
  | _ => Num.add (now rt idx) (Num.of_Z (Z.of_nat idx))
  end.

(** [Array.isArray(v) ? v : []]; the interface types the entries as
    strings, an entry of another kind is carried by its string image. *)
Definition dependencies_of (v : jsval) : list string :=
  match v with
  | JArr items => string_of <$> items
  | _ => []
  end.

(** [`Task ${idx + 1}`] *)
Definition default_title (idx : nat) : jsval :=
  JStr ("Task " +:+ to_string rt (JNum (Num.of_Z (Z.of_nat idx + 1)))).

(** One entry of the front end's [normaliseInitiatives]. *)
Definition normalise_entry (i : jsval) (idx : nat) : result Initiative :=
  v_id ← Js.get i "id";
  v_title ← Js.get i "title";
  v_effort ← Js.get i "effortManDays";
  v_week ← Js.get i "week";
  v_okr ← Js.get i "okr";
  v_task ← Js.get i "taskDependencies";
  v_team ← Js.get i "teamDependencies";
  s_title ← String_ (or_value v_title (default_title idx));
  n_effort ← to_number v_effort;
  n_week ← to_number v_week;
  s_okr ← String_ (or_value v_okr (JStr "Unassigned"));
  Ok {| id := id_of v_id idx;
        title := s_title;
        effortManDays := Num.round (Num.or_else n_effort Num.zero);
        week := Num.or_else n_week Num.one;
        okr := s_okr;
        taskDependencies := dependencies_of v_task;
        teamDependencies := dependencies_of v_team |}.

(** One entry of the back end's [normalizeInitiatives]. *)
Definition normalize_entry (i : jsval) (idx : nat) : result Initiative :=
  v_id ← Js.get i "id";
  v_title ← Js.get i "title";
  v_effort ← Js.get i "effortManDays";
  v_week ← Js.get i "week";
  v_okr ← Js.get i "okr";
  v_task ← Js.get i "taskDependencies";
  v_team ← Js.get i "teamDependencies";
  s_title ← String_ (or_value v_title (default_title idx));
  n_effort ← to_number v_effort;
  n_week ← to_number v_week;
  s_okr ← String_ (or_value v_okr (JStr "Unassigned"));
  Ok {| id := id_of v_id idx;
        title := s_title;
        effortManDays := Num.or_else n_effort Num.zero;
        week := Num.or_else n_week Num.one;
        okr := s_okr;
        taskDependencies := dependencies_of v_task;
        teamDependencies := dependencies_of v_team |}.

(** [items.map((i, idx) => f(i, idx))] *)
Fixpoint map_entries (f : jsval → nat → result Initiative)
    (items : list jsval) (idx : nat) : result (list Initiative) :=
  match items with
  | [] => Ok []
  | i :: rest =>
      x ← f i idx;
      xs ← map_entries f rest (S idx);
      Ok (x :: xs)
  end.

(** Front end: [(raw || []).map(...)]. *)
Definition normaliseInitiatives (raw : jsval) : result (list Initiative) :=
  match or_value raw (JArr []) with
  | JArr items => map_entries normalise_entry items 0
  | _ => Raise TypeError
  end.

(** Back end: [function normalizeInitiatives(raw = []) { return raw.map(...) }]. *)
Definition normalizeInitiatives (raw : jsval) : result (list Initiative) :=
  match (match raw with JUndefined => JArr [] | _ => raw end) with
  | JArr items => map_entries normalize_entry items 0
  | _ => Raise TypeError
  end.

(** *** The request handlers *)

(** What a handler sends back: [res.status(s).json({ error })] or
    [res.json({ initiatives })]. *)
Inductive reply : Type :=
  | ReplyError (status : Z) (message : string)
  | ReplyInitiatives (initiatives : list Initiative).

(** A handler answers at once or first calls the external producer with
    a prompt and goes on with what comes back (the parsed body of the
    reply, or the failure of the call). *)
Inductive handler : Type :=
  | Respond (r : reply)
  | CallProducer (prompt : string) (k : result jsval → handler).

(** [err.message || fallback] *)
Definition message_or (e : js_error) (fallback : string) : string :=
  let m := match e with
           | TypeError => type_error_message rt
           | Error m => m
           end in
  if bool_decide (m = "") then fallback else m.

Definition safeJsonParse (text : jsval) : result jsval :=
  match text with
  | JStr t =>
      match JSON_parse rt (strip_fences rt t) with
      | Some v => Ok v
      | None => Raise (Error "LLM returned invalid JSON")
      end
  | _ => Raise TypeError
  end.

(** From the producer's reply to the response. *)
Definition after_producer (fallback : string) (fetched : result jsval) : handler :=
  Respond
    match (raw ← fetched;
           choices ← Js.get raw "choices";
           first ← Js.get_first choices;
           message ← Js.get first "message";
           content ← Js.get message "content";
           if Js.truthy content then
             parsed ← safeJsonParse content;
             listed ← Js.get parsed "initiatives";
             normalizeInitiatives listed
           else Raise (Error "Empty response from OpenAI")) with
    | Ok initiatives => ReplyInitiatives initiatives
    | Raise e => ReplyError 500 (message_or e fallback)
    end.

(** The fields both handlers take out of [context] and [constraints]. *)
Definition read_context (context : jsval) : result (list jsval) :=
  organisation ← Js.destructure context "organisation" (JStr "");
  team ← Js.destructure context "team" (JStr "");
  goal ← Js.destructure context "goal" (JStr "");
  additionalContext ← Js.destructure context "additionalContext" (JStr "");
  Ok [organisation; team; goal; additionalContext].

Definition read_constraints (constraints : jsval) : result (list jsval) :=
  manDays ← Js.destructure constraints "manDays" (JNum Num.zero);
  timelineWeeks ← Js.destructure constraints "timelineWeeks" (JNum Num.one);
  startDate ← Js.destructure constraints "startDate" (JStr "");
  Ok [manDays; timelineWeeks; startDate].

(** [app.post('/ai/generate-roadmap', ...)] on the request body. *)
Definition generate_roadmap (body : jsval) : handler :=
  match (okrs ← Js.get body "okrs";
         context ← Js.destructure body "context" (JObj []);
         constraints ← Js.destructure body "constraints" (JObj []);
         ctx ← read_context context;
         limits ← read_constraints constraints;
         Ok (okrs, ctx, limits)) with
  | Raise e => Respond (ReplyError 500 (message_or e "Failed to generate roadmap"))
  | Ok (okrs, ctx, limits) =>
      match okrs with
      | JArr (o :: os) =>
          match generate_prompt rt (o :: os) ctx limits with
          | Ok prompt =>
              CallProducer prompt (after_producer "Failed to generate roadmap")
          | Raise e =>
              Respond (ReplyError 500 (message_or e "Failed to generate roadmap"))
          end
      | _ => Respond (ReplyError 400 "At least one OKR is required")
      end
  end.

(** [app.post('/ai/modify-roadmap', ...)] on the request body. *)
Definition modify_roadmap (body : jsval) : handler :=
  match (command ← Js.get body "command";
         initiatives ← Js.destructure body "initiatives" (JArr []);
         okrs ← Js.destructure body "okrs" (JArr []);
         context ← Js.destructure body "context" (JObj []);
         constraints ← Js.destructure body "constraints" (JObj []);
         ctx ← read_context context;
         limits ← read_constraints constraints;
         Ok (command, initiatives, ctx, limits)) with
  | Raise e => Respond (ReplyError 500 (message_or e "Failed to modify roadmap"))
  | Ok (command, initiatives, ctx, limits) =>
      if Js.truthy command then
        match modify_prompt rt command initiatives ctx limits with
        | Ok prompt =>
            CallProducer prompt (after_producer "Failed to modify roadmap")
        | Raise e =>
            Respond (ReplyError 500 (message_or e "Failed to modify roadmap"))
        end
      else Respond (ReplyError 400 "Command is required")
  end.

End Runtime.

(** The efforts a normaliser returns. *)
Definition efforts_of (r : result (list Initiative)) : result (list number) :=
  match r with
  | Ok l => Ok (map effortManDays l)
  | Raise e => Raise e
  end.

(** A request body the handlers can take apart: reading its properties
    does not raise, and neither [context] nor [constraints] is [null]. *)
Definition destructures (body : jsval) : Prop :=
  ∃ context constraints,
    Js.destructure body "context" (JObj []) = Ok context ∧ context ≠ JNull
    ∧ Js.destructure body "constraints" (JObj []) = Ok constraints
    ∧ constraints ≠ JNull.

(** A runtime to evaluate closed examples with. *)
Module Sample.

Definition rt : runtime :=
  {| string_to_number := λ _, NaN;
     to_string := λ _, "[object Object]";
     now := λ _, Num.of_Z 1700000000000;
     type_error_message := "Cannot destructure property";
     generate_prompt := λ _ _ _, Ok "generate";
     modify_prompt := λ _ _ _ _, Ok "modify";
     strip_fences := λ s, s;
     JSON_parse := λ _, None |}.

End Sample.

(** A handler that answers without calling the producer and without an
    initiative list. *)
Definition rejects (h : handler) (status : Z) : Prop :=
  ∃ message, h = Respond (ReplyError status message).

(** ** Reordering by drag *)

Module Drag.

(** [l.findIndex(p)] *)
Fixpoint findIndex {A : Type} (p : A → bool) (l : list A) : Z :=
  match l with
  | [] => -1
  | x :: rest =>
      if p x then 0
      else let i := findIndex p rest in if i <? 0 then -1 else i + 1
  end.

(** Where [splice] starts for a relative index. *)
Definition splice_start (len start : Z) : nat :=
  Z.to_nat (if start <? 0 then Z.max (len + start) 0 else Z.min start len).

(** [l.splice(start, 1)]: the element taken out, if any, and what is left. *)
Definition splice_out {A : Type} (l : list A) (start : Z) : option A * list A :=
  let i := splice_start (Z.of_nat (length l)) start in
  (l !! i, delete i l).

(** [l.splice(start, 0, x)] *)
Definition splice_in {A : Type} (l : list A) (start : Z) (x : A) : list A :=
  let i := splice_start (Z.of_nat (length l)) start in
  take i l ++ x :: drop i l.

(** [arrayMove] of the drag library:
    [newArray.splice(to < 0 ? newArray.length + to : to, 0,
                     newArray.splice(from, 1)[0])].
    [None] stands for an array that received an [undefined] entry. *)
Definition arrayMove {A : Type} (array : list A) (from to : Z) : option (list A) :=
  let target := if to <? 0 then Z.of_nat (length array) + to else to in
  let '(taken, rest) := splice_out array from in
  x ← taken; Some (splice_in rest target x).

(** The state update of [onDragEnd], for the identifiers the event
    carries; [over] is [None] when the event has no drop target. *)
Definition onDragEnd (active : number) (over : option number)
    (prev : list Initiative) : option (list Initiative) :=
  match over with
  | None => Some prev
  | Some o =>
      if Num.eqb active o then Some prev
      else arrayMove prev
             (findIndex (λ i, Num.eqb (id i) active) prev)
             (findIndex (λ i, Num.eqb (id i) o) prev)
  end.

End Drag.

(** ** Readings of a whole plan *)

(** A plan with [f] applied to every fragment and backlog entry. *)
Definition map_weeks (f : Initiative → Initiative) (bw : weekmap) : weekmap :=
  fmap (M := gmap Z) (fmap (M := list) f) bw.

Definition map_plan (f : Initiative → Initiative) (p : Plan) : Plan :=
  mkPlan (map_weeks f (byWeek p)) (f <$> backlog p).

Definition map_outcome {A B : Type} (f : A → B) (o : outcome A) : outcome B :=
  match o with
  | Done a => Done (f a)
  | Throw e => Throw e
  | OutOfFuel => OutOfFuel
  end.

(** A change of an initiative that the engine cannot see: it keeps [id],
    [week] and [effortManDays], and what it does to the other fields does
    not depend on [week] and [effortManDays]. *)
Definition metadata_only (f : Initiative → Initiative) : Prop :=
  (∀ i, id (f i) = id i ∧ week (f i) = week i
        ∧ effortManDays (f i) = effortManDays i)
  ∧ (∀ i e w, f (fragment i e w) = fragment (f i) e w).

(** The same change applied to the state of the loops. *)
Definition map_loop (f : Initiative → Initiative) (s : loop_state) : loop_state :=
  mkLoop (remaining s) (cursor s) (map_weeks f (weeks s)).

Definition map_state (f : Initiative → Initiative)
    (st : weekmap * list Initiative) : weekmap * list Initiative :=
  (map_weeks f st.1, f <$> st.2).

(** A plan with an edit of the initiative list applied to each of its
    lists, the weeks and the backlog. *)
Definition edit_plan (op : list Initiative → list Initiative) (p : Plan) : Plan :=
  mkPlan (op <$> byWeek p) (op (backlog p)).

(** Weeks whose fragments come from [items], each under a week at or after
    the first cursor of its initiative. *)
Definition sourced (items : list Initiative) (bw : weekmap) : Prop :=
  ∀ k frs f, bw !! k = Some frs → f ∈ frs →
    ∃ item e, item ∈ items ∧ f = fragment item e (Num.of_Z k)
              ∧ Num.leb (Num.max Num.one (week item)) (Num.of_Z k) = true.

(** Weeks whose fragments carry a finite effort in [(0, c]]. *)
Definition positive_within (c : Qc) (bw : weekmap) : Prop :=
  ∀ k frs, bw !! k = Some frs →
    Forall (λ f, ∃ e, effortManDays f = Fin e ∧ (0 < e)%Qc ∧ (e ≤ c)%Qc) frs.

(** Weeks in which no identifier occurs twice, all identifiers being
    among [seen]. *)
Definition distinct_in_weeks (seen : list number) (bw : weekmap) : Prop :=
  ∀ k frs, bw !! k = Some frs →
    NoDup (id <$> frs) ∧ ∀ f, f ∈ frs → id f ∈ seen.

(** ** The wire image of an initiative *)

(** [JSON.stringify] writes a number that is not finite as [null]. *)
Definition wire_number (n : number) : jsval :=
  if Num.isFinite n then JNum n else JNull.

(** An initiative as it travels in a request or a reply:
    [JSON.stringify] of the record, then [JSON.parse]. *)
Definition wire (i : Initiative) : jsval :=
  JObj [("id", wire_number (id i));
        ("title", JStr (title i));
        ("effortManDays", wire_number (effortManDays i));
        ("week", wire_number (week i));
        ("okr", JStr (okr i));
        ("taskDependencies", JArr (JStr <$> taskDependencies i));
        ("teamDependencies", JArr (JStr <$> teamDependencies i))].

(** What the front end keeps as it is: a finite [id], a title and an
    objective that are not empty, a whole number of man-days, a finite
    week other than 0. *)
Definition normal (i : Initiative) : Prop :=
  Num.isFinite (id i) = true
  ∧ title i ≠ ""
  ∧ Num.is_integer (effortManDays i) = true
  ∧ Num.isFinite (week i) = true ∧ Num.truthy (week i) = true
  ∧ okr i ≠ "".

(** [raw.choices[0].message.content], what both handlers read from the
    reply of the producer. *)
Definition reply_content (raw : jsval) : result jsval :=
  choices ← Js.get raw "choices";
  first ← Js.get_first choices;
  message ← Js.get first "message";
  Js.get message "content".

(** An entry a normaliser can take: its properties can be read, and its
    [title], [effortManDays], [week] and [okr] convert. *)
Definition readable (i : jsval) : Prop :=
  i ≠ JNull ∧ i ≠ JUndefined
  ∧ ∀ key v, key ∈ ["title"; "effortManDays"; "week"; "okr"] →
      Js.get i key = Ok v → Js.converts v = true.

(** ** The state of the component and what writes it *)

Module Okr.

Record t : Type := mk {
  id : number;
  text : string
}.

End Okr.

Module App.

(** The state the handlers below write; the form fields of the side bar
    are read-only for them. *)
Record state : Type := mkState {
  initiatives : list Initiative;
  okrs : list Okr.t;
  command : string;
  commandLoading : bool;
  generateLoading : bool;
  error : option string
}.

(** What [fetch] resolves to: [res.ok], [res.text()], [res.json()]. *)
Record response : Type := mkResponse {
  ok : bool;
  text : string;
  json : result jsval
}.

(** [safeFetch]: [if (!res.ok) throw new Error(await res.text()); return res.json()];
    the argument is what [await fetch(...)] gave, a response or the
    failure of the call. *)
Definition safeFetch (fetched : result response) : result jsval :=
  res ← fetched;
  if ok res then json res else Raise (Error (text res)).

(** [e.message] *)
Definition message_of (rt : runtime) (e : js_error) : string :=
  match e with
  | TypeError => type_error_message rt
  | Error m => m
  end.

(** The state once [generateRoadmap] has run to its end. *)
Definition generateRoadmap (rt : runtime) (fetched : result response)
    (s : state) : state :=
  match (data ← safeFetch fetched;
         listed ← Js.get data "initiatives";
         normaliseInitiatives rt listed) with
  | Ok l =>
      mkState l (okrs s) (command s) (commandLoading s) false None
  | Raise e =>
      mkState (initiatives s) (okrs s) (command s) (commandLoading s) false
        (Some (message_of rt e))
  end.

(** The state once [applyAiInstruction] has run to its end. *)
Definition applyAiInstruction (rt : runtime) (fetched : result response)
    (s : state) : state :=
  match (data ← safeFetch fetched;
         listed ← Js.get data "initiatives";
         normaliseInitiatives rt listed) with
  | Ok l =>
      mkState l (okrs s) "" false (generateLoading s) None
  | Raise e =>
      mkState (initiatives s) (okrs s) (command s) false (generateLoading s)
        (Some (message_of rt e))
  end.

(** [prev.map(x => x.id === target ? f(x) : x)] *)
Definition update_by_id (target : number) (f : Initiative → Initiative)
    (prev : list Initiative) : list Initiative :=
  (λ x, if Num.eqb (id x) target then f x else x) <$> prev.

(** [{ ...x, title: v }] and [{ ...x, effortManDays: v }] *)
Definition with_title (v : string) (x : Initiative) : Initiative :=
  mkInitiative (id x) v (effortManDays x) (week x) (okr x)
    (taskDependencies x) (teamDependencies x).

Definition with_effort (v : number) (x : Initiative) : Initiative :=
  mkInitiative (id x) (title x) v (week x) (okr x)
    (taskDependencies x) (teamDependencies x).

Definition with_task (deps : list string) (x : Initiative) : Initiative :=
  mkInitiative (id x) (title x) (effortManDays x) (week x) (okr x)
    deps (teamDependencies x).

Definition with_team (deps : list string) (x : Initiative) : Initiative :=
  mkInitiative (id x) (title x) (effortManDays x) (week x) (okr x)
    (taskDependencies x) deps.

(** The [onChange] of the title and effort inputs; [v] is
    [e.target.value], for the effort after [Number]. *)
Definition setTitle (target : number) (v : string)
    (prev : list Initiative) : list Initiative :=
  update_by_id target (with_title v) prev.

Definition setEffort (target : number) (v : number)
    (prev : list Initiative) : list Initiative :=
  update_by_id target (with_effort v) prev.

(** [[...new Set(l)]]: the first occurrence of each entry, in order. *)
Definition uniq (l : list string) : list string :=
  foldl (λ acc x, if bool_decide (x ∈ acc) then acc else acc ++ [x]) [] l.

(** The [onKeyDown] of the dependency inputs on Enter; [val] is the
    trimmed text, and an empty one changes nothing. *)
Definition addTaskDependency (target : number) (val : string)
    (prev : list Initiative) : list Initiative :=
  if bool_decide (val = "") then prev
  else update_by_id target
         (λ x, with_task (uniq (taskDependencies x ++ [val])) x) prev.

Definition addTeamDependency (target : number) (val : string)
    (prev : list Initiative) : list Initiative :=
  if bool_decide (val = "") then prev
  else update_by_id target
         (λ x, with_team (uniq (teamDependencies x ++ [val])) x) prev.

(** The [onClick] of the cross next to a dependency:
    [x.taskDependencies.filter(dep => dep !== d)]. *)
Definition removeTaskDependency (target : number) (d : string)
    (prev : list Initiative) : list Initiative :=
  update_by_id target
    (λ x, with_task (filter (λ dep, dep ≠ d) (taskDependencies x)) x) prev.

Definition removeTeamDependency (target : number) (d : string)
    (prev : list Initiative) : list Initiative :=
  update_by_id target
    (λ x, with_team (filter (λ dep, dep ≠ d) (teamDependencies x)) x) prev.

(** The [onClick] of the cross next to an objective:
    [setOkrs(prev => prev.filter(x => x.id !== o.id))] and
    [setInitiatives(prev => prev.filter(i => i.okr !== o.text))]. *)
Definition removeOkr (o : Okr.t) (s : state) : state :=
  mkState (filter (λ i, okr i ≠ Okr.text o) (initiatives s))
          (filter (λ x, Num.eqb (Okr.id x) (Okr.id o) = false) (okrs s))
          (command s) (commandLoading s) (generateLoading s) (error s).

End App.

(** * The engine over binary64

    The exact numbers above leave out the rounding of binary64.  Here the
    same lines of the component are written over doubles: the primitive
    [float] of the kernel with its arithmetic, which is the arithmetic of
    a JavaScript number. *)

Module F64.

(** The number a double stands for. *)
Definition value (x : float) : number :=
  match Prim2SF x with
  | S754_zero _ => Num.zero
  | S754_infinity s => if s then NInf else PInf
  | S754_nan => NaN
  | S754_finite s m e =>
      Fin (Q2Qc ((if s then -1 else 1) * inject_Z (Z.pos m) * 2 ^ e))
  end.

(** The property key [w] names in [byWeek[w]], for a [w] that is a whole
    number; the [for] loop creates no other key. *)
Definition key (w : float) : option Z := Num.to_Z (value w).

(** [Number.isFinite] *)
Definition isFinite (x : float) : bool :=
  negb (PrimFloat.is_nan x) && negb (PrimFloat.is_infinity x).

(** [Math.max(x, y)] and [Math.min(x, y)]: [NaN] when an argument is, and
    [+0] above [-0]. *)
Definition max (x y : float) : float :=
  if PrimFloat.is_nan x || PrimFloat.is_nan y then PrimFloat.nan
  else if PrimFloat.ltb x y then y
  else if PrimFloat.ltb y x then x
  else if PrimFloat.eqb x 0 then PrimFloat.add x y
  else x.

Definition min (x y : float) : float :=
  if PrimFloat.is_nan x || PrimFloat.is_nan y then PrimFloat.nan
  else if PrimFloat.ltb y x then y
  else if PrimFloat.ltb x y then x
  else if PrimFloat.eqb x 0
       then PrimFloat.opp (PrimFloat.add (PrimFloat.opp x) (PrimFloat.opp y))
  else x.

(** Truthiness of a number, and [x || y]. *)
Definition truthy (x : float) : bool :=
  negb (PrimFloat.is_nan x) && negb (PrimFloat.eqb x 0).

Definition or_else (x y : float) : float := if truthy x then x else y.

Record Initiative : Type := mkInitiative {
  id : float;
  title : string;
  effortManDays : float;
  week : float;
  okr : string;
  taskDependencies : list string;
  teamDependencies : list string
}.

(** [{ ...item, effortManDays: e, week: w }] *)
Definition fragment (item : Initiative) (e w : float) : Initiative :=
  {| id := id item;
     title := title item;
     effortManDays := e;
     week := w;
     okr := okr item;
     taskDependencies := taskDependencies item;
     teamDependencies := teamDependencies item |}.

Abbreviation table := (gmap Z (list Initiative)).

Record Plan : Type := mkPlan {
  byWeek : table;
  backlog : list Initiative
}.

(** [Number.isFinite(timelineWeeks) && timelineWeeks > 0 ? timelineWeeks : 1] *)
Definition safeWeeks (timelineWeeks : float) : float :=
  if isFinite timelineWeeks && PrimFloat.ltb 0 timelineWeeks
  then timelineWeeks else 1%float.

(** [manDays / safeWeeks] *)
Definition weeklyCapacity (manDays timelineWeeks : float) : float :=
  PrimFloat.div manDays (safeWeeks timelineWeeks).

(** [w++] for the counter of the [for] loop.  The counter starts at 1 and
    holds a whole number, written here as that integer.  Below [2^53]
    every whole number is a double and the sum is exact; [2^53 + 1] lies
    halfway between the doubles [2^53] and [2^53 + 2] and rounds to the
    even one, [2^53]: the counter stays where it is. *)
Definition next_week (w : Z) : Z := if w <? 2 ^ 53 then w + 1 else w.

(** [for (let w = 1; w <= safeWeeks; w++) byWeek[w] = []], from the
    counter [w] on; [w <= safeWeeks] compares the two numbers. *)
Fixpoint init_weeks (fuel : nat) (sw : float) (w : Z) (bw : table)
  : outcome table :=
  if Num.leb (Num.of_Z w) (value sw) then
    match fuel with
    | O => OutOfFuel
    | S fuel' => init_weeks fuel' sw (next_week w) (<[w := []]> bw)
    end
  else Done bw.

(** [frs.reduce((s, i) => s + i.effortManDays, 0)] *)
Definition used_of (frs : list Initiative) : float :=
  foldl (λ s i, PrimFloat.add s (effortManDays i)) 0%float frs.

(** [(a, b) => a.week - b.week || a.id - b.id] *)
Definition compare (a b : Initiative) : float :=
  or_else (PrimFloat.sub (week a) (week b)) (PrimFloat.sub (id a) (id b)).

Fixpoint insert_sorted (x : Initiative) (l : list Initiative) : list Initiative :=
  match l with
  | [] => [x]
  | y :: l' =>
      if PrimFloat.ltb 0 (compare x y) then y :: insert_sorted x l'
      else x :: l
  end.

Definition sort (l : list Initiative) : list Initiative :=
  foldr insert_sorted [] l.

Record loop_state : Type := mkLoop {
  remaining : float;
  cursor : float;
  weeks : table
}.

(** [remaining > 0 && w <= safeWeeks] *)
Definition loop_guard (sw : float) (s : loop_state) : bool :=
  PrimFloat.ltb 0 (remaining s) && PrimFloat.leb (cursor s) sw.

(** One pass through the body of the [while] loop. *)
Definition loop_body (cap : float) (item : Initiative) (s : loop_state)
  : outcome loop_state :=
  match key (cursor s) with
  | None => Throw TypeError
  | Some k =>
      match weeks s !! k with
      | None => Throw TypeError
      | Some frs =>
          let used := used_of frs in
          let capacityLeft := PrimFloat.sub cap used in
          if PrimFloat.leb capacityLeft 0 then
            Done (mkLoop (remaining s) (PrimFloat.add (cursor s) 1) (weeks s))
          else
            let effortThisWeek := min (remaining s) capacityLeft in
            Done (mkLoop (PrimFloat.sub (remaining s) effortThisWeek)
                         (PrimFloat.add (cursor s) 1)
                         (<[k := frs ++ [fragment item effortThisWeek (cursor s)]]>
                            (weeks s)))
      end
  end.

Fixpoint place (fuel : nat) (cap sw : float) (item : Initiative)
    (s : loop_state) : outcome loop_state :=
  if loop_guard sw s then
    match fuel with
    | O => OutOfFuel
    | S fuel' => s' ← loop_body cap item s; place fuel' cap sw item s'
    end
  else Done s.

(** The body of [for (const item of sorted)]. *)
Definition schedule_item (fuel : nat) (cap sw : float)
    (st : table * list Initiative) (item : Initiative)
  : outcome (table * list Initiative) :=
  s ← place fuel cap sw item
        (mkLoop (effortManDays item) (max 1 (week item)) st.1);
  Done (weeks s,
        if PrimFloat.ltb 0 (remaining s) then st.2 ++ [item] else st.2).

Fixpoint schedule_items (fuel : nat) (cap sw : float)
    (items : list Initiative) (st : table * list Initiative)
  : outcome (table * list Initiative) :=
  match items with
  | [] => Done st
  | item :: rest =>
      st' ← schedule_item fuel cap sw st item;
      schedule_items fuel cap sw rest st'
  end.

(** The [schedule] memo of the component; [fuel] bounds the passes of each
    of its loops. *)
Definition schedule (fuel : nat) (initiatives : list Initiative)
    (manDays timelineWeeks : float) : outcome Plan :=
  let sw := safeWeeks timelineWeeks in
  let cap := weeklyCapacity manDays timelineWeeks in
  bw ← init_weeks fuel sw 1 ∅;
  st ← schedule_items fuel cap sw (sort initiatives) (bw, []);
  Done (mkPlan st.1 st.2).


(** Every week of [bw] is there in [bw'] and begins as it does in [bw]. *)
Definition extends (bw bw' : table) : Prop :=
  ∀ k frs, bw !! k = Some frs → ∃ more, bw' !! k = Some (frs ++ more).



End F64.

(** * Properties *)

(** ** Rational arithmetic *)

Lemma Qc_eq_Qeq (x y : Qc) : x = y ↔ (x == y)%Q.
Proof. split; [intros ->; reflexivity | apply Qc_is_canon]. Qed.

Ltac qc_unfold :=
  unfold Qcle, Qclt, Qcminus, Qcplus, Qcopp, Qcmult, Q2Qc in *;
  cbn [this] in *;
  rewrite ?Qred_correct in *;
  change (inject_Z 0) with 0%Q in *;
  change (inject_Z 1) with 1%Q in *.

Ltac qc_lra :=
  intros;
  repeat match goal with
  | H : @eq Qc _ _ |- _ => apply Qc_eq_Qeq in H
  | H : not (@eq Qc _ _) |- _ => rewrite Qc_eq_Qeq in H
  | |- @eq Qc _ _ => apply Qc_eq_Qeq
  | |- not (@eq Qc _ _) => rewrite Qc_eq_Qeq
  end;
  qc_unfold; lra.

(** Turn the boolean tests of the model into propositions. *)
Ltac bool_hyps :=
  repeat match goal with
  | H : bool_decide _ = true |- _ => apply bool_decide_eq_true_1 in H
  | H : bool_decide _ = false |- _ => apply bool_decide_eq_false_1 in H
  | H : negb _ = true |- _ => apply negb_true_iff in H
  | H : negb _ = false |- _ => apply negb_false_iff in H
  | H : _ && _ = true |- _ => apply andb_true_iff in H; destruct H
  end.

Module NumFacts.

Lemma this_of_Z (z : Z) : this (Q2Qc (inject_Z z)) = inject_Z z.
Proof. apply inject_Z_Qred. Qed.

Lemma to_Z_of_Z (z : Z) : Num.to_Z (Num.of_Z z) = Some z.
Proof.
  unfold Num.to_Z, Num.of_Z. by rewrite this_of_Z.
Qed.

Lemma to_Z_Some (x : number) (z : Z) : Num.to_Z x = Some z → x = Num.of_Z z.
Proof.
  destruct x as [q| | |]; simpl; try done.
  case_bool_decide as Hd; [|done]. intros [= <-].
  unfold Num.of_Z. f_equal. apply Qc_is_canon. rewrite this_of_Z.
  destruct q as [[n d] Hc]; simpl in *. subst d. reflexivity.
Qed.

Lemma of_Z_inj (a b : Z) : Num.of_Z a = Num.of_Z b → a = b.
Proof.
  intros H. apply (f_equal Num.to_Z) in H. rewrite !to_Z_of_Z in H. congruence.
Qed.

Lemma add_of_Z (a b : Z) : Num.add (Num.of_Z a) (Num.of_Z b) = Num.of_Z (a + b).
Proof.
  unfold Num.of_Z; simpl. f_equal. apply Qc_is_canon.
  unfold Qcplus. rewrite !this_of_Z. unfold Q2Qc; cbn [this].
  rewrite !Qred_correct, inject_Z_plus. reflexivity.
Qed.

Lemma leb_of_Z (a b : Z) : Num.leb (Num.of_Z a) (Num.of_Z b) = true ↔ a ≤ b.
Proof.
  unfold Num.of_Z; simpl. rewrite bool_decide_eq_true.
  unfold Qcle. by rewrite !this_of_Z, Zle_Qle.
Qed.

Lemma ltb_of_Z (a b : Z) : Num.ltb (Num.of_Z a) (Num.of_Z b) = true ↔ a < b.
Proof.
  unfold Num.of_Z; simpl. rewrite bool_decide_eq_true.
  unfold Qclt. by rewrite !this_of_Z, Zlt_Qlt.
Qed.

(** An integer is below a rational exactly when it is below its floor. *)
Lemma leb_of_Z_Fin (a : Z) (q : Qc) :
  Num.leb (Num.of_Z a) (Fin q) = true ↔ a ≤ Qfloor q.
Proof.
  unfold Num.of_Z; simpl. rewrite bool_decide_eq_true.
  unfold Qcle. rewrite this_of_Z. split; intros H.
  - apply Qfloor_resp_le in H. by rewrite Qfloor_Z in H.
  - eapply Qle_trans; [|apply Qfloor_le]. by rewrite <- Zle_Qle.
Qed.

Lemma ltb_irrefl (x : number) : Num.ltb x x = false.
Proof.
  destruct x; simpl; try done. apply bool_decide_eq_false_2. qc_lra.
Qed.

Lemma ltb_leb (x y : number) : Num.ltb x y = true → Num.leb x y = true.
Proof.
  destruct x, y; simpl; try done. rewrite !bool_decide_eq_true. qc_lra.
Qed.

End NumFacts.

(** ** The capacity model *)

Lemma safeWeeks_cases (tw : number) :
  (∃ q, tw = Fin q ∧ (0 < q)%Qc ∧ safeWeeks tw = tw)
  ∨ ((Num.isFinite tw && Num.gtb tw Num.zero) = false ∧ safeWeeks tw = Num.one).
Proof.
  unfold safeWeeks.
  destruct (Num.isFinite tw && Num.gtb tw Num.zero) eqn:E; [left | by right].
  destruct tw as [q| | |]; try done. exists q. split; [done|]. split; [|done].
  simpl in E. unfold Num.gtb in E. simpl in E. bool_hyps. qc_lra.
Qed.

Lemma safeWeeks_finite (tw : number) :
  ∃ q, safeWeeks tw = Fin q ∧ (0 < q)%Qc.
Proof.
  destruct (safeWeeks_cases tw) as [(q & -> & Hq & ->)|[_ ->]]; [by exists q|].
  eexists. split; [reflexivity|]. done.
Qed.

(** ** The week table *)

Lemma init_fold_lookup (ks : list Z) (m : weekmap) (k : Z) :
  foldl (λ m k, <[k := []]> m) m ks !! k
  = if decide (k ∈ ks) then Some [] else m !! k.
Proof.
  revert m. induction ks as [|a ks IH]; intros m; cbn [foldl].
  - case_decide; [set_solver | done].
  - rewrite IH, lookup_insert.
    destruct (decide (k ∈ ks)) as [Hin|Hin], (decide (a = k)) as [->|Hne];
      destruct (decide (k ∈ _ :: ks)) as [Hin'|Hin']; try done;
      try (exfalso; apply Hin'; constructor; done).
    apply elem_of_cons in Hin' as [?|?]; done.
Qed.

Lemma init_byWeek_lookup (sw : number) (k : Z) :
  init_byWeek sw !! k
  = if decide (1 ≤ k ≤ week_count sw) then Some [] else None.
Proof.
  unfold init_byWeek. rewrite init_fold_lookup, lookup_empty.
  repeat case_decide; try done;
    match goal with H : context [_ ∈ seqZ _ _] |- _ => rewrite elem_of_seqZ in H end;
    lia.
Qed.

(** ** One pass of the placement loop *)

Lemma week_slot_Some (bw : weekmap) (w : number) (k : Z) (frs : list Initiative) :
  week_slot bw w = Some (k, frs) ↔ w = Num.of_Z k ∧ bw !! k = Some frs.
Proof.
  unfold week_slot. split.
  - destruct (Num.to_Z w) as [k'|] eqn:Hk; simpl; [|done].
    destruct (bw !! k') as [frs'|] eqn:Hl; simpl; [|done].
    intros [= <- <-]. split; [by apply NumFacts.to_Z_Some | done].
  - intros [-> Hl]. rewrite NumFacts.to_Z_of_Z. simpl. by rewrite Hl.
Qed.

(** What a pass of the loop body does when it does not raise. *)
Lemma loop_body_Done (cap : number) (item : Initiative) (s s' : loop_state) :
  loop_body cap item s = Done s' →
  ∃ k frs,
    cursor s = Num.of_Z k ∧ weeks s !! k = Some frs ∧
    cursor s' = Num.of_Z (k + 1) ∧
    let capacityLeft := Num.sub cap (used_of frs) in
    (Num.leb capacityLeft Num.zero = true ∧
       remaining s' = remaining s ∧ weeks s' = weeks s)
    ∨ (Num.leb capacityLeft Num.zero = false ∧
       let e := Num.min (remaining s) capacityLeft in
       remaining s' = Num.sub (remaining s) e ∧
       weeks s' = <[k := frs ++ [fragment item e (Num.of_Z k)]]> (weeks s)).
Proof.
  unfold loop_body. destruct (week_slot (weeks s) (cursor s)) as [[k frs]|] eqn:Hs;
    [|done].
  apply week_slot_Some in Hs as [Hc Hl]. intros H. exists k, frs.
  rewrite Hc in *. split; [done|]. split; [done|].
  destruct (Num.leb (Num.sub cap (used_of frs)) Num.zero) eqn:Hle;
    injection H as <-; cbn [cursor remaining weeks];
    (split; [exact (NumFacts.add_of_Z k 1)|]); [left | right]; done.
Qed.

Lemma loop_body_fuel (cap : number) (item : Initiative) (s : loop_state) :
  loop_body cap item s ≠ OutOfFuel.
Proof.
  unfold loop_body. destruct (week_slot _ _) as [[k frs]|]; [|done].
  by destruct (Num.leb _ _).
Qed.

(** A property kept by every pass holds when the loop is left. *)
Lemma place_invariant (P : loop_state → Prop) (cap sw : number) (item : Initiative) :
  (∀ s s', P s → loop_guard sw s = true → loop_body cap item s = Done s' → P s') →
  ∀ fuel s s', P s → place fuel cap sw item s = Done s' →
    P s' ∧ loop_guard sw s' = false.
Proof.
  intros Hstep fuel. induction fuel as [|fuel IH]; intros s s' HP; simpl;
    destruct (loop_guard sw s) eqn:Hg; try done.
  - intros [= <-]. done.
  - destruct (loop_body cap item s) as [s1| |] eqn:Hb; simpl; try done.
    unfold mbind, outcome_bind; simpl. apply IH. eauto.
  - intros [= <-]. done.
Qed.

(** The same for the loop over the sorted initiatives. *)
Lemma schedule_items_invariant (P : weekmap * list Initiative → Prop)
    (fuel : nat) (cap sw : number) (items : list Initiative) :
  (∀ st item st', P st → item ∈ items →
     schedule_item fuel cap sw st item = Done st' → P st') →
  ∀ st st', P st → schedule_items fuel cap sw items st = Done st' → P st'.
Proof.
  induction items as [|item rest IH]; intros Hstep st st' HP; simpl.
  - by intros [= <-].
  - unfold mbind, outcome_bind.
    destruct (schedule_item fuel cap sw st item) as [st1| |] eqn:Hi; simpl; try done.
    apply IH.
    + intros ???? Hin. apply Hstep; [done | by apply list_elem_of_further].
    + eapply Hstep; [done | by apply list_elem_of_here | done].
Qed.

Lemma schedule_item_Done (fuel : nat) (cap sw : number)
    (st st' : weekmap * list Initiative) (item : Initiative) :
  schedule_item fuel cap sw st item = Done st' →
  ∃ s, place fuel cap sw item
         (mkLoop (effortManDays item) (Num.max Num.one (week item)) st.1) = Done s
       ∧ st'.1 = weeks s
       ∧ st'.2 = if Num.gtb (remaining s) Num.zero then st.2 ++ [item] else st.2.
Proof.
  unfold schedule_item, mbind, outcome_bind.
  destruct (place _ _ _ _ _) as [s| |]; simpl; try done.
  intros [= <-]. by exists s.
Qed.

Lemma schedule_Done (initiatives : list Initiative) (manDays tw : number) (out : Plan) :
  schedule initiatives manDays tw = Done out →
  schedule_items (loop_fuel (safeWeeks tw)) (weeklyCapacity manDays tw)
    (safeWeeks tw) (sort initiatives) (init_byWeek (safeWeeks tw), [])
  = Done (byWeek out, backlog out).
Proof.
  unfold schedule, schedule_fuel, mbind, outcome_bind.
  destruct (schedule_items _ _ _ _ _) as [[bw bl]| |]; simpl; try done.
  by intros [= <-].
Qed.

(** ** Termination of the placement loop *)

(** More fuel never changes a run that did not run out of it. *)
Lemma place_fuel_mono (cap sw : number) (item : Initiative) (fuel fuel' : nat)
    (s : loop_state) :
  place fuel cap sw item s ≠ OutOfFuel → (fuel ≤ fuel')%nat →
  place fuel' cap sw item s = place fuel cap sw item s.
Proof.
  revert fuel' s. induction fuel as [|fuel IH]; intros fuel' s Hne Hle.
  - destruct fuel'; [done|]. simpl in *.
    destruct (loop_guard sw s); [by destruct Hne | done].
  - destruct fuel' as [|fuel']; [lia|]. simpl in *.
    destruct (loop_guard sw s); [|done].
    destruct (loop_body cap item s) as [s1| |]; simpl in *; try done.
    apply IH; [done | lia].
Qed.

(** The cursor of the first pass: [Math.max(1, item.week)]. *)
Lemma first_cursor (w : number) (q : Qc) :
  Num.leb (Num.max Num.one w) (Fin q) = true →
  ∃ c, Num.max Num.one w = Fin c ∧ (1 ≤ Qfloor c)%Z.
Proof.
  destruct w as [c| | |]; simpl; try done.
  - intros _. case_bool_decide as Hlt; eexists; (split; [reflexivity|]).
    + apply (Qfloor_resp_le 1). unfold Qclt in Hlt. simpl in Hlt.
      by apply Qlt_le_weak.
    + done.
  - intros _. eexists. split; [reflexivity | done].
Qed.

(** Every pass moves the cursor one week forward, so the passes left are
    bounded by the distance between the cursor and the last week. *)
Lemma place_enough_fuel (cap : number) (q : Qc) (item : Initiative)
    (fuel : nat) (s : loop_state) :
  (loop_guard (Fin q) s = true →
     ∃ c, cursor s = Fin c ∧ (Qfloor q - Qfloor c < Z.of_nat fuel)%Z) →
  place fuel cap (Fin q) item s ≠ OutOfFuel.
Proof.
  revert s. induction fuel as [|fuel IH]; intros s Hc; simpl;
    destruct (loop_guard (Fin q) s) eqn:Hg; try done.
  - destruct (Hc eq_refl) as (c & Hcur & Hlt).
    unfold loop_guard in Hg. rewrite Hcur in Hg. simpl in Hg. bool_hyps.
    assert (Qfloor c ≤ Qfloor q)%Z by (by apply Qfloor_resp_le). lia.
  - destruct (loop_body cap item s) as [s1| |] eqn:Hb; simpl; try done;
      [|by apply loop_body_fuel in Hb].
    apply IH. intros _.
    destruct (Hc eq_refl) as (c & Hcur & Hlt).
    apply loop_body_Done in Hb as (k & frs & Hk & _ & Hk' & _).
    eexists. split; [exact Hk'|].
    rewrite Hk in Hcur. injection Hcur as <-.
    rewrite !NumFacts.this_of_Z, !Qfloor_Z in *. lia.
Qed.

Lemma schedule_item_terminates (cap : number) (q : Qc) (fuel : nat)
    (st : weekmap * list Initiative) (item : Initiative) :
  (loop_fuel (Fin q) ≤ fuel)%nat →
  schedule_item fuel cap (Fin q) st item ≠ OutOfFuel.
Proof.
  intros Hfuel. unfold schedule_item, mbind, outcome_bind.
  pose proof (place_enough_fuel cap q item fuel
    (mkLoop (effortManDays item) (Num.max Num.one (week item)) st.1)) as Hp.
  destruct (place _ _ _ _ _) as [s| |]; simpl; try done.
  exfalso. apply Hp; [|done]. unfold loop_guard; cbn [cursor remaining]. intros Hg.
  apply andb_true_iff in Hg as [_ Hle].
  apply first_cursor in Hle as (c & -> & Hc).
  exists c. split; [done|]. unfold loop_fuel, week_count in Hfuel. lia.
Qed.

Lemma schedule_item_fuel_mono (cap : number) (q : Qc) (fuel : nat)
    (st : weekmap * list Initiative) (item : Initiative) :
  (loop_fuel (Fin q) ≤ fuel)%nat →
  schedule_item fuel cap (Fin q) st item
  = schedule_item (loop_fuel (Fin q)) cap (Fin q) st item.
Proof.
  intros Hfuel.
  pose proof (schedule_item_terminates cap q (loop_fuel (Fin q)) st item
                (le_n _)) as Hne.
  unfold schedule_item, mbind, outcome_bind in *.
  rewrite (place_fuel_mono _ _ _ (loop_fuel (Fin q)) fuel); [done | | done].
  intros Heq. by rewrite Heq in Hne.
Qed.

Lemma schedule_items_fuel_mono (cap : number) (q : Qc) (fuel : nat)
    (items : list Initiative) (st : weekmap * list Initiative) :
  (loop_fuel (Fin q) ≤ fuel)%nat →
  schedule_items fuel cap (Fin q) items st
  = schedule_items (loop_fuel (Fin q)) cap (Fin q) items st.
Proof.
  intros Hfuel. revert st. induction items as [|item rest IH]; intros st; simpl;
    [done|].
  rewrite schedule_item_fuel_mono by done.
  unfold mbind, outcome_bind.
  destruct (schedule_item _ _ _ _ _); simpl; [apply IH | done | done].
Qed.

Lemma schedule_items_terminates (cap : number) (q : Qc)
    (items : list Initiative) (st : weekmap * list Initiative) :
  schedule_items (loop_fuel (Fin q)) cap (Fin q) items st ≠ OutOfFuel.
Proof.
  revert st. induction items as [|item rest IH]; intros st; simpl; [done|].
  pose proof (schedule_item_terminates cap q _ st item (le_n _)) as Hne.
  unfold mbind, outcome_bind.
  destruct (schedule_item _ _ _ _ _); simpl; [apply IH | done | done].
Qed.

(** ** Sums of finite efforts *)

Lemma used_of_from (a : Qc) (frs : list Initiative) :
  finite_efforts frs →
  foldl (λ s i, Num.add s (effortManDays i)) (Fin a) frs
  = Fin (a + effort_sum frs)%Qc.
Proof.
  revert a. induction frs as [|f frs IH]; intros a Hfin; simpl.
  - f_equal. qc_lra.
  - inversion Hfin as [|? ? Hf Hrest]; subst.
    destruct (effortManDays f) as [e| | |] eqn:He; try done. simpl.
    rewrite IH by done. f_equal. qc_lra.
Qed.

Lemma used_of_finite (frs : list Initiative) :
  finite_efforts frs → used_of frs = Fin (effort_sum frs).
Proof.
  intros Hfin. unfold used_of, Num.zero, Num.of_Z.
  rewrite used_of_from by done. f_equal. qc_lra.
Qed.

Lemma effort_sum_app (l1 l2 : list Initiative) :
  effort_sum (l1 ++ l2) = (effort_sum l1 + effort_sum l2)%Qc.
Proof.
  induction l1 as [|f l1 IH]; simpl; [qc_lra|]. rewrite IH. qc_lra.
Qed.

(** The amount a pass emits: positive, within what the week has left and
    within what the initiative still needs. *)
Lemma emitted_amount (c u : Qc) (rem : number) :
  Num.gtb rem Num.zero = true →
  Num.leb (Num.sub (Fin c) (Fin u)) Num.zero = false →
  ∃ e, Num.min rem (Num.sub (Fin c) (Fin u)) = Fin e ∧
       (0 < e)%Qc ∧ (u + e ≤ c)%Qc ∧
       ((∃ r, rem = Fin r ∧ (e ≤ r)%Qc ∧ Num.sub rem (Fin e) = Fin (r - e)%Qc)
        ∨ (rem = PInf ∧ Num.sub rem (Fin e) = PInf)).
Proof.
  unfold Num.gtb. intros Hpos Hleft.
  destruct rem as [r| | |]; simpl in *; try done; bool_hyps.
  - case_bool_decide as Hlt; eexists; (split; [reflexivity|]);
      (split; [qc_lra|]); (split; [qc_lra|]); left; eexists;
      (split; [reflexivity|]); (split; [qc_lra|]); f_equal.
  - eexists. split; [reflexivity|]. split; [qc_lra|]. split; [qc_lra|].
    by right.
Qed.

(** A pass of the loop over a well-formed table, under a finite capacity. *)
Lemma loop_body_finite (c : Qc) (sw : number) (ks : list Z) (item : Initiative)
    (s s' : loop_state) :
  well_formed ks (weeks s) →
  loop_guard sw s = true →
  loop_body (Fin c) item s = Done s' →
  ∃ k frs,
    cursor s = Num.of_Z k ∧ weeks s !! k = Some frs ∧
    cursor s' = Num.of_Z (k + 1) ∧
    ((remaining s' = remaining s ∧ weeks s' = weeks s)
     ∨ ∃ e, (0 < e)%Qc ∧ (effort_sum frs + e ≤ c)%Qc ∧
            weeks s' = <[k := frs ++ [fragment item (Fin e) (Num.of_Z k)]]> (weeks s) ∧
            ((∃ r, remaining s = Fin r ∧ (e ≤ r)%Qc ∧ remaining s' = Fin (r - e)%Qc)
             ∨ (remaining s = PInf ∧ remaining s' = PInf))).
Proof.
  intros Hwf Hg Hb.
  apply loop_body_Done in Hb as (k & frs & Hk & Hl & Hk' & Hcases).
  exists k, frs. split; [done|]. split; [done|]. split; [done|].
  destruct Hcases as [(_ & Hr & Hw)|(Hleft & Hr & Hw)]; [by left | right].
  destruct (Hwf k frs Hl) as (_ & Hfin & _).
  rewrite (used_of_finite frs Hfin) in *.
  unfold loop_guard in Hg. apply andb_true_iff in Hg as [Hpos _].
  destruct (emitted_amount c (effort_sum frs) (remaining s) Hpos Hleft)
    as (e & He & He0 & Hec & Hrem).
  rewrite He in *. exists e. split; [done|]. split; [done|]. split; [done|].
  destruct Hrem as [(r & Hr1 & Hr2 & Hr3)|[Hr1 Hr2]]; [left | right].
  - exists r. split; [done|]. split; [done|]. by rewrite Hr, Hr3.
  - split; [done|]. by rewrite Hr, Hr2.
Qed.

(** ** Appending a fragment to a week *)

Lemma extends_refl (bw : weekmap) : extends bw bw.
Proof.
  intros k. destruct (bw !! k) as [frs|]; [|done]. exists []. by rewrite app_nil_r.
Qed.

Lemma extends_trans (bw1 bw2 bw3 : weekmap) :
  extends bw1 bw2 → extends bw2 bw3 → extends bw1 bw3.
Proof.
  intros H12 H23 k. specialize (H12 k). specialize (H23 k).
  destruct (bw1 !! k), (bw2 !! k), (bw3 !! k); try done.
  destruct H12 as [m1 ->], H23 as [m2 ->]. exists (m1 ++ m2). by rewrite app_assoc.
Qed.

Lemma extends_insert (bw : weekmap) (k : Z) (frs more : list Initiative) :
  bw !! k = Some frs → extends bw (<[k := frs ++ more]> bw).
Proof.
  intros Hl j. destruct (decide (k = j)) as [<-|Hne].
  - rewrite lookup_insert_eq, Hl. by exists more.
  - rewrite lookup_insert_ne by done. apply extends_refl.
Qed.

Lemma extends_keys (bw bw' : weekmap) (k : Z) :
  extends bw bw' → is_Some (bw' !! k) ↔ is_Some (bw !! k).
Proof.
  intros H. specialize (H k).
  destruct (bw !! k), (bw' !! k); try done; split; intros [? ?]; done.
Qed.

Lemma well_formed_insert (ks : list Z) (bw : weekmap) (k : Z)
    (frs : list Initiative) (item : Initiative) (e : Qc) :
  well_formed ks bw → bw !! k = Some frs →
  well_formed ks (<[k := frs ++ [fragment item (Fin e) (Num.of_Z k)]]> bw).
Proof.
  intros Hwf Hl j frs'. destruct (decide (k = j)) as [<-|Hne].
  - rewrite lookup_insert_eq. intros [= <-].
    destruct (Hwf k frs Hl) as (Hin & Hfin & Hwk).
    split; [done|]. split; apply Forall_app; (split; [done|]);
      by constructor.
  - rewrite lookup_insert_ne by done. apply Hwf.
Qed.

Lemma bounded_insert (c : Qc) (bw : weekmap) (k : Z)
    (frs : list Initiative) (item : Initiative) (e : Qc) :
  bounded c bw → bw !! k = Some frs → (effort_sum frs + e ≤ c)%Qc →
  bounded c (<[k := frs ++ [fragment item (Fin e) (Num.of_Z k)]]> bw).
Proof.
  intros Hb Hl He j frs'. destruct (decide (k = j)) as [<-|Hne].
  - rewrite lookup_insert_eq. intros [= <-] _.
    rewrite effort_sum_app. simpl. qc_lra.
  - rewrite lookup_insert_ne by done. apply Hb.
Qed.

Lemma fragments_of_app (x : number) (l1 l2 : list Initiative) :
  fragments_of x (l1 ++ l2) = fragments_of x l1 ++ fragments_of x l2.
Proof. apply list.filter_app. Qed.

Lemma placed_sum_insert_notin (x : number) (bw : weekmap) (k : Z)
    (frs : list Initiative) (ks : list Z) :
  k ∉ ks → placed_sum x (<[k := frs]> bw) ks = placed_sum x bw ks.
Proof.
  induction ks as [|a ks IH]; intros Hnotin; simpl; [done|].
  apply not_elem_of_cons in Hnotin as [Hne Hnotin].
  rewrite lookup_insert_ne by done. by rewrite IH.
Qed.

(** Appending [f] to week [k] adds the effort of [f] to what is placed for
    its identifier, and to nothing else. *)
Lemma placed_sum_insert (x : number) (bw : weekmap) (k : Z)
    (frs : list Initiative) (f : Initiative) (ks : list Z) :
  NoDup ks → k ∈ ks → bw !! k = Some frs →
  placed_sum x (<[k := frs ++ [f]]> bw) ks
  = (placed_sum x bw ks
     + (if decide (id f = x) then to_Qc (effortManDays f) else 0))%Qc.
Proof.
  intros Hnd Hin Hl. induction ks as [|a ks IH]; [by apply elem_of_nil in Hin|].
  apply NoDup_cons in Hnd as [Ha Hnd]. simpl.
  destruct (decide (a = k)) as [->|Hne].
  - rewrite lookup_insert_eq, Hl. simpl.
    rewrite placed_sum_insert_notin by done.
    rewrite fragments_of_app, effort_sum_app.
    unfold fragments_of at 2.
    rewrite list.filter_cons, list.filter_nil.
    destruct (decide (id f = x)); simpl; qc_lra.
  - rewrite lookup_insert_ne by done.
    apply elem_of_cons in Hin as [->|Hin]; [done|].
    rewrite IH by done. destruct (decide (id f = x)); qc_lra.
Qed.

(** ** The placement loop under a finite capacity *)

Lemma place_post_start (c : Qc) (ks : list Z) (item : Initiative) (s0 : loop_state) :
  well_formed ks (weeks s0) → place_post c ks item s0 s0.
Proof.
  intros Hwf. split; [done|]. split; [apply extends_refl|]. split; [done|].
  split; [done|]. split; [|done]. intros r0 Hr0 Hpos. by exists r0.
Qed.

Lemma place_post_step (c : Qc) (sw : number) (ks : list Z) (item : Initiative)
    (s0 s s' : loop_state) :
  NoDup ks →
  place_post c ks item s0 s → loop_guard sw s = true →
  loop_body (Fin c) item s = Done s' → place_post c ks item s0 s'.
Proof.
  intros Hnd (Hwf & Hext & Hbnd & Hoth & Hfin & Hinf) Hg Hb.
  destruct (loop_body_finite c sw ks item s s' Hwf Hg Hb)
    as (k & frs & Hk & Hl & Hk' & [[Hr Hw]|(e & He0 & Hec & Hw & Hrem)]).
  { unfold place_post. rewrite Hw, Hr. done. }
  destruct (Hwf k frs Hl) as (Hin & _ & _).
  unfold place_post. rewrite Hw. split; [by apply well_formed_insert|].
  split; [eapply extends_trans; [exact Hext | by apply extends_insert]|].
  split; [intros Hb0; apply bounded_insert; auto|].
  split.
  { intros x Hx. rewrite placed_sum_insert by done. simpl.
    rewrite decide_False by done. rewrite <- Hoth by done. qc_lra. }
  split.
  - intros r0 Hr0 Hpos. destruct (Hfin r0 Hr0 Hpos) as (r & Hr & Hrpos & Heq).
    destruct Hrem as [(r1 & Hr1 & Hle & Hr')|[Hr1 _]]; [|congruence].
    rewrite Hr in Hr1. injection Hr1 as <-.
    exists (r - e)%Qc. split; [done|]. split; [qc_lra|].
    rewrite placed_sum_insert by done. simpl.
    rewrite decide_True by done. qc_lra.
  - intros H0. specialize (Hinf H0).
    destruct Hrem as [(r1 & Hr1 & _)|[_ Hr']]; [congruence | done].
Qed.

Lemma place_finite (c : Qc) (sw : number) (ks : list Z) (item : Initiative)
    (fuel : nat) (s0 s' : loop_state) :
  NoDup ks → well_formed ks (weeks s0) →
  place fuel (Fin c) sw item s0 = Done s' →
  place_post c ks item s0 s' ∧ loop_guard sw s' = false.
Proof.
  intros Hnd Hwf. apply place_invariant.
  - intros s s1. by apply place_post_step.
  - by apply place_post_start.
Qed.

(** ** Weeks only grow, the backlog only grows *)

Lemma loop_body_extends (cap : number) (item : Initiative) (s s' : loop_state) :
  loop_body cap item s = Done s' → extends (weeks s) (weeks s').
Proof.
  intros Hb. apply loop_body_Done in Hb as (k & frs & _ & Hl & _ & Hcases).
  destruct Hcases as [(_ & _ & ->)|(_ & _ & ->)];
    [apply extends_refl | by apply extends_insert].
Qed.

Lemma place_extends (fuel : nat) (cap sw : number) (item : Initiative)
    (s s' : loop_state) :
  place fuel cap sw item s = Done s' → extends (weeks s) (weeks s').
Proof.
  intros Hp.
  apply (place_invariant (λ s1, extends (weeks s) (weeks s1)) cap sw item)
    in Hp as [H _]; [done | | apply extends_refl].
  intros s1 s2 H1 _ Hb. eapply extends_trans; [exact H1|].
  by eapply loop_body_extends.
Qed.

Lemma schedule_item_extends (fuel : nat) (cap sw : number)
    (st st' : weekmap * list Initiative) (item : Initiative) :
  schedule_item fuel cap sw st item = Done st' →
  extends st.1 st'.1 ∧ (st'.2 = st.2 ∨ st'.2 = st.2 ++ [item]).
Proof.
  intros H. apply schedule_item_Done in H as (s & Hp & -> & ->).
  split; [by apply place_extends in Hp|].
  destruct (Num.gtb _ _); [by right | by left].
Qed.

Lemma schedule_items_extends (fuel : nat) (cap sw : number)
    (items : list Initiative) (st st' : weekmap * list Initiative) :
  schedule_items fuel cap sw items st = Done st' →
  extends st.1 st'.1 ∧ ∃ added, st'.2 = st.2 ++ added ∧ sublist added items.
Proof.
  revert st. induction items as [|item rest IH]; intros st; simpl.
  - intros [= <-]. split; [apply extends_refl|]. exists [].
    by rewrite app_nil_r.
  - unfold mbind, outcome_bind.
    destruct (schedule_item fuel cap sw st item) as [st1| |] eqn:Hi; simpl; try done.
    intros Hrest. apply IH in Hrest as (Hext & added & Hadd & Hsub).
    apply schedule_item_extends in Hi as [Hext1 Hbl].
    split; [by eapply extends_trans|].
    destruct Hbl as [Hbl|Hbl]; rewrite Hbl in Hadd.
    + exists added. split; [done | by apply sublist_cons].
    + exists (item :: added). split; [by rewrite <- app_assoc in Hadd|].
      by apply sublist_skip.
Qed.

(** Running the loop over [pre ++ post] is running it over [pre], then over
    [post] from the state reached. *)
Lemma schedule_items_app (fuel : nat) (cap sw : number)
    (pre post : list Initiative) (st : weekmap * list Initiative) :
  schedule_items fuel cap sw (pre ++ post) st
  = st' ← schedule_items fuel cap sw pre st; schedule_items fuel cap sw post st'.
Proof.
  revert st. induction pre as [|item pre IH]; intros st; simpl; [done|].
  unfold mbind, outcome_bind in *.
  destruct (schedule_item fuel cap sw st item); simpl; [apply IH | done | done].
Qed.

(** ** One initiative, then all of them, under a finite capacity *)

Lemma schedule_item_finite (c : Qc) (sw : number) (ks : list Z) (fuel : nat)
    (st st' : weekmap * list Initiative) (item : Initiative) :
  NoDup ks → well_formed ks st.1 →
  schedule_item fuel (Fin c) sw st item = Done st' →
  well_formed ks st'.1 ∧ (bounded c st.1 → bounded c st'.1) ∧
  (∀ x, x ≠ id item → placed_sum x st'.1 ks = placed_sum x st.1 ks) ∧
  (st'.2 = st.2 ++ [item]
   ∨ (st'.2 = st.2 ∧
      (Num.geb (effortManDays item) Num.zero = true →
       ∃ e, effortManDays item = Fin e ∧
            placed_sum (id item) st'.1 ks
            = (placed_sum (id item) st.1 ks + e)%Qc))).
Proof.
  intros Hnd Hwf H. apply schedule_item_Done in H as (s & Hp & Hw & Hbl).
  apply (place_finite c sw ks) in Hp as [Hpost _]; [|exact Hnd|exact Hwf].
  destruct Hpost as (Hwf' & _ & Hb & Hoth & Hfin & Hinf).
  cbn [weeks remaining] in *. rewrite Hw, Hbl.
  split; [done|]. split; [done|]. split; [done|].
  destruct (Num.gtb (remaining s) Num.zero) eqn:Hgt; [by left | right].
  split; [done|]. intros Hge. unfold Num.geb in Hge.
  destruct (effortManDays item) as [r0| | |] eqn:He; simpl in Hge; try done.
  - bool_hyps. destruct (Hfin r0 eq_refl) as (r & Hr & Hr0 & Heq); [qc_lra|].
    exists r0. split; [done|]. rewrite Hr in Hgt. unfold Num.gtb in Hgt.
    simpl in Hgt. bool_hyps. qc_lra.
  - rewrite (Hinf eq_refl) in Hgt. done.
Qed.

Lemma schedule_items_finite (c : Qc) (sw : number) (ks : list Z) (fuel : nat)
    (items : list Initiative) (st st' : weekmap * list Initiative) :
  NoDup ks → well_formed ks st.1 →
  schedule_items fuel (Fin c) sw items st = Done st' →
  well_formed ks st'.1 ∧ (bounded c st.1 → bounded c st'.1) ∧
  (∀ x, x ∉ id <$> st'.2 →
     Forall (λ i, Num.geb (effortManDays i) Num.zero = true) items →
     finite_efforts (fragments_of x items) ∧
     placed_sum x st'.1 ks
     = (placed_sum x st.1 ks + effort_sum (fragments_of x items))%Qc).
Proof.
  intros Hnd. revert st. induction items as [|item rest IH]; intros st Hwf; simpl.
  - intros [= <-]. split; [done|]. split; [done|]. intros x _ _.
    split; [constructor|]. simpl. qc_lra.
  - unfold mbind, outcome_bind.
    destruct (schedule_item fuel (Fin c) sw st item) as [st1| |] eqn:Hi; simpl;
      try done.
    intros Hrest.
    destruct (schedule_items_extends _ _ _ _ _ _ Hrest) as (_ & added & Hadd & _).
    apply schedule_item_finite with (ks := ks) in Hi
      as (Hwf1 & Hb1 & Hoth & Hbl); [|done..].
    apply IH in Hrest as (Hwf' & Hb' & Hsum); [|done].
    split; [done|]. split; [auto|].
    intros x Hx Hge. apply Forall_cons in Hge as [Hge1 Hge].
    destruct (Hsum x Hx Hge) as [Hfin Heq].
    unfold fragments_of in *. rewrite filter_cons.
    destruct (decide (id item = x)) as [Hid|Hid].
    + destruct Hbl as [Hbl|[_ Hbl]].
      { exfalso. apply Hx. rewrite Hadd, Hbl, !fmap_app. simpl.
        rewrite Hid. apply elem_of_app. left. apply elem_of_app. right.
        apply list_elem_of_here. }
      destruct (Hbl Hge1) as (e & He & Hpl). split.
      * constructor; [by rewrite He | done].
      * simpl. rewrite He. simpl. rewrite Heq. rewrite <- Hid, Hpl. qc_lra.
    + split; [done|]. rewrite Heq, Hoth by done. done.
Qed.

(** The table the engine starts from. *)
Lemma init_well_formed (sw : number) :
  well_formed (seqZ 1 (week_count sw)) (init_byWeek sw).
Proof.
  intros k frs. rewrite init_byWeek_lookup. case_decide as Hk; [|done].
  intros [= <-]. split; [|by split; constructor].
  apply elem_of_seqZ. lia.
Qed.

Lemma init_placed_sum (x : number) (sw : number) (ks : list Z) :
  placed_sum x (init_byWeek sw) ks = 0%Qc.
Proof.
  induction ks as [|k ks IH]; simpl; [done|]. rewrite IH, init_byWeek_lookup.
  case_decide; simpl; qc_lra.
Qed.


(** ** The order the comparator induces *)

Ltac num_cases :=
  repeat match goal with
  | x : number |- _ => destruct x
  end;
  cbn in *; try done; bool_hyps;
  repeat match goal with
  | H : Fin _ = Fin _ |- _ => injection H as H
  end.

Module OrderFacts.

Lemma sub_pos (x y : number) :
  Num.isNaN x = false → Num.isNaN y = false →
  Num.gtb (Num.sub x y) Num.zero = Num.ltb y x.
Proof.
  unfold Num.gtb. intros Hx Hy. num_cases.
  apply bool_decide_ext. split; qc_lra.
Qed.

Lemma sub_truthy (x y : number) :
  Num.isNaN x = false → Num.isNaN y = false →
  Num.truthy (Num.sub x y) = false ↔ x = y.
Proof.
  intros Hx Hy. num_cases; rewrite ?negb_false_iff, ?bool_decide_eq_true;
    split; try done; intros H; try (f_equal; qc_lra).
  injection H as H. qc_lra.
Qed.

Lemma ltb_trichotomy (x y : number) :
  Num.isNaN x = false → Num.isNaN y = false →
  Num.ltb x y = true ∨ x = y ∨ Num.ltb y x = true.
Proof.
  intros Hx Hy. destruct x as [p| | |], y as [q| | |]; cbn in *; try done;
    rewrite ?bool_decide_eq_true; auto.
  destruct (Qclt_le_dec p q) as [Hlt|Hle]; [by left|].
  destruct (Qclt_le_dec q p) as [Hlt'|Hle']; [by right; right|].
  right; left. f_equal. by apply Qcle_antisym.
Qed.

Lemma ltb_asym (x y : number) : Num.ltb x y = true → Num.ltb y x = false.
Proof.
  intros H. num_cases. apply bool_decide_eq_false_2. qc_lra.
Qed.

Lemma ltb_trans (x y z : number) :
  Num.ltb x y = true → Num.ltb y z = true → Num.ltb x z = true.
Proof.
  intros H1 H2. num_cases. apply bool_decide_eq_true_2. qc_lra.
Qed.

Lemma leb_trans (x y z : number) :
  Num.leb x y = true → Num.leb y z = true → Num.leb x z = true.
Proof.
  intros H1 H2. num_cases. apply bool_decide_eq_true_2. qc_lra.
Qed.

Lemma leb_antisym (x y : number) :
  Num.leb x y = true → Num.leb y x = true → x = y.
Proof.
  intros H1 H2. num_cases. f_equal. by apply Qcle_antisym.
Qed.

Lemma not_ltb_leb (x y : number) :
  Num.isNaN x = false → Num.isNaN y = false →
  Num.ltb y x = false → Num.leb x y = true.
Proof.
  intros Hx Hy H. num_cases. apply bool_decide_eq_true_2. qc_lra.
Qed.

Lemma ltb_not_leb (x y : number) : Num.ltb x y = true → Num.leb y x = false.
Proof. intros H. num_cases. apply bool_decide_eq_false_2. qc_lra. Qed.

(** When the comparator sends [a] after [b]. *)
Lemma compare_pos (a b : Initiative) :
  ordered_fields a → ordered_fields b →
  Num.gtb (compare a b) Num.zero = true ↔
  Num.ltb (week b) (week a) = true
  ∨ (week a = week b ∧ Num.ltb (id b) (id a) = true).
Proof.
  intros [Hwa Hia] [Hwb Hib]. unfold compare, Num.or_else.
  destruct (Num.truthy (Num.sub (week a) (week b))) eqn:Ht.
  - rewrite sub_pos by done. split; [by left|]. intros [H|[Heq _]]; [done|].
    apply sub_truthy in Heq; [congruence | done..].
  - apply sub_truthy in Ht; [|done..]. rewrite sub_pos by done. split.
    + by right.
    + intros [H|[_ H]]; [|done]. rewrite Ht, NumFacts.ltb_irrefl in H. done.
Qed.

Lemma compare_pos_le (a b : Initiative) :
  ordered_fields a → ordered_fields b →
  Num.gtb (compare a b) Num.zero = true → lex_le b a.
Proof.
  intros Ha Hb H. apply compare_pos in H as [H|[Heq H]]; [by left | | done..].
  right. split; [done | by apply NumFacts.ltb_leb].
Qed.

Lemma compare_nonpos_le (a b : Initiative) :
  ordered_fields a → ordered_fields b →
  Num.gtb (compare a b) Num.zero = false → lex_le a b.
Proof.
  intros Ha Hb H.
  assert (¬ (Num.ltb (week b) (week a) = true
             ∨ (week a = week b ∧ Num.ltb (id b) (id a) = true))) as Hn.
  { rewrite <- compare_pos by done. by rewrite H. }
  destruct Ha as [Hwa Hia], Hb as [Hwb Hib].
  destruct (ltb_trichotomy (week a) (week b)) as [Hlt|[Heq|Hgt]]; try done.
  - by left.
  - right. split; [done|]. apply not_ltb_leb; try done.
    destruct (Num.ltb (id b) (id a)) eqn:E; [|done]. exfalso. apply Hn. by right.
  - exfalso. apply Hn. by left.
Qed.

Lemma lex_le_trans (a b c : Initiative) :
  lex_le a b → lex_le b c → lex_le a c.
Proof.
  intros [H1|[E1 H1]] [H2|[E2 H2]].
  - left. by eapply ltb_trans.
  - left. by rewrite <- E2.
  - left. by rewrite E1.
  - right. split; [congruence | by eapply leb_trans].
Qed.

(** Two initiatives each before the other agree on week and identifier. *)
Lemma lex_le_antisym (a b : Initiative) :
  lex_le a b → lex_le b a → week a = week b ∧ id a = id b.
Proof.
  intros [H1|[E1 H1]] [H2|[E2 H2]].
  - apply ltb_asym in H1. congruence.
  - rewrite E2, NumFacts.ltb_irrefl in H1. done.
  - rewrite E1, NumFacts.ltb_irrefl in H2. done.
  - split; [done | by apply leb_antisym].
Qed.

(** Strictly before on (week, id) excludes the converse order. *)
Lemma lex_lt_not_le (a b : Initiative) :
  Num.ltb (week a) (week b) = true
  ∨ (week a = week b ∧ Num.ltb (id a) (id b) = true) →
  ¬ lex_le b a.
Proof.
  intros [H|[E H]] [H'|[E' H']].
  - apply ltb_asym in H. congruence.
  - rewrite E', NumFacts.ltb_irrefl in H. done.
  - rewrite E, NumFacts.ltb_irrefl in H'. done.
  - apply ltb_not_leb in H. congruence.
Qed.

End OrderFacts.

(** ** The sorted copy of the initiatives *)

Lemma insert_sorted_perm (x : Initiative) (l : list Initiative) :
  insert_sorted x l ≡ₚ x :: l.
Proof.
  induction l as [|y l IH]; cbn [insert_sorted]; [done|].
  destruct (Num.gtb (compare x y) Num.zero); [|done].
  rewrite IH. apply Permutation_swap.
Qed.

Lemma sort_perm (l : list Initiative) : sort l ≡ₚ l.
Proof.
  induction l as [|x l IH]; [done|].
  unfold sort in *. cbn [foldr]. by rewrite insert_sorted_perm, IH.
Qed.

Lemma insert_sorted_sorted (x : Initiative) (l : list Initiative) :
  ordered_fields x → Forall ordered_fields l →
  StronglySorted lex_le l → StronglySorted lex_le (insert_sorted x l).
Proof.
  intros Hx Hl Hs. induction l as [|y l IH]; cbn [insert_sorted].
  - repeat constructor.
  - apply Forall_cons in Hl as [Hy Hl].
    apply StronglySorted_inv in Hs as [Hs Hall].
    destruct (Num.gtb (compare x y) Num.zero) eqn:Hc.
    + constructor; [by apply IH|].
      rewrite insert_sorted_perm. constructor; [|done].
      by apply OrderFacts.compare_pos_le.
    + apply OrderFacts.compare_nonpos_le in Hc; [|done..].
      constructor; [by constructor|]. constructor; [done|].
      eapply Forall_impl; [exact Hall|]. intros z Hz.
      by eapply OrderFacts.lex_le_trans.
Qed.

Lemma sort_sorted (l : list Initiative) :
  Forall ordered_fields l → StronglySorted lex_le (sort l).
Proof.
  induction l as [|x l IH]; intros Hl; unfold sort in *; cbn [foldr];
    [constructor|].
  apply Forall_cons in Hl as [Hx Hl].
  apply insert_sorted_sorted; [done | | by apply IH].
  fold (sort l). by rewrite sort_perm.
Qed.

(** A list sorted on (week, id) whose identifiers are distinct is the only
    sorted arrangement of its elements. *)
Lemma sorted_unique (l1 l2 : list Initiative) :
  StronglySorted lex_le l1 → StronglySorted lex_le l2 →
  l1 ≡ₚ l2 → NoDup (id <$> l1) → l1 = l2.
Proof.
  revert l2. induction l1 as [|a l1 IH]; intros l2 Hs1 Hs2 Hp Hnd.
  - by apply Permutation_nil_l in Hp.
  - destruct l2 as [|b l2]; [by apply Permutation_nil_r in Hp|].
    apply StronglySorted_inv in Hs1 as [Hs1 Ha].
    apply StronglySorted_inv in Hs2 as [Hs2 Hb].
    rewrite fmap_cons in Hnd. apply NoDup_cons in Hnd as [Hna Hnd].
    assert (a = b) as <-.
    { destruct (decide (a = b)) as [|Hne]; [done|]. exfalso.
      assert (a ∈ l2) as Ha2.
      { assert (a ∈ b :: l2) as Hin by (rewrite <- Hp; apply list_elem_of_here).
        apply elem_of_cons in Hin as [|]; done. }
      assert (b ∈ l1) as Hb1.
      { assert (b ∈ a :: l1) as Hin by (rewrite Hp; apply list_elem_of_here).
        apply elem_of_cons in Hin as [|]; [congruence | done]. }
      rewrite Forall_forall in Ha, Hb.
      destruct (OrderFacts.lex_le_antisym a b (Ha b Hb1) (Hb a Ha2)) as [_ Hid].
      apply Hna. rewrite Hid. by apply list_elem_of_fmap_2. }
    f_equal. apply IH; try done. by apply Permutation_cons_inv in Hp.
Qed.

Lemma sorted_before (l1 l2 : list Initiative) (a b : Initiative) :
  StronglySorted lex_le (l1 ++ a :: l2) → b ∈ l1 → lex_le b a.
Proof.
  induction l1 as [|x l1 IH]; intros Hs Hb; [by apply elem_of_nil in Hb|].
  simpl in Hs. apply StronglySorted_inv in Hs as [Hs Hx].
  apply elem_of_cons in Hb as [->|Hb]; [|by apply IH].
  rewrite Forall_forall in Hx. apply Hx.
  apply elem_of_app. right. apply list_elem_of_here.
Qed.

(** In the sorted copy, an initiative strictly before another on
    (week, id) comes first. *)
Lemma sort_respects_order (l : list Initiative) (a b : Initiative) :
  Forall ordered_fields l → a ∈ l → b ∈ l →
  Num.ltb (week a) (week b) = true
  ∨ (week a = week b ∧ Num.ltb (id a) (id b) = true) →
  ∃ pre mid post, sort l = pre ++ a :: mid ++ b :: post.
Proof.
  intros Hord Ha Hb Hlt.
  pose proof (sort_sorted l Hord) as Hs.
  rewrite <- (sort_perm l) in Ha, Hb.
  apply list_elem_of_split in Ha as (l1 & l2 & Hsplit).
  rewrite Hsplit in Hs, Hb.
  apply elem_of_app in Hb as [Hb|Hb].
  - exfalso. apply (OrderFacts.lex_lt_not_le a b Hlt).
    by eapply sorted_before.
  - apply elem_of_cons in Hb as [->|Hb].
    + exfalso. apply (OrderFacts.lex_lt_not_le a a Hlt).
      destruct Hlt as [H|[_ H]]; by rewrite NumFacts.ltb_irrefl in H.
    + apply list_elem_of_split in Hb as (mid & post & ->).
      by exists l1, mid, post.
Qed.

(** Any stable sort returns this list: with distinct identifiers there is
    one sorted arrangement only. *)
Lemma sort_canonical (l l' : list Initiative) :
  l' ≡ₚ l → StronglySorted lex_le l' →
  Forall ordered_fields l → NoDup (id <$> l) → l' = sort l.
Proof.
  intros Hp Hs Hord Hnd. symmetry. apply sorted_unique.
  - by apply sort_sorted.
  - done.
  - by rewrite sort_perm.
  - by rewrite sort_perm.
Qed.

Lemma sort_perm_invariant (l1 l2 : list Initiative) :
  l1 ≡ₚ l2 → Forall ordered_fields l1 → NoDup (id <$> l1) → sort l1 = sort l2.
Proof.
  intros Hp Hord Hnd. apply sorted_unique.
  - by apply sort_sorted.
  - apply sort_sorted. by rewrite <- Hp.
  - by rewrite !sort_perm.
  - by rewrite sort_perm.
Qed.

(** ** Where the loop writes, and when it raises *)

Lemma loop_body_tagged (cap : number) (item : Initiative) (s s' : loop_state) :
  tagged (weeks s) → loop_body cap item s = Done s' → tagged (weeks s').
Proof.
  intros Ht Hb. apply loop_body_Done in Hb as (k & frs & _ & Hl & _ & Hcases).
  destruct Hcases as [(_ & _ & ->)|(_ & _ & ->)]; [done|].
  intros j frs'. destruct (decide (k = j)) as [<-|Hne].
  - rewrite lookup_insert_eq. intros [= <-]. apply Forall_app.
    split; [by apply Ht | by repeat constructor].
  - rewrite lookup_insert_ne by done. apply Ht.
Qed.

Lemma schedule_items_tagged (fuel : nat) (cap sw : number)
    (items : list Initiative) (st st' : weekmap * list Initiative) :
  tagged st.1 → schedule_items fuel cap sw items st = Done st' → tagged st'.1.
Proof.
  apply (schedule_items_invariant (λ st, tagged st.1)).
  intros st1 item st2 Ht _ Hi.
  apply schedule_item_Done in Hi as (s & Hp & -> & _).
  apply (place_invariant (λ s, tagged (weeks s)) cap sw item) in Hp as [H _];
    [done | | done].
  intros s1 s2 H1 _. by apply loop_body_tagged.
Qed.

Lemma init_tagged (sw : number) : tagged (init_byWeek sw).
Proof.
  intros k frs. rewrite init_byWeek_lookup. case_decide; [|done].
  intros [= <-]. constructor.
Qed.

Lemma init_keys_ok (sw : number) : keys_ok sw (init_byWeek sw).
Proof. intros k Hk. rewrite init_byWeek_lookup. by rewrite decide_True. Qed.

Lemma keys_ok_extends (sw : number) (bw bw' : weekmap) :
  extends bw bw' → keys_ok sw bw → keys_ok sw bw'.
Proof. intros He Hk k Hr. apply (extends_keys _ _ k He). by apply Hk. Qed.

(** A pass does not raise when the cursor is a week of the table. *)
Lemma loop_body_on_grid (cap : number) (q : Qc) (item : Initiative)
    (s : loop_state) (j : Z) :
  keys_ok (Fin q) (weeks s) → cursor s = Num.of_Z j → 1 ≤ j →
  loop_guard (Fin q) s = true →
  ∃ s', loop_body cap item s = Done s'.
Proof.
  intros Hk Hc Hj Hg. unfold loop_guard in Hg.
  apply andb_true_iff in Hg as [_ Hle]. rewrite Hc in Hle.
  apply NumFacts.leb_of_Z_Fin in Hle.
  destruct (Hk j) as [frs Hfrs]; [simpl; lia|].
  unfold loop_body.
  rewrite (proj2 (week_slot_Some (weeks s) (cursor s) j frs)) by done.
  destruct (Num.leb _ _); eauto.
Qed.

Lemma place_on_grid (cap : number) (q : Qc) (item : Initiative) (fuel : nat)
    (s : loop_state) (j : Z) (e : js_error) :
  keys_ok (Fin q) (weeks s) → cursor s = Num.of_Z j → 1 ≤ j →
  place fuel cap (Fin q) item s ≠ Throw e.
Proof.
  revert s j. induction fuel as [|fuel IH]; intros s j Hk Hc Hj; simpl;
    destruct (loop_guard (Fin q) s) eqn:Hg; try done.
  destruct (loop_body_on_grid cap q item s j Hk Hc Hj Hg) as [s' Hb].
  rewrite Hb. simpl.
  pose proof (loop_body_extends _ _ _ _ Hb) as Hext.
  apply loop_body_Done in Hb as (k & _ & Hk1 & _ & Hk2 & _).
  rewrite Hc in Hk1. apply NumFacts.of_Z_inj in Hk1 as <-.
  apply (IH s' (j + 1)); [by eapply keys_ok_extends | done | lia].
Qed.

(** The loop leaves the weeks before its cursor alone. *)
Lemma place_before_cursor (fuel : nat) (cap sw : number) (item : Initiative)
    (s s' : loop_state) (j k : Z) :
  cursor s = Num.of_Z j → k < j →
  place fuel cap sw item s = Done s' → weeks s' !! k = weeks s !! k.
Proof.
  intros Hc Hlt Hp.
  apply (place_invariant
           (λ s1, (∃ j1, cursor s1 = Num.of_Z j1 ∧ k < j1)
                  ∧ weeks s1 !! k = weeks s !! k) cap sw item)
    in Hp as [[_ H] _]; [done | | by eauto].
  intros s1 s2 [(j1 & Hj1 & Hlt1) Heq] _ Hb.
  apply loop_body_Done in Hb as (k1 & frs & Hk1 & _ & Hk2 & Hcases).
  rewrite Hj1 in Hk1. apply NumFacts.of_Z_inj in Hk1 as <-.
  split; [exists (j1 + 1); split; [done | lia]|].
  destruct Hcases as [(_ & _ & ->)|(_ & _ & ->)]; [done|].
  rewrite lookup_insert_ne by lia. done.
Qed.




(** * The engine over binary64: properties *)

Module F64Facts.
Import F64.










(** The counter of the [for] loop never passes [2^53]: with that many
    weeks or more to create, the loop uses up any fuel. *)
Lemma f64_init_weeks_stuck (fuel : nat) (sw : float) (w : Z) (bw : table) :
  Num.leb (Num.of_Z (2 ^ 53)) (value sw) = true →
  w ≤ 2 ^ 53 →
  init_weeks fuel sw w bw = OutOfFuel.
Proof.
  intros Hsw. revert w bw. induction fuel as [|fuel IH]; intros w bw Hw;
    cbn [init_weeks].
  - rewrite (OrderFacts.leb_trans _ (Num.of_Z (2 ^ 53))); [done| |done].
    by apply NumFacts.leb_of_Z.
  - rewrite (OrderFacts.leb_trans _ (Num.of_Z (2 ^ 53))); [| |done].
    2:{ by apply NumFacts.leb_of_Z. }
    apply IH. unfold next_week. destruct (Z.ltb_spec w (2 ^ 53)); lia.
Qed.

End F64Facts.

(** * The stated properties *)

(** Settle a closed equation by running the decision procedure. *)
Ltac by_evaluation :=
  match goal with
  | |- ?a = ?b => apply (bool_decide_eq_true_1 (a = b)); vm_compute; reflexivity
  end.

(** ** C5: the worked example *)

(** C5.  With [weekCount = 2] and [totalManDays = 10] the weekly capacity
    is 5, and for A (id 1, effort 7, week 1) and B (id 2, effort 4,
    week 1), whatever their other fields and in either input order, the
    engine returns week 1 = [A:5], week 2 = [A:2, B:3] and the backlog [B],
    B being the initiative as it was given (effort 4, week 1). *)
Theorem worked_example (titleA titleB okrA okrB : string)
    (taskA teamA taskB teamB : list string) :
  let A := mkInitiative (Num.of_Z 1) titleA (Num.of_Z 7) (Num.of_Z 1) okrA taskA teamA in
  let B := mkInitiative (Num.of_Z 2) titleB (Num.of_Z 4) (Num.of_Z 1) okrB taskB teamB in
  let expected :=
    Done {| byWeek :=
              {[ 1 := [fragment A (Num.of_Z 5) (Num.of_Z 1)];
                 2 := [fragment A (Num.of_Z 2) (Num.of_Z 2);
                       fragment B (Num.of_Z 3) (Num.of_Z 2)] ]};
            backlog := [B] |} in
  weeklyCapacity (Num.of_Z 10) (Num.of_Z 2) = Num.of_Z 5
  ∧ schedule [A; B] (Num.of_Z 10) (Num.of_Z 2) = expected
  ∧ schedule [B; A] (Num.of_Z 10) (Num.of_Z 2) = expected
  ∧ effortManDays B = Num.of_Z 4 ∧ week B = Num.of_Z 1.
Proof.
  intros A B expected. subst A B expected.
  split; [by_evaluation|].
  split; [vm_compute; reflexivity|].
  split; [vm_compute; reflexivity|].
  done.
Qed.

(** ** C6: the weeks of the plan *)

Lemma week_in_range (q : Qc) (k : Z) :
  1 ≤ k ≤ week_count (Fin q) ↔ 1 ≤ k ∧ Num.leb (Num.of_Z k) (Fin q) = true.
Proof. rewrite NumFacts.leb_of_Z_Fin. simpl. lia. Qed.

(** C6.  Whatever [timelineWeeks] is, [safeWeeks] is that value when it is
    finite and positive and 1 otherwise, and a plan the engine returns has
    an entry for week [k] exactly when [1 <= k <= safeWeeks]; every
    fragment sits under the key its [week] field names, a key in that
    range.  No pass of the placement loop adds or removes a key. *)
Theorem week_completeness (initiatives : list Initiative)
    (manDays timelineWeeks : number) (out : Plan) :
  schedule initiatives manDays timelineWeeks = Done out →
  ((∃ q, timelineWeeks = Fin q ∧ (0 < q)%Qc
         ∧ safeWeeks timelineWeeks = timelineWeeks)
   ∨ ((Num.isFinite timelineWeeks && Num.gtb timelineWeeks Num.zero) = false
      ∧ safeWeeks timelineWeeks = Num.one))
  ∧ (∀ k : Z, is_Some (byWeek out !! k)
              ↔ 1 ≤ k ∧ Num.leb (Num.of_Z k) (safeWeeks timelineWeeks) = true)
  ∧ (∀ (k : Z) frs f, byWeek out !! k = Some frs → f ∈ frs →
       week f = Num.of_Z k
       ∧ 1 ≤ k ∧ Num.leb (Num.of_Z k) (safeWeeks timelineWeeks) = true)
  ∧ (∀ cap item s s', loop_body cap item s = Done s' →
       ∀ k : Z, is_Some (weeks s' !! k) ↔ is_Some (weeks s !! k)).
Proof.
  intros Hrun. apply schedule_Done in Hrun.
  split; [apply safeWeeks_cases|].
  destruct (safeWeeks_finite timelineWeeks) as (q & Hq & _).
  rewrite Hq in *.
  pose proof (schedule_items_extends _ _ _ _ _ _ Hrun) as [Hext _].
  assert (∀ k : Z, is_Some (byWeek out !! k)
                   ↔ 1 ≤ k ∧ Num.leb (Num.of_Z k) (Fin q) = true) as Hkeys.
  { intros k. rewrite (extends_keys _ _ k Hext). cbn [fst].
    rewrite init_byWeek_lookup, <- week_in_range.
    case_decide; split; try done. }
  split; [done|]. split.
  - intros k frs f Hl Hf.
    apply schedule_items_tagged in Hrun; [|apply init_tagged].
    specialize (Hrun k frs Hl). rewrite Forall_forall in Hrun.
    split; [by apply Hrun|]. apply Hkeys. by rewrite Hl.
  - intros cap item s s' Hb k.
    by apply extends_keys, (loop_body_extends cap item).
Qed.

Lemma week_completeness_witness :
  let item := mkInitiative (Num.of_Z 1) "A" (Num.of_Z 7) (Num.of_Z 1) "" [] [] in
  let out := mkPlan {[ 1 := [fragment item (Num.of_Z 7) (Num.of_Z 1)] ]} [] in
  schedule [item] (Num.of_Z 10) (Num.of_Z 0) = Done out
  ∧ ∀ k : Z, is_Some (byWeek out !! k)
             ↔ 1 ≤ k ∧ Num.leb (Num.of_Z k) (safeWeeks (Num.of_Z 0)) = true.
Proof.
  intros item out.
  assert (schedule [item] (Num.of_Z 10) (Num.of_Z 0) = Done out) as Hrun
    by (vm_compute; reflexivity).
  split; [exact Hrun|].
  exact (proj1 (proj2 (week_completeness _ _ _ _ Hrun))).
Defined.

(** ** C10: termination and totality *)

(** The double after which the counter stops: adding one to [2^53] gives
    [2^53] again. *)
Lemma f64_counter_stops :
  PrimFloat.add 0x1p53 1 = 0x1p53%float
  ∧ PrimFloat.add 0x1.fffffffffffffp52 1 = 0x1p53%float
  ∧ F64.key 0x1p53 = Some (2 ^ 53).
Proof. repeat split; vm_compute; reflexivity. Qed.

(** C10.  The engine is not a total function.  With [timelineWeeks] at
    [2^53] or more (and finite, so that [safeWeeks] is [timelineWeeks]),
    the [for] loop that creates the weeks never ends: its counter reaches
    [2^53], where [w++] leaves it, and [w <= safeWeeks] stays true;
    whatever fuel the engine is given, it uses it up before any
    initiative is looked at.  And an initiative with effort to place
    whose cursor [Math.max(1, week)] is within the weeks and is not a
    whole number makes the first pass of its loop read a week that does
    not exist: the engine raises a [TypeError], as it does on week 1.5
    with two weeks. *)
Theorem engine_not_total :
  (∀ (fuel : nat) (initiatives : list F64.Initiative)
     (manDays timelineWeeks : float),
     Num.leb (Num.of_Z (2 ^ 53)) (F64.value (F64.safeWeeks timelineWeeks)) = true →
     F64.schedule fuel initiatives manDays timelineWeeks = OutOfFuel)
  ∧ (∀ (fuel : nat) (cap sw : float)
       (st : gmap Z (list F64.Initiative) * list F64.Initiative)
       (item : F64.Initiative),
       PrimFloat.ltb 0 (F64.effortManDays item) = true →
       PrimFloat.leb (F64.max 1 (F64.week item)) sw = true →
       F64.key (F64.max 1 (F64.week item)) = None →
       F64.schedule_item (S fuel) cap sw st item = Throw TypeError)
  ∧ F64.schedule 2 [F64.mkInitiative 1 "A" 1 1.5 "" [] []] 10 2
    = Throw TypeError.
Proof.
  split; [|split].
  - intros fuel initiatives manDays timelineWeeks Hsw.
    unfold F64.schedule. cbn zeta.
    rewrite F64Facts.f64_init_weeks_stuck; [done|done|lia].
  - intros fuel cap sw st item He Hw Hk.
    unfold F64.schedule_item. cbn [F64.place].
    unfold F64.loop_guard, F64.loop_body.
    cbn [F64.remaining F64.cursor]. by rewrite He, Hw, Hk.
  - vm_compute; reflexivity.
Qed.

Lemma engine_not_total_witness :
  F64.schedule 1000 [F64.mkInitiative 1 "A" 1 1 "" [] []] 50 0x1p53 = OutOfFuel
  ∧ F64.schedule_item 1 5 2 (∅, []) (F64.mkInitiative 1 "A" 1 1.5 "" [] [])
    = Throw TypeError.
Proof.
  split.
  - apply (proj1 engine_not_total). vm_compute; reflexivity.
  - apply (proj1 (proj2 engine_not_total)); vm_compute; reflexivity.
Defined.

(** The same over exact numbers: an initiative asking for week 3/2 makes
    the first pass read [byWeek[1.5]], which is [undefined], and the
    engine raises instead of returning a plan. *)
Lemma fractional_week_raises :
  let item := mkInitiative (Num.of_Z 1) "A" (Num.of_Z 1)
                (Fin (Q2Qc (3 # 2))) "" [] [] in
  schedule [item] (Num.of_Z 10) (Num.of_Z 2) = Throw TypeError
  ∧ ¬ ∃ out, schedule [item] (Num.of_Z 10) (Num.of_Z 2) = Done out.
Proof.
  intros item.
  assert (schedule [item] (Num.of_Z 10) (Num.of_Z 2) = Throw TypeError) as H
    by (vm_compute; reflexivity).
  split; [exact H|]. intros [out Hout]. rewrite H in Hout. discriminate.
Qed.

(** ** C3: what goes to the backlog *)

(** C3.  Take the initiatives in processing order and stop at one of
    them, [item]: [st0] is the state reached before it and [s] the state
    in which its placement loop ends.  If [remaining > 0] there, the
    backlog of the plan is the backlog before [item], then [item] itself
    (the whole record, so its original effort and week), then entries
    that come from the initiatives after it; if not, [item] adds
    nothing.  In both cases every week of the plan begins with what the
    week held when the loop for [item] ended, so the fragments already
    placed stay. *)
Theorem backlog_accounting (initiatives : list Initiative)
    (manDays timelineWeeks : number) (out : Plan)
    (pre post : list Initiative) (item : Initiative) :
  schedule initiatives manDays timelineWeeks = Done out →
  sort initiatives = pre ++ item :: post →
  let sw := safeWeeks timelineWeeks in
  let cap := weeklyCapacity manDays timelineWeeks in
  ∃ st0 s,
    schedule_items (loop_fuel sw) cap sw pre (init_byWeek sw, []) = Done st0
    ∧ place (loop_fuel sw) cap sw item
        (mkLoop (effortManDays item) (Num.max Num.one (week item)) st0.1)
      = Done s
    ∧ sublist st0.2 pre
    ∧ (∃ later, sublist later post ∧
         backlog out
         = if Num.gtb (remaining s) Num.zero
           then st0.2 ++ item :: later
           else st0.2 ++ later)
    ∧ extends st0.1 (weeks s)
    ∧ extends (weeks s) (byWeek out).
Proof.
  intros Hrun Hsplit sw cap. apply schedule_Done in Hrun.
  rewrite Hsplit, schedule_items_app in Hrun. fold sw cap in Hrun.
  unfold mbind, outcome_bind in Hrun.
  destruct (schedule_items (loop_fuel sw) cap sw pre _) as [st0| |] eqn:Hpre;
    simpl in Hrun; try done.
  cbn [schedule_items] in Hrun. unfold mbind, outcome_bind in Hrun.
  destruct (schedule_item (loop_fuel sw) cap sw st0 item) as [st1| |] eqn:Hitem;
    simpl in Hrun; try done.
  apply schedule_item_Done in Hitem as (s & Hplace & Hw & Hbl).
  apply schedule_items_extends in Hrun as (Hext & later & Hlater & Hsub).
  exists st0, s. split; [done|]. split; [done|]. split.
  { apply schedule_items_extends in Hpre as (_ & added & Hadd & Hsubpre).
    cbn [snd] in Hadd. by rewrite Hadd. }
  split.
  - exists later. split; [done|]. cbn [snd] in Hlater. rewrite Hlater, Hbl.
    destruct (Num.gtb (remaining s) Num.zero); [|done].
    by rewrite <- app_assoc.
  - split; [by apply place_extends in Hplace|]. by rewrite <- Hw.
Qed.

Lemma backlog_accounting_witness :
  let A := mkInitiative (Num.of_Z 1) "A" (Num.of_Z 7) (Num.of_Z 1) "" [] [] in
  let B := mkInitiative (Num.of_Z 2) "B" (Num.of_Z 4) (Num.of_Z 1) "" [] [] in
  let out := mkPlan {[ 1 := [fragment A (Num.of_Z 5) (Num.of_Z 1)];
                       2 := [fragment A (Num.of_Z 2) (Num.of_Z 2);
                             fragment B (Num.of_Z 3) (Num.of_Z 2)] ]} [B] in
  schedule [B; A] (Num.of_Z 10) (Num.of_Z 2) = Done out
  ∧ sort [B; A] = [A] ++ B :: []
  ∧ ∃ st0 s,
      schedule_items 2 (weeklyCapacity (Num.of_Z 10) (Num.of_Z 2))
        (safeWeeks (Num.of_Z 2)) [A] (init_byWeek (safeWeeks (Num.of_Z 2)), [])
      = Done st0
      ∧ place 2 (weeklyCapacity (Num.of_Z 10) (Num.of_Z 2))
          (safeWeeks (Num.of_Z 2)) B
          (mkLoop (effortManDays B) (Num.max Num.one (week B)) st0.1)
        = Done s
      ∧ sublist st0.2 [A]
      ∧ (∃ later, sublist later [] ∧
           backlog out
           = if Num.gtb (remaining s) Num.zero
             then st0.2 ++ B :: later else st0.2 ++ later)
      ∧ extends st0.1 (weeks s)
      ∧ extends (weeks s) (byWeek out).
Proof.
  intros A B out.
  assert (schedule [B; A] (Num.of_Z 10) (Num.of_Z 2) = Done out) as Hrun
    by (vm_compute; reflexivity).
  assert (sort [B; A] = [A] ++ B :: []) as Hsort by (vm_compute; reflexivity).
  split; [exact Hrun|]. split; [exact Hsort|].
  exact (backlog_accounting [B; A] (Num.of_Z 10) (Num.of_Z 2) out [A] [] B
           Hrun Hsort).
Defined.

(** ** C7: the order of the list does not matter *)

Lemma ordered_of_finite (l : list Initiative) :
  Forall (λ i, Num.isFinite (week i) = true ∧ Num.isFinite (id i) = true) l →
  Forall ordered_fields l.
Proof.
  intros H. eapply Forall_impl; [exact H|]. intros i [Hw Hi].
  unfold ordered_fields. by destruct (week i), (id i).
Qed.

(** The engine reads the list through its sorted copy only. *)
Lemma schedule_by_sort (l1 l2 : list Initiative) (manDays timelineWeeks : number) :
  sort l1 = sort l2 →
  schedule l1 manDays timelineWeeks = schedule l2 manDays timelineWeeks.
Proof. intros H. unfold schedule, schedule_fuel. by rewrite H. Qed.

Lemma splice_in_perm {A : Type} (l : list A) (start : Z) (x : A) :
  Drag.splice_in l start x ≡ₚ x :: l.
Proof.
  unfold Drag.splice_in. rewrite <- Permutation_middle.
  by rewrite take_drop.
Qed.

Lemma arrayMove_perm {A : Type} (l l' : list A) (from to : Z) :
  Drag.arrayMove l from to = Some l' → l' ≡ₚ l.
Proof.
  unfold Drag.arrayMove, Drag.splice_out.
  destruct (l !! Drag.splice_start (Z.of_nat (length l)) from) as [x|] eqn:Hx;
    simpl; [|done].
  intros [= <-]. rewrite splice_in_perm. symmetry. by apply delete_Permutation.
Qed.

Lemma onDragEnd_perm (active : number) (over : option number)
    (prev l' : list Initiative) :
  Drag.onDragEnd active over prev = Some l' → l' ≡ₚ prev.
Proof.
  unfold Drag.onDragEnd. destruct over as [o|]; [|by intros [= <-]].
  destruct (Num.eqb active o); [by intros [= <-]|]. apply arrayMove_perm.
Qed.

(** C7.  For initiatives with finite [week] and [id] and pairwise distinct
    identifiers, any rearrangement of the list gives the same outcome for
    the same capacity inputs: the same weeks and the same backlog.  So
    does the list a drag leaves in the state. *)
Theorem permutation_invariance (l1 : list Initiative)
    (manDays timelineWeeks : number) :
  Forall (λ i, Num.isFinite (week i) = true ∧ Num.isFinite (id i) = true) l1 →
  NoDup (id <$> l1) →
  (∀ l2, l1 ≡ₚ l2 →
     schedule l2 manDays timelineWeeks = schedule l1 manDays timelineWeeks)
  ∧ (∀ active over l2, Drag.onDragEnd active over l1 = Some l2 →
       schedule l2 manDays timelineWeeks = schedule l1 manDays timelineWeeks).
Proof.
  intros Hfin Hnd.
  assert (∀ l2, l1 ≡ₚ l2 →
     schedule l2 manDays timelineWeeks = schedule l1 manDays timelineWeeks) as H.
  { intros l2 Hp. apply schedule_by_sort. symmetry.
    apply sort_perm_invariant; [done | by apply ordered_of_finite | done]. }
  split; [exact H|]. intros active over l2 Hdrag. apply H.
  symmetry. by eapply onDragEnd_perm.
Qed.

Lemma permutation_invariance_witness :
  let A := mkInitiative (Num.of_Z 1) "A" (Num.of_Z 7) (Num.of_Z 1) "" [] [] in
  let B := mkInitiative (Num.of_Z 2) "B" (Num.of_Z 4) (Num.of_Z 1) "" [] [] in
  let C := mkInitiative (Num.of_Z 3) "C" (Num.of_Z 2) (Num.of_Z 2) "" [] [] in
  Drag.onDragEnd (Num.of_Z 3) (Some (Num.of_Z 1)) [A; B; C] = Some [C; A; B]
  ∧ schedule [C; A; B] (Num.of_Z 10) (Num.of_Z 2)
    = schedule [A; B; C] (Num.of_Z 10) (Num.of_Z 2).
Proof.
  intros A B C.
  assert (Drag.onDragEnd (Num.of_Z 3) (Some (Num.of_Z 1)) [A; B; C]
          = Some [C; A; B]) as Hdrag by (vm_compute; reflexivity).
  split; [exact Hdrag|].
  refine (proj2 (permutation_invariance [A; B; C] (Num.of_Z 10) (Num.of_Z 2) _ _)
            _ _ _ Hdrag).
  - repeat constructor.
  - apply (bool_decide_unpack _). vm_compute. exact I.
Defined.

(** ** C1: effort conservation *)

Lemma weeklyCapacity_finite (m : Qc) (timelineWeeks : number) :
  ∃ c, weeklyCapacity (Fin m) timelineWeeks = Fin c ∧ ((0 ≤ m)%Qc → (0 ≤ c)%Qc).
Proof.
  unfold weeklyCapacity.
  destruct (safeWeeks_finite timelineWeeks) as (q & -> & Hq). simpl.
  rewrite bool_decide_eq_false_2 by (intros ->; by apply Qclt_not_eq in Hq).
  eexists. split; [reflexivity|]. intros Hm.
  unfold Qcdiv. rewrite <- (Qcmult_0_l (/ q)).
  apply Qcmult_le_compat_r; [done|]. by apply Qclt_le_weak, Qcinv_pos.
Qed.

Lemma fragments_of_finite (x : number) (frs : list Initiative) :
  finite_efforts frs → finite_efforts (fragments_of x frs).
Proof.
  unfold finite_efforts, fragments_of. induction 1 as [|f frs Hf _ IH];
    [constructor|].
  rewrite filter_cons. destruct (decide (id f = x)); [by constructor | done].
Qed.

Lemma placed_total_from (x : number) (bw : weekmap) (ks0 ks : list Z) (a : Qc) :
  well_formed ks0 bw →
  foldl (λ s k, Num.add s (placed_in_week x bw k)) (Fin a) ks
  = Fin (a + placed_sum x bw ks)%Qc.
Proof.
  intros Hwf. revert a. induction ks as [|k ks IH]; intros a; simpl.
  - f_equal. qc_lra.
  - unfold placed_in_week at 2.
    assert (finite_efforts (default [] (bw !! k))) as Hfin.
    { destruct (bw !! k) as [frs|] eqn:Hl; simpl; [|constructor].
      by destruct (Hwf k frs Hl) as (_ & ? & _). }
    rewrite used_of_finite by (by apply fragments_of_finite). simpl.
    rewrite IH. f_equal. qc_lra.
Qed.

Lemma placed_total_finite (x : number) (bw : weekmap) (ks0 : list Z) (n : Z) :
  well_formed ks0 bw →
  placed_total x bw n = Fin (placed_sum x bw (seqZ 1 n)).
Proof.
  intros Hwf. unfold placed_total, Num.zero, Num.of_Z.
  rewrite (placed_total_from x bw ks0) by done. f_equal. qc_lra.
Qed.

Lemma effort_sum_perm (l1 l2 : list Initiative) :
  l1 ≡ₚ l2 → effort_sum l1 = effort_sum l2.
Proof.
  induction 1; simpl; try congruence; qc_lra.
Qed.

Lemma fragments_of_none (x : number) (l : list Initiative) :
  x ∉ id <$> l → fragments_of x l = [].
Proof.
  unfold fragments_of. induction l as [|a l IH]; intros Hx; [done|].
  rewrite fmap_cons in Hx. apply not_elem_of_cons in Hx as [Hne Hx].
  rewrite filter_cons, decide_False by done. by apply IH.
Qed.

Lemma fragments_of_unique (item : Initiative) (l : list Initiative) :
  NoDup (id <$> l) → item ∈ l → fragments_of (id item) l = [item].
Proof.
  induction l as [|a l IH]; intros Hnd Hin; [by apply elem_of_nil in Hin|].
  rewrite fmap_cons in Hnd. apply NoDup_cons in Hnd as [Hna Hnd].
  unfold fragments_of in *. rewrite filter_cons.
  apply elem_of_cons in Hin as [<-|Hin].
  - rewrite decide_True by done. f_equal. by apply fragments_of_none.
  - rewrite decide_False; [by apply IH|].
    intros Heq. apply Hna. rewrite Heq. by apply list_elem_of_fmap_2.
Qed.

(** Conservation per identifier over exact numbers, with no assumption
    on the identifiers: when [x] is absent from the backlog, what the
    weeks hold for [x] is what the initiatives carrying [x] asked for.
    This is the arithmetic of [Engine], where no sum is rounded; the
    program rounds each one, and the statements on [F64] below say what
    is left of the equality there. *)
Lemma conservation_by_id (initiatives : list Initiative) (m : Qc)
    (timelineWeeks : number) (out : Plan) (x : number) :
  Forall (λ i, Num.geb (effortManDays i) Num.zero = true) initiatives →
  schedule initiatives (Fin m) timelineWeeks = Done out →
  x ∉ id <$> backlog out →
  finite_efforts (fragments_of x initiatives)
  ∧ placed_total x (byWeek out) (week_count (safeWeeks timelineWeeks))
    = Fin (effort_sum (fragments_of x initiatives)).
Proof.
  intros Hge Hrun Hx. apply schedule_Done in Hrun.
  destruct (weeklyCapacity_finite m timelineWeeks) as (c & Hc & _).
  rewrite Hc in Hrun.
  set (sw := safeWeeks timelineWeeks) in *.
  apply (schedule_items_finite c sw (seqZ 1 (week_count sw))) in Hrun
    as (Hwf & _ & Hsum); [|apply NoDup_seqZ|apply init_well_formed].
  cbn [fst snd] in *.
  destruct (Hsum x Hx) as [Hfin Heq]; [by rewrite sort_perm|].
  assert (fragments_of x (sort initiatives) ≡ₚ fragments_of x initiatives) as Hp.
  { unfold fragments_of. by rewrite sort_perm. }
  split; [unfold finite_efforts; by rewrite <- Hp|].
  rewrite (placed_total_finite x _ _ _ Hwf), Heq, init_placed_sum.
  rewrite (effort_sum_perm _ _ Hp). f_equal. qc_lra.
Qed.




(** ** C2: the capacity of a week *)





(** ** C4: the processing order *)

Lemma max_one_of_Z (k : Z) : 1 ≤ k → Num.max Num.one (Num.of_Z k) = Num.of_Z k.
Proof.
  intros Hk. change Num.one with (Num.of_Z 1).
  unfold Num.max, Num.of_Z at 1 2. cbn match.
  fold (Num.of_Z 1) (Num.of_Z k).
  destruct (Num.ltb (Num.of_Z 1) (Num.of_Z k)) eqn:Hlt; [done|].
  assert (k = 1) as ->; [|done].
  destruct (decide (1 < k)) as [H|H]; [|lia].
  apply NumFacts.ltb_of_Z in H. congruence.
Qed.

Lemma place_step (fuel : nat) (cap sw : number) (item : Initiative)
    (s s' : loop_state) :
  loop_guard sw s = true → loop_body cap item s = Done s' →
  place (S fuel) cap sw item s = place fuel cap sw item s'.
Proof. intros Hg Hb. cbn [place]. by rewrite Hg, Hb. Qed.

Lemma place_stop (fuel : nat) (cap sw : number) (item : Initiative)
    (s : loop_state) :
  loop_guard sw s = false → place fuel cap sw item s = Done s.
Proof. intros Hg. destruct fuel; cbn [place]; by rewrite Hg. Qed.

(** A loop that starts on a week of the table, with fuel for the weeks
    that are left, ends in a state. *)
Lemma place_Done (cap : number) (q : Qc) (item : Initiative) (fuel : nat)
    (s : loop_state) (j : Z) :
  keys_ok (Fin q) (weeks s) → cursor s = Num.of_Z j → 1 ≤ j →
  Qfloor q - j < Z.of_nat fuel →
  ∃ s', place fuel cap (Fin q) item s = Done s'.
Proof.
  intros Hk Hc Hj Hfuel.
  destruct (place fuel cap (Fin q) item s) as [s'|e|] eqn:Hp; [by eauto| |].
  - by apply (place_on_grid cap q item fuel s j e) in Hp.
  - exfalso. revert Hp. apply place_enough_fuel. intros _.
    eexists. split; [exact Hc|]. by rewrite NumFacts.this_of_Z, Qfloor_Z.
Qed.

(** Two initiatives ask for the same week [k]; each fits in a week, both
    do not.  The one with the lower identifier gets its whole effort in
    week [k], the other what is left of the week. *)
Lemma lower_id_first (a b : Initiative) (c ea eb q : Qc) (k : Z) :
  week a = Num.of_Z k → week b = Num.of_Z k →
  1 ≤ k → Num.leb (Num.of_Z k) (Fin q) = true →
  effortManDays a = Fin ea → effortManDays b = Fin eb →
  (0 < ea)%Qc → (ea ≤ c)%Qc → (0 < eb)%Qc → (eb ≤ c)%Qc → (c < ea + eb)%Qc →
  ∃ st,
    schedule_items (loop_fuel (Fin q)) (Fin c) (Fin q) [a; b]
      (init_byWeek (Fin q), []) = Done st
    ∧ st.1 !! k
      = Some (fragment a (Fin ea) (Num.of_Z k)
              :: if bool_decide (ea = c) then []
                 else [fragment b (Fin (c - ea)) (Num.of_Z k)]).
Proof.
  intros Hwa Hwb Hk Hkq Hea Heb Ha0 Hac Hb0 Hbc Hsum.
  pose proof Hkq as Hkf. apply NumFacts.leb_of_Z_Fin in Hkf.
  assert (∃ f, loop_fuel (Fin q) = S f ∧ Qfloor q - (k + 1) < Z.of_nat f)
    as (f & Hfuel & Hf).
  { unfold loop_fuel, week_count.
    exists (Z.to_nat (Qfloor q - 1)). split; lia. }
  rewrite Hfuel. cbn [schedule_items]. unfold mbind, outcome_bind.
  (* the lower identifier *)
  set (fa := fragment a (Fin ea) (Num.of_Z k)).
  set (bw1 := <[k := [fa]]> (init_byWeek (Fin q))).
  assert (init_byWeek (Fin q) !! k = Some []) as Hinit.
  { rewrite init_byWeek_lookup. rewrite decide_True; [done | simpl; lia]. }
  assert (schedule_item (S f) (Fin c) (Fin q) (init_byWeek (Fin q), []) a
          = Done (bw1, [])) as ->.
  { unfold schedule_item. cbn [fst snd]. rewrite Hea, Hwa, max_one_of_Z by done.
    unfold mbind, outcome_bind.
    erewrite place_step; cycle 1.
    - unfold loop_guard. cbn [remaining cursor]. rewrite Hkq.
      unfold Num.gtb. simpl. rewrite bool_decide_eq_true_2; [done | qc_lra].
    - unfold loop_body. cbn [weeks cursor remaining].
      rewrite (proj2 (week_slot_Some _ _ k [])) by done.
      simpl. rewrite bool_decide_eq_false_2 by qc_lra.
      rewrite bool_decide_eq_false_2 by qc_lra. reflexivity.
    - rewrite place_stop.
      + cbn [weeks remaining]. unfold Num.gtb. simpl.
        rewrite bool_decide_eq_false_2 by qc_lra. done.
      + unfold loop_guard. cbn [remaining]. unfold Num.gtb. simpl.
        rewrite bool_decide_eq_false_2 by qc_lra. done. }
  cbn [bind]. unfold schedule_item. cbn [fst snd].
  rewrite Heb, Hwb, max_one_of_Z by done. unfold mbind, outcome_bind.
  assert (bw1 !! k = Some [fa]) as Hbw1 by apply lookup_insert_eq.
  assert (keys_ok (Fin q) bw1) as Hkeys.
  { eapply keys_ok_extends; [|apply init_keys_ok].
    by apply (extends_insert _ k [] [fa]). }
  (* the higher identifier: its first pass *)
  assert (∃ s1, loop_body (Fin c) b (mkLoop (Fin eb) (Num.of_Z k) bw1) = Done s1
                ∧ cursor s1 = Num.of_Z (k + 1)
                ∧ extends bw1 (weeks s1)
                ∧ weeks s1 !! k
                  = Some (fa :: if bool_decide (ea = c) then []
                                else [fragment b (Fin (c - ea)) (Num.of_Z k)]))
    as (s1 & Hbody & Hcur & Hext & Hweek).
  { unfold loop_body. cbn [weeks cursor remaining].
    rewrite (proj2 (week_slot_Some _ _ k [fa])) by done.
    unfold used_of. cbn [foldl fa fragment effortManDays].
    change (Num.add (Num.of_Z k) Num.one) with (Num.add (Num.of_Z k) (Num.of_Z 1)).
    rewrite NumFacts.add_of_Z. simpl.
    case_bool_decide as Hfull.
    - eexists. split; [reflexivity|]. cbn [cursor weeks].
      split; [done|]. split; [apply extends_refl|].
      rewrite Hbw1. rewrite bool_decide_eq_true_2; [done | qc_lra].
    - rewrite bool_decide_eq_true_2 by qc_lra.
      eexists. split; [reflexivity|]. cbn [cursor weeks].
      split; [done|]. split; [exact (extends_insert bw1 k [fa] [_] Hbw1)|].
      rewrite lookup_insert_eq. rewrite bool_decide_eq_false_2 by qc_lra.
      simpl. do 4 f_equal. unfold fragment. f_equal. f_equal. qc_lra. }
  erewrite place_step; [|
    unfold loop_guard; cbn [remaining cursor]; rewrite Hkq;
    unfold Num.gtb; simpl; rewrite bool_decide_eq_true_2; [done | qc_lra]
    | exact Hbody].
  destruct (place_Done (Fin c) q b f s1 (k + 1)) as [s2 Hs2];
    [by eapply keys_ok_extends | done | lia | done |].
  rewrite Hs2. cbn [bind]. eexists. split; [reflexivity|].
  cbn [fst]. rewrite (place_before_cursor _ _ _ _ _ _ (k + 1) k Hcur) by
    (lia || exact Hs2).
  exact Hweek.
Qed.

(** C4.  For initiatives whose [week] and [id] are numbers proper, the
    list the engine walks through is the given one rearranged in
    ascending order of [week], and of [id] within a week: an initiative
    with the lower week, or the same week and the lower [id], comes
    before the other in it.  In particular,
    when two initiatives ask for the same week, each fits in a week and
    both do not, the one with the lower [id] is placed first, at its whole
    effort, whatever their order in the list; the other gets what is left
    of that week. *)
Theorem processing_order (initiatives : list Initiative) :
  Forall ordered_fields initiatives →
  sort initiatives ≡ₚ initiatives
  ∧ StronglySorted lex_le (sort initiatives)
  ∧ (∀ fuel manDays timelineWeeks,
       schedule_fuel fuel initiatives manDays timelineWeeks
       = st ← schedule_items fuel (weeklyCapacity manDays timelineWeeks)
                (safeWeeks timelineWeeks) (sort initiatives)
                (init_byWeek (safeWeeks timelineWeeks), []);
         Done (mkPlan st.1 st.2))
  ∧ (∀ a b, a ∈ initiatives → b ∈ initiatives →
       Num.ltb (week a) (week b) = true
       ∨ (week a = week b ∧ Num.ltb (id a) (id b) = true) →
       ∃ pre mid post, sort initiatives = pre ++ a :: mid ++ b :: post)
  ∧ (∀ a b manDays timelineWeeks (k : Z) (ea eb c : Qc),
       initiatives ≡ₚ [a; b] →
       week a = Num.of_Z k → week b = Num.of_Z k →
       1 ≤ k → Num.leb (Num.of_Z k) (safeWeeks timelineWeeks) = true →
       Num.ltb (id a) (id b) = true →
       effortManDays a = Fin ea → effortManDays b = Fin eb →
       weeklyCapacity manDays timelineWeeks = Fin c →
       (0 < ea)%Qc → (ea ≤ c)%Qc → (0 < eb)%Qc → (eb ≤ c)%Qc →
       (c < ea + eb)%Qc →
       ∃ out,
         schedule initiatives manDays timelineWeeks = Done out
         ∧ byWeek out !! k
           = Some (fragment a (Fin ea) (Num.of_Z k)
                   :: if bool_decide (ea = c) then []
                      else [fragment b (Fin (c - ea)) (Num.of_Z k)])).
Proof.
  intros Hord. split; [apply sort_perm|]. split; [by apply sort_sorted|].
  split; [done|]. split; [intros a b; by apply sort_respects_order|].
  intros a b manDays timelineWeeks k ea eb c Hp Hwa Hwb Hk Hkq Hid Hea Heb Hc
    Ha0 Hac Hb0 Hbc Hsum.
  assert (sort initiatives = [a; b]) as Hsort.
  { apply sorted_unique.
    - by apply sort_sorted.
    - apply SSorted_cons; [apply SSorted_cons; constructor|].
      apply Forall_cons. split; [|constructor]. right. split; [congruence|].
      by apply NumFacts.ltb_leb.
    - by rewrite sort_perm.
    - rewrite sort_perm, Hp. simpl. apply NoDup_cons. split; [|apply NoDup_singleton].
      intros Hin%list_elem_of_singleton. rewrite Hin, NumFacts.ltb_irrefl in Hid.
      done. }
  destruct (safeWeeks_finite timelineWeeks) as (q & Hq & _).
  unfold schedule, schedule_fuel. rewrite Hsort, Hc, Hq in *.
  destruct (lower_id_first a b c ea eb q k) as (st & Hst & Hweek); try done.
  rewrite Hst. eexists. split; [reflexivity | exact Hweek].
Qed.

Lemma processing_order_witness :
  let A := mkInitiative (Num.of_Z 1) "A" (Num.of_Z 4) (Num.of_Z 1) "" [] [] in
  let B := mkInitiative (Num.of_Z 2) "B" (Num.of_Z 3) (Num.of_Z 1) "" [] [] in
  Forall ordered_fields [B; A]
  ∧ sort [B; A] = [A; B]
  ∧ ∃ out,
      schedule [B; A] (Num.of_Z 10) (Num.of_Z 2) = Done out
      ∧ byWeek out !! 1
        = Some [fragment A (Num.of_Z 4) (Num.of_Z 1);
                fragment B (Num.of_Z 1) (Num.of_Z 1)].
Proof.
  intros A B.
  assert (Forall ordered_fields [B; A]) as Hord by (repeat constructor).
  split; [exact Hord|]. split; [vm_compute; reflexivity|].
  destruct (proj2 (proj2 (proj2 (proj2 (processing_order [B; A] Hord))))
              A B (Num.of_Z 10) (Num.of_Z 2) 1
              (Q2Qc 4) (Q2Qc 3) (Q2Qc 5)) as (out & Hrun & Hweek).
  - apply Permutation_swap.
  - reflexivity.
  - reflexivity.
  - lia.
  - vm_compute; reflexivity.
  - vm_compute; reflexivity.
  - reflexivity.
  - reflexivity.
  - by_evaluation.
  - vm_compute; reflexivity.
  - vm_compute. discriminate.
  - vm_compute; reflexivity.
  - vm_compute. discriminate.
  - vm_compute; reflexivity.
  - exists out. split; [exact Hrun|]. rewrite Hweek. by_evaluation.
Defined.

(** ** C8: the two normalisers *)

Lemma round_integer (x : number) :
  Num.isFinite x = true → Num.is_integer (Num.round x) = true.
Proof.
  destruct x as [q| | |]; try done. intros _. unfold Num.round, Num.is_integer.
  by rewrite NumFacts.to_Z_of_Z.
Qed.

(** What an entry the front end's normaliser accepts has given. *)
Lemma normalise_entry_Ok (rt : runtime) (i : jsval) (idx : nat)
    (item : Initiative) :
  normalise_entry rt i idx = Ok item →
  ∃ v_id v_title v_effort v_week v_okr v_task v_team,
    (Js.get i "id" = Ok v_id ∧ Js.get i "title" = Ok v_title
     ∧ Js.get i "effortManDays" = Ok v_effort ∧ Js.get i "week" = Ok v_week
     ∧ Js.get i "okr" = Ok v_okr ∧ Js.get i "taskDependencies" = Ok v_task
     ∧ Js.get i "teamDependencies" = Ok v_team)
    ∧ (Js.converts (or_value v_title (default_title rt idx)) = true
       ∧ Js.converts v_effort = true ∧ Js.converts v_week = true
       ∧ Js.converts (or_value v_okr (JStr "Unassigned")) = true)
    ∧ item
      = {| id := id_of rt v_id idx;
           title := string_of rt (or_value v_title (default_title rt idx));
           effortManDays :=
             Num.round (Num.or_else (number_of rt v_effort) Num.zero);
           week := Num.or_else (number_of rt v_week) Num.one;
           okr := string_of rt (or_value v_okr (JStr "Unassigned"));
           taskDependencies := dependencies_of rt v_task;
           teamDependencies := dependencies_of rt v_team |}.
Proof.
  unfold normalise_entry, String_, to_number, mbind, result_bind.
  destruct (Js.get i "id") as [v_id|]; [|done].
  destruct (Js.get i "title") as [v_title|]; [|done].
  destruct (Js.get i "effortManDays") as [v_effort|]; [|done].
  destruct (Js.get i "week") as [v_week|]; [|done].
  destruct (Js.get i "okr") as [v_okr|]; [|done].
  destruct (Js.get i "taskDependencies") as [v_task|]; [|done].
  destruct (Js.get i "teamDependencies") as [v_team|]; [|done].
  destruct (Js.converts (or_value v_title _)) eqn:H1; [|done].
  destruct (Js.converts v_effort) eqn:H2; [|done].
  destruct (Js.converts v_week) eqn:H3; [|done].
  destruct (Js.converts (or_value v_okr _)) eqn:H4; [|done].
  intros [= <-]. by exists v_id, v_title, v_effort, v_week, v_okr, v_task, v_team.
Qed.

Lemma normalise_entry_effort (rt : runtime) (i : jsval) (idx : nat)
    (item : Initiative) :
  normalise_entry rt i idx = Ok item →
  ∃ v, Js.get i "effortManDays" = Ok v
       ∧ effortManDays item
         = Num.round (Num.or_else (number_of rt v) Num.zero).
Proof.
  intros (v_id & v_title & v_effort & v_week & v_okr & v_task & v_team
          & (_ & _ & Hget & _) & _ & ->)%normalise_entry_Ok.
  by exists v_effort.
Qed.

(** The front end rounds: a finite effort it returns is an integer, and
    an effort that reads as [NaN] becomes 0. *)
Lemma frontend_rounds (rt : runtime) (i : jsval) (idx : nat)
    (item : Initiative) :
  normalise_entry rt i idx = Ok item →
  (Num.isFinite (effortManDays item) = true →
   Num.is_integer (effortManDays item) = true)
  ∧ (∀ v, Js.get i "effortManDays" = Ok v → to_number rt v = Ok NaN →
          effortManDays item = Num.zero).
Proof.
  intros (v & Hv & ->)%normalise_entry_effort. split.
  - intros Hfin. apply round_integer.
    by destruct (Num.or_else _ _).
  - intros v' Hv' Hnan. rewrite Hv in Hv'. injection Hv' as <-.
    unfold to_number in Hnan. destruct (Js.converts v); [|done].
    injection Hnan as ->. by_evaluation.
Qed.

(** What the front end lets into the state has a [week] that is not
    [NaN] and, the clock being finite, a finite [id]. *)
Lemma normalised_fields (rt : runtime) (i : jsval) (idx : nat)
    (item : Initiative) :
  Num.isFinite (now rt idx) = true →
  normalise_entry rt i idx = Ok item →
  Num.isNaN (week item) = false ∧ Num.isFinite (id item) = true.
Proof.
  intros Hnow
    (v_id & v_title & v_effort & v_week & v_okr & v_task & v_team
     & _ & _ & ->)%normalise_entry_Ok.
  cbn [week id]. split.
  - unfold Num.or_else.
    destruct (Num.truthy (number_of rt v_week)) eqn:Ht; [|done].
    by destruct (number_of rt v_week).
  - assert (Num.isFinite (Num.add (now rt idx) (Num.of_Z (Z.of_nat idx))) = true)
      as Hsum by (by destruct (now rt idx)).
    unfold id_of. destruct v_id as [| | |n| | |]; try done.
    by destruct (Num.isFinite n) eqn:Hn.
Qed.

Lemma normalised_ordered (rt : runtime) (i : jsval) (idx : nat)
    (item : Initiative) :
  Num.isFinite (now rt idx) = true →
  normalise_entry rt i idx = Ok item → ordered_fields item.
Proof.
  intros Hnow Hn. destruct (normalised_fields rt i idx item Hnow Hn) as [Hw Hi].
  split; [done|]. by destruct (id item).
Qed.

(** C8.  On the entry [{ id: 1, effortManDays: 2.5 }] the front end's
    [normaliseInitiatives] returns the effort 3 and the back end's
    [normalizeInitiatives] returns 2.5, which is not an integer: the back
    end does not round. *)
Theorem backend_keeps_fraction (rt : runtime) :
  let raw := JArr [JObj [("id", JNum (Num.of_Z 1));
                         ("effortManDays", JNum (Fin (Q2Qc (5 # 2))))]] in
  efforts_of (normaliseInitiatives rt raw) = Ok [Num.of_Z 3]
  ∧ efforts_of (normalizeInitiatives rt raw) = Ok [Fin (Q2Qc (5 # 2))]
  ∧ Num.is_integer (Fin (Q2Qc (5 # 2))) = false.
Proof.
  intros raw. subst raw. split; [vm_compute; reflexivity|].
  split; vm_compute; reflexivity.
Qed.

Lemma normalize_entry_effort (rt : runtime) (i : jsval) (idx : nat)
    (item : Initiative) :
  normalize_entry rt i idx = Ok item →
  ∃ v, Js.get i "effortManDays" = Ok v
       ∧ effortManDays item = Num.or_else (number_of rt v) Num.zero.
Proof.
  unfold normalize_entry, String_, to_number, mbind, result_bind.
  destruct (Js.get i "id") as [v_id|]; [|done].
  destruct (Js.get i "title") as [v_title|]; [|done].
  destruct (Js.get i "effortManDays") as [v_effort|]; [|done].
  destruct (Js.get i "week") as [v_week|]; [|done].
  destruct (Js.get i "okr") as [v_okr|]; [|done].
  destruct (Js.get i "taskDependencies") as [v_task|]; [|done].
  destruct (Js.get i "teamDependencies") as [v_team|]; [|done].
  destruct (Js.converts (or_value v_title _)); [|done].
  destruct (Js.converts v_effort); [|done].
  destruct (Js.converts v_week); [|done].
  destruct (Js.converts (or_value v_okr _)); [|done].
  intros [= <-]. by exists v_effort.
Qed.

(** ** C9: validation in the handlers *)

Lemma destructure_defined (v : jsval) (key : string) (dflt x : jsval) :
  dflt ≠ JUndefined → Js.destructure v key dflt = Ok x → x ≠ JUndefined.
Proof.
  unfold Js.destructure, mbind, result_bind.
  destruct (Js.get v key) as [y|]; [|done]. intros Hd [= <-].
  by destruct y.
Qed.

Lemma destructure_Ok (v : jsval) (key : string) (dflt : jsval) :
  v ≠ JNull → v ≠ JUndefined → ∃ x, Js.destructure v key dflt = Ok x.
Proof.
  intros Hn Hu. unfold Js.destructure, mbind, result_bind.
  destruct v; cbn [Js.get]; try done; eauto.
Qed.

Lemma read_context_Ok (context : jsval) :
  context ≠ JNull → context ≠ JUndefined → ∃ l, read_context context = Ok l.
Proof.
  intros Hn Hu. unfold read_context, mbind, result_bind.
  destruct (destructure_Ok context "organisation" (JStr "") Hn Hu) as [? ->].
  destruct (destructure_Ok context "team" (JStr "") Hn Hu) as [? ->].
  destruct (destructure_Ok context "goal" (JStr "") Hn Hu) as [? ->].
  destruct (destructure_Ok context "additionalContext" (JStr "") Hn Hu) as [? ->].
  eauto.
Qed.

Lemma read_constraints_Ok (constraints : jsval) :
  constraints ≠ JNull → constraints ≠ JUndefined →
  ∃ l, read_constraints constraints = Ok l.
Proof.
  intros Hn Hu. unfold read_constraints, mbind, result_bind.
  destruct (destructure_Ok constraints "manDays" (JNum Num.zero) Hn Hu) as [? ->].
  destruct (destructure_Ok constraints "timelineWeeks" (JNum Num.one) Hn Hu)
    as [? ->].
  destruct (destructure_Ok constraints "startDate" (JStr "") Hn Hu) as [? ->].
  eauto.
Qed.

Lemma destructures_body (body : jsval) :
  destructures body → body ≠ JNull ∧ body ≠ JUndefined.
Proof.
  intros (context & _ & Hc & _). unfold Js.destructure, mbind, result_bind in Hc.
  by destruct body.
Qed.

Lemma generate_rejects_400 (rt : runtime) (body okrs : jsval) :
  destructures body → Js.get body "okrs" = Ok okrs →
  Js.nonempty_array okrs = false →
  generate_roadmap rt body = Respond (ReplyError 400 "At least one OKR is required").
Proof.
  intros (context & constraints & Hc & Hcn & Hl & Hln) Hokrs Hempty.
  unfold generate_roadmap, mbind, result_bind.
  rewrite Hokrs, Hc, Hl.
  destruct (read_context_Ok context) as [ctx ->];
    [done | exact (destructure_defined body "context" (JObj []) _ ltac:(done) Hc)|].
  destruct (read_constraints_Ok constraints) as [limits ->];
    [done | exact (destructure_defined body "constraints" (JObj []) _ ltac:(done) Hl)|].
  by destruct okrs as [| | | | |[|o os]|].
Qed.

Lemma generate_rejects (rt : runtime) (body : jsval) :
  (∀ okrs, Js.get body "okrs" = Ok okrs → Js.nonempty_array okrs = false) →
  rejects (generate_roadmap rt body) 400 ∨ rejects (generate_roadmap rt body) 500.
Proof.
  intros Hokrs. unfold rejects, generate_roadmap, mbind, result_bind.
  destruct (Js.get body "okrs") as [okrs|e]; [|right; by eexists].
  specialize (Hokrs okrs eq_refl).
  destruct (Js.destructure body "context" _) as [context|e]; [|right; by eexists].
  destruct (Js.destructure body "constraints" _) as [constraints|e];
    [|right; by eexists].
  destruct (read_context context) as [ctx|e]; [|right; by eexists].
  destruct (read_constraints constraints) as [limits|e]; [|right; by eexists].
  left. destruct okrs as [| | | | |[|o os]|]; try done; by eexists.
Qed.

Lemma modify_rejects_400 (rt : runtime) (body command : jsval) :
  destructures body → Js.get body "command" = Ok command →
  Js.truthy command = false →
  modify_roadmap rt body = Respond (ReplyError 400 "Command is required").
Proof.
  intros Hd Hcmd Hfalsy. destruct (destructures_body body Hd) as [Hn Hu].
  destruct Hd as (context & constraints & Hc & Hcn & Hl & Hln).
  unfold modify_roadmap, mbind, result_bind.
  rewrite Hcmd, Hc, Hl.
  destruct (destructure_Ok body "initiatives" (JArr []) Hn Hu) as [? ->].
  destruct (destructure_Ok body "okrs" (JArr []) Hn Hu) as [? ->].
  destruct (read_context_Ok context) as [ctx ->];
    [done | exact (destructure_defined body "context" (JObj []) _ ltac:(done) Hc)|].
  destruct (read_constraints_Ok constraints) as [limits ->];
    [done | exact (destructure_defined body "constraints" (JObj []) _ ltac:(done) Hl)|].
  by rewrite Hfalsy.
Qed.

Lemma modify_rejects (rt : runtime) (body : jsval) :
  (∀ command, Js.get body "command" = Ok command → Js.truthy command = false) →
  rejects (modify_roadmap rt body) 400 ∨ rejects (modify_roadmap rt body) 500.
Proof.
  intros Hcmd. unfold rejects, modify_roadmap, mbind, result_bind.
  destruct (Js.get body "command") as [command|e]; [|right; by eexists].
  specialize (Hcmd command eq_refl).
  destruct (Js.destructure body "initiatives" _) as [?|e]; [|right; by eexists].
  destruct (Js.destructure body "okrs" _) as [?|e]; [|right; by eexists].
  destruct (Js.destructure body "context" _) as [context|e]; [|right; by eexists].
  destruct (Js.destructure body "constraints" _) as [constraints|e];
    [|right; by eexists].
  destruct (read_context context) as [ctx|e]; [|right; by eexists].
  destruct (read_constraints constraints) as [limits|e]; [|right; by eexists].
  left. rewrite Hcmd. by eexists.
Qed.

(** A body whose [context] is [null] is answered by the catch-all, with
    status 500, whatever [okrs] is. *)
Lemma null_context_500 (rt : runtime) (okrs : jsval) :
  generate_roadmap rt (JObj [("okrs", okrs); ("context", JNull)])
  = Respond (ReplyError 500 (message_or rt TypeError "Failed to generate roadmap")).
Proof. reflexivity. Qed.

(** C9, amended.  When the request body can be taken apart (it is not
    [null] or [undefined], and neither is its [context] or
    [constraints] [null]), the generate handler answers 400 "At least one
    OKR is required" whenever [okrs] is not a non-empty array, and the
    modify handler answers 400 "Command is required" whenever [command]
    is missing, empty or otherwise falsy.  For every body with such an
    [okrs] or [command] the handler answers with an error, of status 400
    or 500, without calling the producer and without an initiative
    list. *)
Theorem producer_validation (rt : runtime) (body : jsval) :
  (∀ okrs, destructures body → Js.get body "okrs" = Ok okrs →
     Js.nonempty_array okrs = false →
     generate_roadmap rt body = Respond (ReplyError 400 "At least one OKR is required"))
  ∧ ((∀ okrs, Js.get body "okrs" = Ok okrs → Js.nonempty_array okrs = false) →
     rejects (generate_roadmap rt body) 400 ∨ rejects (generate_roadmap rt body) 500)
  ∧ (∀ command, destructures body → Js.get body "command" = Ok command →
       Js.truthy command = false →
       modify_roadmap rt body = Respond (ReplyError 400 "Command is required"))
  ∧ ((∀ command, Js.get body "command" = Ok command →
        Js.truthy command = false) →
     rejects (modify_roadmap rt body) 400 ∨ rejects (modify_roadmap rt body) 500).
Proof.
  split; [intros; by eapply generate_rejects_400|].
  split; [apply generate_rejects|].
  split; [intros; by eapply modify_rejects_400|].
  apply modify_rejects.
Qed.


Lemma producer_validation_witness :
  let body := JObj [("okrs", JArr []); ("context", JObj [("team", JStr "web")])] in
  destructures body
  ∧ Js.get body "okrs" = Ok (JArr [])
  ∧ Js.nonempty_array (JArr []) = false
  ∧ generate_roadmap Sample.rt body
    = Respond (ReplyError 400 "At least one OKR is required").
Proof.
  intros body.
  assert (destructures body) as Hd.
  { exists (JObj [("team", JStr "web")]), (JObj []).
    split; [reflexivity|]. split; [discriminate|].
    split; [reflexivity | discriminate]. }
  split; [exact Hd|]. split; [reflexivity|]. split; [reflexivity|].
  exact (proj1 (producer_validation Sample.rt body) (JArr []) Hd eq_refl eq_refl).
Defined.

(** With an empty [okrs] and a [null] context the generate handler answers
    500, not 400. *)
Lemma null_context_not_400 :
  let body := JObj [("okrs", JArr []); ("context", JNull)] in
  Js.get body "okrs" = Ok (JArr [])
  ∧ Js.nonempty_array (JArr []) = false
  ∧ generate_roadmap Sample.rt body
    = Respond (ReplyError 500 "Cannot destructure property")
  ∧ ¬ rejects (generate_roadmap Sample.rt body) 400.
Proof.
  intros body. split; [reflexivity|]. split; [reflexivity|].
  assert (generate_roadmap Sample.rt body
          = Respond (ReplyError 500 "Cannot destructure property")) as H
    by reflexivity.
  split; [exact H|]. intros [message Hm]. rewrite H in Hm. discriminate.
Qed.

(** * Further properties of the engine *)

(** ** Where fragments come from *)

Lemma max_one_not_NaN (w x : number) :
  Num.leb (Num.max Num.one w) x = true → Num.isNaN w = false.
Proof. by destruct w. Qed.

(** [week <= Math.max(1, week)], so a week at or after the first cursor is
    at or after the requested week, and is at least 1. *)
Lemma after_first_cursor (w : number) (k : Z) :
  Num.leb (Num.max Num.one w) (Num.of_Z k) = true →
  Num.leb w (Num.of_Z k) = true ∧ 1 ≤ k.
Proof.
  intros H. destruct w as [q| | |]; try done.
  - cbn in H. case_bool_decide as Hlt; cbn in H.
    + split; [done|]. apply bool_decide_eq_true_1 in H.
      assert (Num.ltb (Num.of_Z 1) (Num.of_Z k) = true) as H1.
      { cbn. apply bool_decide_eq_true_2. qc_lra. }
      apply NumFacts.ltb_of_Z in H1. lia.
    + pose proof H as H1. change (Fin (Q2Qc 1)) with (Num.of_Z 1) in H1.
      apply NumFacts.leb_of_Z in H1. split; [|done].
      cbn. apply bool_decide_eq_true_2. apply bool_decide_eq_true_1 in H.
      qc_lra.
  - cbn in H. change (Fin (Q2Qc 1)) with (Num.of_Z 1) in H.
    apply NumFacts.leb_of_Z in H. done.
Qed.

Lemma leb_succ (x : number) (k : Z) :
  Num.leb x (Num.of_Z k) = true → Num.leb x (Num.of_Z (k + 1)) = true.
Proof.
  intros H. eapply OrderFacts.leb_trans; [exact H|].
  apply NumFacts.leb_of_Z. lia.
Qed.

Lemma sourced_insert (items : list Initiative) (bw : weekmap) (k : Z)
    (frs : list Initiative) (item : Initiative) (e : number) :
  sourced items bw → bw !! k = Some frs → item ∈ items →
  Num.leb (Num.max Num.one (week item)) (Num.of_Z k) = true →
  sourced items (<[k := frs ++ [fragment item e (Num.of_Z k)]]> bw).
Proof.
  intros Hs Hl Hin Hle j frs' f. destruct (decide (k = j)) as [<-|Hne].
  - rewrite lookup_insert_eq. intros [= <-] Hf.
    apply elem_of_app in Hf as [Hf|Hf]; [by eapply Hs|].
    apply list_elem_of_singleton in Hf as ->. by exists item, e.
  - rewrite lookup_insert_ne by done. apply Hs.
Qed.

Lemma schedule_item_sourced (items : list Initiative) (fuel : nat)
    (cap sw : number) (st st' : weekmap * list Initiative) (item : Initiative) :
  sourced items st.1 → item ∈ items →
  schedule_item fuel cap sw st item = Done st' → sourced items st'.1.
Proof.
  intros Hs Hin Hi. apply schedule_item_Done in Hi as (s & Hp & -> & _).
  set (c0 := Num.max Num.one (week item)) in *.
  apply (place_invariant
           (λ s, sourced items (weeks s)
                 ∧ (cursor s = c0 ∨ Num.leb c0 (cursor s) = true)) cap sw item)
    in Hp as [[H _] _]; [done | | by split; [|left]].
  intros s1 s2 [Hs1 Hc] _ Hb.
  apply loop_body_Done in Hb as (k & frs & Hk & Hl & Hk' & Hcases).
  assert (Num.leb c0 (Num.of_Z k) = true) as Hle.
  { destruct Hc as [Hc|Hc]; [|by rewrite <- Hk].
    rewrite <- Hc, Hk. apply NumFacts.leb_of_Z. lia. }
  split; [|right; rewrite Hk'; by apply leb_succ].
  destruct Hcases as [(_ & _ & ->)|(_ & _ & ->)]; [done|].
  by apply sourced_insert.
Qed.

Lemma schedule_items_sourced (all items : list Initiative) (fuel : nat)
    (cap sw : number) (st st' : weekmap * list Initiative) :
  items ⊆ all → sourced all st.1 →
  schedule_items fuel cap sw items st = Done st' → sourced all st'.1.
Proof.
  intros Hsub. apply (schedule_items_invariant (λ st, sourced all st.1)).
  intros st1 item st2 Hs Hin. apply schedule_item_sourced; [done|].
  by apply Hsub.
Qed.

Lemma init_sourced (items : list Initiative) (sw : number) :
  sourced items (init_byWeek sw).
Proof.
  intros k frs f. rewrite init_byWeek_lookup. case_decide; [|done].
  intros [= <-] Hf. by apply elem_of_nil in Hf.
Qed.

(** X1.  Every fragment of a plan is a copy of one of the given
    initiatives in which only [effortManDays] and [week] were replaced,
    [week] by the week it is stored under; that week is at least 1 and
    not before the week the initiative asked for. *)
Theorem fragments_from_input (initiatives : list Initiative)
    (manDays timelineWeeks : number) (out : Plan)
    (k : Z) (frs : list Initiative) (f : Initiative) :
  schedule initiatives manDays timelineWeeks = Done out →
  byWeek out !! k = Some frs → f ∈ frs →
  ∃ item e, item ∈ initiatives
    ∧ f = fragment item e (Num.of_Z k)
    ∧ Num.leb (week item) (Num.of_Z k) = true ∧ 1 ≤ k.
Proof.
  intros Hrun Hl Hf. apply schedule_Done in Hrun.
  apply (schedule_items_sourced initiatives) in Hrun;
    [| by intros x; rewrite sort_perm | apply init_sourced].
  destruct (Hrun k frs f Hl Hf) as (item & e & Hin & -> & Hle).
  exists item, e. split; [done|]. split; [done|].
  by apply after_first_cursor.
Qed.

Lemma fragments_from_input_witness :
  let A := mkInitiative (Num.of_Z 1) "A" (Num.of_Z 7) (Num.of_Z 0) "growth" ["x"] [] in
  let f := fragment A (Num.of_Z 2) (Num.of_Z 2) in
  ∃ out frs,
    schedule [A] (Num.of_Z 10) (Num.of_Z 2) = Done out
    ∧ byWeek out !! 2 = Some frs ∧ f ∈ frs
    ∧ ∃ item e, item ∈ [A] ∧ f = fragment item e (Num.of_Z 2)
                ∧ Num.leb (week item) (Num.of_Z 2) = true ∧ 1 ≤ 2.
Proof.
  intros A f.
  set (out := mkPlan {[ 1 := [fragment A (Num.of_Z 5) (Num.of_Z 1)];
                        2 := [f] ]} []).
  assert (schedule [A] (Num.of_Z 10) (Num.of_Z 2) = Done out) as Hrun
    by (vm_compute; reflexivity).
  assert (byWeek out !! 2 = Some [f]) as Hl by (vm_compute; reflexivity).
  assert (f ∈ [f]) as Hf by apply list_elem_of_here.
  exists out, [f]. split; [exact Hrun|]. split; [exact Hl|]. split; [exact Hf|].
  exact (fragments_from_input [A] _ _ out 2 [f] f Hrun Hl Hf).
Defined.

(** ** What a fragment carries *)

Lemma positive_within_insert (c : Qc) (bw : weekmap) (k : Z)
    (frs : list Initiative) (item : Initiative) (e : Qc) (w : number) :
  positive_within c bw → bw !! k = Some frs → (0 < e)%Qc → (e ≤ c)%Qc →
  positive_within c (<[k := frs ++ [fragment item (Fin e) w]]> bw).
Proof.
  intros Hp Hl He Hc j frs'. destruct (decide (k = j)) as [<-|Hne].
  - rewrite lookup_insert_eq. intros [= <-]. apply Forall_app.
    split; [by eapply Hp|]. apply Forall_singleton. by exists e.
  - rewrite lookup_insert_ne by done. apply Hp.
Qed.

Lemma effort_sum_nonneg (c : Qc) (frs : list Initiative) :
  Forall (λ f, ∃ e, effortManDays f = Fin e ∧ (0 < e)%Qc ∧ (e ≤ c)%Qc) frs →
  (0 ≤ effort_sum frs)%Qc.
Proof.
  induction 1 as [|f frs (e & He & Hpos & _) _ IH]; cbn [effort_sum foldr];
    [done|].
  fold (effort_sum frs). rewrite He. cbn [to_Qc]. qc_lra.
Qed.

Lemma init_positive_within (c : Qc) (sw : number) :
  positive_within c (init_byWeek sw).
Proof.
  intros k frs. rewrite init_byWeek_lookup. case_decide; [|done].
  by intros [= <-].
Qed.

Lemma schedule_item_positive (c : Qc) (sw : number) (ks : list Z) (fuel : nat)
    (st st' : weekmap * list Initiative) (item : Initiative) :
  well_formed ks st.1 ∧ positive_within c st.1 →
  schedule_item fuel (Fin c) sw st item = Done st' →
  well_formed ks st'.1 ∧ positive_within c st'.1.
Proof.
  intros Hst Hi. apply schedule_item_Done in Hi as (s & Hpl & -> & _).
  apply (place_invariant
           (λ s, well_formed ks (weeks s) ∧ positive_within c (weeks s))
           (Fin c) sw item) in Hpl as [H _]; [done| |done].
  intros s1 s2 [Hwf1 Hp1] Hg Hb.
  destruct (loop_body_finite c sw ks item s1 s2 Hwf1 Hg Hb)
    as (k & frs & Hk & Hl & Hk' & [[_ ->]|(e & He & Hsum & -> & _)]); [done|].
  split; [by apply well_formed_insert|].
  pose proof (effort_sum_nonneg c frs (Hp1 k frs Hl)) as H0.
  apply positive_within_insert; [done..|]. qc_lra.
Qed.

Lemma schedule_positive (initiatives : list Initiative) (m c : Qc)
    (timelineWeeks : number) (out : Plan) :
  weeklyCapacity (Fin m) timelineWeeks = Fin c →
  schedule initiatives (Fin m) timelineWeeks = Done out →
  well_formed (seqZ 1 (week_count (safeWeeks timelineWeeks))) (byWeek out)
  ∧ positive_within c (byWeek out).
Proof.
  intros Hc Hrun. apply schedule_Done in Hrun. rewrite Hc in Hrun.
  revert Hrun.
  apply (schedule_items_invariant
           (λ st, well_formed (seqZ 1 (week_count (safeWeeks timelineWeeks))) st.1
                  ∧ positive_within c st.1)).
  - intros st item st' Hst _. by apply schedule_item_positive.
  - split; [apply init_well_formed | apply init_positive_within].
Qed.

(** X2.  [totalManDays] being a rational, every fragment of a plan
    carries a finite effort that is greater than 0 and at most the weekly
    capacity: no fragment is empty, negative or larger than a week. *)
Theorem fragment_efforts (initiatives : list Initiative) (m : Qc)
    (timelineWeeks : number) (out : Plan)
    (k : Z) (frs : list Initiative) (f : Initiative) :
  schedule initiatives (Fin m) timelineWeeks = Done out →
  byWeek out !! k = Some frs → f ∈ frs →
  Num.isFinite (effortManDays f) = true
  ∧ Num.gtb (effortManDays f) Num.zero = true
  ∧ Num.leb (effortManDays f) (weeklyCapacity (Fin m) timelineWeeks) = true.
Proof.
  intros Hrun Hl Hf.
  destruct (weeklyCapacity_finite m timelineWeeks) as (c & Hc & _).
  destruct (schedule_positive _ _ _ _ _ Hc Hrun) as [_ Hp].
  pose proof (Hp k frs Hl) as Hall. rewrite Forall_forall in Hall.
  destruct (Hall f Hf) as (e & -> & He & Hle). rewrite Hc.
  split; [done|]. split; cbn; apply bool_decide_eq_true_2; [qc_lra|done].
Qed.

Lemma fragment_efforts_witness :
  let A := mkInitiative (Num.of_Z 1) "A" (Num.of_Z 7) (Num.of_Z 1) "" [] [] in
  let f := fragment A (Num.of_Z 2) (Num.of_Z 2) in
  Num.isFinite (effortManDays f) = true
  ∧ Num.gtb (effortManDays f) Num.zero = true
  ∧ Num.leb (effortManDays f) (weeklyCapacity (Fin (Q2Qc 10)) (Num.of_Z 2)) = true.
Proof.
  intros A f.
  apply (fragment_efforts [A] (Q2Qc 10) (Num.of_Z 2)
           (mkPlan {[ 1 := [fragment A (Num.of_Z 5) (Num.of_Z 1)]; 2 := [f] ]} [])
           2 [f] f).
  - vm_compute; reflexivity.
  - vm_compute; reflexivity.
  - apply list_elem_of_here.
Defined.

(** ** The backlog *)

Lemma schedule_items_split (fuel : nat) (cap sw : number)
    (pre post : list Initiative) (item : Initiative)
    (st st' : weekmap * list Initiative) :
  schedule_items fuel cap sw (pre ++ item :: post) st = Done st' →
  ∃ st0 st1,
    schedule_items fuel cap sw pre st = Done st0
    ∧ schedule_item fuel cap sw st0 item = Done st1
    ∧ schedule_items fuel cap sw post st1 = Done st'.
Proof.
  rewrite schedule_items_app. unfold mbind, outcome_bind.
  destruct (schedule_items fuel cap sw pre st) as [st0| |] eqn:Hpre;
    cbn [bind schedule_items]; try done.
  unfold mbind, outcome_bind.
  destruct (schedule_item fuel cap sw st0 item) as [st1| |] eqn:Hitem;
    cbn [bind]; try done.
  intros Hpost. by exists st0, st1.
Qed.

(** An initiative with nothing to place: the loop is not entered. *)
Lemma schedule_item_idle (fuel : nat) (cap sw : number)
    (st : weekmap * list Initiative) (item : Initiative) :
  Num.gtb (effortManDays item) Num.zero = false →
  schedule_item fuel cap sw st item = Done st.
Proof.
  intros H. unfold schedule_item. rewrite place_stop.
  - unfold mbind, outcome_bind. cbn [bind remaining weeks]. rewrite H.
    by destruct st.
  - unfold loop_guard. cbn [remaining]. by rewrite H.
Qed.

(** An initiative whose first week is not within the timeline. *)
Lemma schedule_item_late (fuel : nat) (cap sw : number)
    (st : weekmap * list Initiative) (item : Initiative) :
  Num.leb (Num.max Num.one (week item)) sw = false →
  schedule_item fuel cap sw st item
  = Done (st.1, if Num.gtb (effortManDays item) Num.zero
                then st.2 ++ [item] else st.2).
Proof.
  intros H. unfold schedule_item. rewrite place_stop; [done|].
  unfold loop_guard. cbn [cursor]. rewrite H. apply andb_false_r.
Qed.

Lemma schedule_item_backlog (fuel : nat) (cap sw : number)
    (st st' : weekmap * list Initiative) (item : Initiative) :
  schedule_item fuel cap sw st item = Done st' →
  st'.2 = st.2
  ∨ (st'.2 = st.2 ++ [item] ∧ Num.gtb (effortManDays item) Num.zero = true).
Proof.
  intros Hi. destruct (Num.gtb (effortManDays item) Num.zero) eqn:Hpos.
  - apply schedule_item_extends in Hi as [_ [H|H]]; [by left|by right].
  - rewrite schedule_item_idle in Hi by done. injection Hi as <-. by left.
Qed.

Lemma schedule_items_backlog (fuel : nat) (cap sw : number)
    (items : list Initiative) (st st' : weekmap * list Initiative) :
  Forall (λ b, Num.gtb (effortManDays b) Num.zero = true) st.2 →
  schedule_items fuel cap sw items st = Done st' →
  Forall (λ b, Num.gtb (effortManDays b) Num.zero = true) st'.2.
Proof.
  apply (schedule_items_invariant
           (λ st, Forall (λ b, Num.gtb (effortManDays b) Num.zero = true) st.2)).
  intros st1 item st2 Hall _ Hi.
  apply schedule_item_backlog in Hi as [->|[-> Hpos]]; [done|].
  apply Forall_app. split; [done|]. by apply Forall_singleton.
Qed.

(** X3.  The backlog of a plan lists initiatives as they were given, in
    processing order and each at most as often as it was given; every one
    of them has [effortManDays > 0].  When the identifiers of the
    initiatives are pairwise distinct, so are those of the backlog. *)
Theorem backlog_entries (initiatives : list Initiative)
    (manDays timelineWeeks : number) (out : Plan) :
  schedule initiatives manDays timelineWeeks = Done out →
  sublist (backlog out) (sort initiatives)
  ∧ (∀ b, b ∈ backlog out →
       b ∈ initiatives ∧ Num.gtb (effortManDays b) Num.zero = true)
  ∧ (NoDup (id <$> initiatives) → NoDup (id <$> backlog out)).
Proof.
  intros Hrun. apply schedule_Done in Hrun.
  pose proof Hrun as Hpos. apply schedule_items_backlog in Hpos; [|done].
  apply schedule_items_extends in Hrun as (_ & added & Hadd & Hsub).
  cbn [snd] in Hadd, Hpos. rewrite app_nil_l in Hadd. subst added.
  split; [done|]. split.
  - intros b Hb. split.
    + rewrite <- (sort_perm initiatives). by eapply elem_of_sublist.
    + rewrite Forall_forall in Hpos. by apply Hpos.
  - intros Hnd. apply (sublist_NoDup _ (id <$> sort initiatives));
      [by rewrite (sort_perm initiatives) | by apply fmap_sublist].
Qed.

Lemma backlog_entries_witness :
  let A := mkInitiative (Num.of_Z 1) "A" (Num.of_Z 7) (Num.of_Z 1) "" [] [] in
  let B := mkInitiative (Num.of_Z 2) "B" (Num.of_Z 4) (Num.of_Z 1) "" [] [] in
  let out := mkPlan {[ 1 := [fragment A (Num.of_Z 5) (Num.of_Z 1)];
                       2 := [fragment A (Num.of_Z 2) (Num.of_Z 2);
                             fragment B (Num.of_Z 3) (Num.of_Z 2)] ]} [B] in
  sublist (backlog out) (sort [B; A])
  ∧ (∀ b, b ∈ backlog out →
       b ∈ [B; A] ∧ Num.gtb (effortManDays b) Num.zero = true)
  ∧ (NoDup (id <$> [B; A]) → NoDup (id <$> backlog out)).
Proof.
  intros A B out.
  apply (backlog_entries [B; A] (Num.of_Z 10) (Num.of_Z 2) out).
  vm_compute; reflexivity.
Defined.

Lemma plan_keys (initiatives : list Initiative) (manDays timelineWeeks : number)
    (out : Plan) (k : Z) :
  schedule initiatives manDays timelineWeeks = Done out →
  is_Some (byWeek out !! k) →
  1 ≤ k ∧ Num.leb (Num.of_Z k) (safeWeeks timelineWeeks) = true.
Proof.
  intros Hrun Hk. apply schedule_Done in Hrun.
  apply schedule_items_extends in Hrun as [Hext _]. cbn [fst] in Hext.
  apply (extends_keys _ _ k) in Hext. apply Hext in Hk.
  rewrite init_byWeek_lookup in Hk. case_decide as Hr; [|by destruct Hk].
  destruct (safeWeeks_finite timelineWeeks) as (q & Hq & _).
  rewrite Hq in Hr |- *. by apply week_in_range.
Qed.

(** Under distinct identifiers an identifier names one initiative. *)
Lemma same_id_same_item (l : list Initiative) (a b : Initiative) :
  NoDup (id <$> l) → a ∈ l → b ∈ l → id a = id b → a = b.
Proof.
  intros Hnd Ha Hb Hid.
  assert (a ∈ fragments_of (id b) l) as H
    by (by apply list_elem_of_filter).
  rewrite (fragments_of_unique b l Hnd Hb) in H.
  by apply list_elem_of_singleton in H.
Qed.

(** X4.  An initiative with [effortManDays > 0] whose first week
    [Math.max(1, week)] is not within the timeline (the week is after
    [safeWeeks], or is [NaN]) is in the backlog of the plan; the
    identifiers being pairwise distinct, no week holds a fragment of it. *)
Theorem late_initiative_backlogged (initiatives : list Initiative)
    (manDays timelineWeeks : number) (out : Plan) (item : Initiative) :
  schedule initiatives manDays timelineWeeks = Done out →
  item ∈ initiatives →
  Num.gtb (effortManDays item) Num.zero = true →
  Num.leb (Num.max Num.one (week item)) (safeWeeks timelineWeeks) = false →
  item ∈ backlog out
  ∧ (NoDup (id <$> initiatives) →
     ∀ k frs f, byWeek out !! k = Some frs → f ∈ frs → id f ≠ id item).
Proof.
  intros Hrun Hin Hpos Hlate. split.
  - apply schedule_Done in Hrun.
    assert (item ∈ sort initiatives) as Hs by (by rewrite sort_perm).
    apply list_elem_of_split in Hs as (pre & post & Hs). rewrite Hs in Hrun.
    apply schedule_items_split in Hrun as (st0 & st1 & _ & Hi & Hpost).
    rewrite schedule_item_late in Hi by done. rewrite Hpos in Hi.
    injection Hi as <-.
    apply schedule_items_extends in Hpost as (_ & added & Hadd & _).
    cbn [snd] in Hadd. rewrite Hadd, !elem_of_app. left. right.
    apply list_elem_of_here.
  - intros Hnd k frs f Hl Hf Hid.
    destruct (plan_keys _ _ _ _ k Hrun) as [_ Hk]; [by rewrite Hl|].
    apply schedule_Done in Hrun.
    apply (schedule_items_sourced initiatives) in Hrun;
      [| by intros x; rewrite sort_perm | apply init_sourced].
    destruct (Hrun k frs f Hl Hf) as (item' & e & Hin' & -> & Hle).
    cbn [id fragment] in Hid.
    apply (same_id_same_item initiatives item' item Hnd Hin' Hin) in Hid as ->.
    by rewrite (OrderFacts.leb_trans _ _ _ Hle Hk) in Hlate.
Qed.

Lemma late_initiative_backlogged_witness :
  let A := mkInitiative (Num.of_Z 1) "A" (Num.of_Z 3) (Num.of_Z 1) "" [] [] in
  let L := mkInitiative (Num.of_Z 2) "L" (Num.of_Z 2) (Num.of_Z 5) "" [] [] in
  let out := mkPlan {[ 1 := [fragment A (Num.of_Z 3) (Num.of_Z 1)]; 2 := [] ]} [L] in
  schedule [L; A] (Num.of_Z 10) (Num.of_Z 2) = Done out
  ∧ L ∈ backlog out.
Proof.
  intros A L out.
  assert (schedule [L; A] (Num.of_Z 10) (Num.of_Z 2) = Done out) as Hrun
    by (vm_compute; reflexivity).
  split; [exact Hrun|].
  apply (late_initiative_backlogged [L; A] _ _ out L Hrun).
  - apply list_elem_of_here.
  - vm_compute; reflexivity.
  - vm_compute; reflexivity.
Defined.

(** ** A budget of nothing *)

Lemma weeklyCapacity_value (m : Qc) (timelineWeeks : number) :
  ∃ q, safeWeeks timelineWeeks = Fin q ∧ (0 < q)%Qc
       ∧ weeklyCapacity (Fin m) timelineWeeks = Fin (m / q)%Qc.
Proof.
  unfold weeklyCapacity.
  destruct (safeWeeks_finite timelineWeeks) as (q & -> & Hq).
  exists q. split; [done|]. split; [done|]. cbn [Num.div].
  by rewrite bool_decide_eq_false_2 by (intros ->; by apply Qclt_not_eq in Hq).
Qed.

Lemma schedule_item_no_capacity (c : Qc) (fuel : nat) (sw : number)
    (st st' : weekmap * list Initiative) (item : Initiative) :
  (c ≤ 0)%Qc → (∀ k frs, st.1 !! k = Some frs → frs = []) →
  schedule_item fuel (Fin c) sw st item = Done st' →
  st' = (st.1, if Num.gtb (effortManDays item) Num.zero
               then st.2 ++ [item] else st.2).
Proof.
  intros Hc He Hi. apply schedule_item_Done in Hi as (s & Hpl & Hw & Hb).
  apply (place_invariant
           (λ s, remaining s = effortManDays item ∧ weeks s = st.1)
           (Fin c) sw item) in Hpl as [[Hr Hws] _]; [ | |done].
  - destruct st' as [w b]. cbn [fst snd] in *. rewrite Hr in Hb.
    rewrite Hws in Hw. by subst.
  - intros s1 s2 [Hr1 Hw1] _ Hbody.
    apply loop_body_Done in Hbody
      as (k & frs & _ & Hl & _ & [(_ & -> & ->)|(Hleft & _)]); [done|].
    rewrite Hw1 in Hl. apply He in Hl as ->. exfalso.
    cbn [used_of foldl Num.sub Num.add Num.neg Num.leb Num.zero Num.of_Z]
      in Hleft.
    apply bool_decide_eq_false_1 in Hleft. apply Hleft. qc_lra.
Qed.

Lemma schedule_items_no_capacity (c : Qc) (fuel : nat) (sw : number)
    (items : list Initiative) (st st' : weekmap * list Initiative) :
  (c ≤ 0)%Qc → (∀ k frs, st.1 !! k = Some frs → frs = []) →
  schedule_items fuel (Fin c) sw items st = Done st' →
  st' = (st.1, st.2 ++ filter (λ i, Num.gtb (effortManDays i) Num.zero = true)
                         items).
Proof.
  intros Hc. revert st. induction items as [|item items IH]; intros st He;
    cbn [schedule_items].
  - intros [= <-]. rewrite filter_nil, app_nil_r. by destruct st.
  - unfold mbind, outcome_bind.
    destruct (schedule_item fuel (Fin c) sw st item) as [st1| |] eqn:Hi;
      cbn [bind]; try done.
    apply schedule_item_no_capacity in Hi; [|done..]. subst st1.
    intros Hrest. apply IH in Hrest; [|done]. cbn [fst snd] in Hrest.
    rewrite Hrest. f_equal.
    destruct (Num.gtb (effortManDays item) Num.zero) eqn:Hpos.
    + rewrite filter_cons_True by done. by rewrite <- app_assoc.
    + rewrite filter_cons_False; [done|]. by rewrite Hpos.
Qed.

(** X5.  With a [totalManDays] that is 0 or negative, a plan has no
    fragment in any week, and its backlog is the initiatives with
    [effortManDays > 0], in processing order. *)
Theorem nothing_placed_without_budget (initiatives : list Initiative) (m : Qc)
    (timelineWeeks : number) (out : Plan) :
  (m ≤ 0)%Qc →
  schedule initiatives (Fin m) timelineWeeks = Done out →
  (∀ k frs, byWeek out !! k = Some frs → frs = [])
  ∧ backlog out
    = filter (λ i, Num.gtb (effortManDays i) Num.zero = true) (sort initiatives).
Proof.
  intros Hm Hrun. apply schedule_Done in Hrun.
  destruct (weeklyCapacity_value m timelineWeeks) as (q & _ & Hq & Hc).
  rewrite Hc in Hrun. apply schedule_items_no_capacity in Hrun.
  - cbn [fst snd] in Hrun. injection Hrun as Hw Hb. split; [|done].
    intros k frs. rewrite Hw, init_byWeek_lookup. case_decide; [|done].
    by intros [= <-].
  - unfold Qcdiv. rewrite <- (Qcmult_0_l (/ q)).
    apply Qcmult_le_compat_r; [done|]. by apply Qclt_le_weak, Qcinv_pos.
  - intros k frs. cbn [fst]. rewrite init_byWeek_lookup. case_decide; [|done].
    by intros [= <-].
Qed.

Lemma nothing_placed_without_budget_witness :
  let A := mkInitiative (Num.of_Z 1) "A" (Num.of_Z 3) (Num.of_Z 1) "" [] [] in
  let Z0 := mkInitiative (Num.of_Z 2) "Z" (Num.of_Z 0) (Num.of_Z 1) "" [] [] in
  let out := mkPlan {[ 1 := []; 2 := [] ]} [A] in
  schedule [Z0; A] (Fin (Q2Qc 0)) (Num.of_Z 2) = Done out
  ∧ backlog out
    = filter (λ i, Num.gtb (effortManDays i) Num.zero = true) (sort [Z0; A]).
Proof.
  intros A Z0 out.
  assert (schedule [Z0; A] (Fin (Q2Qc 0)) (Num.of_Z 2) = Done out) as Hrun
    by (vm_compute; reflexivity).
  split; [exact Hrun|].
  apply (nothing_placed_without_budget [Z0; A] (Q2Qc 0) (Num.of_Z 2) out);
    [|exact Hrun].
  vm_compute. discriminate.
Defined.

(** ** Initiatives with nothing to place *)

Lemma lex_le_not_pos (a b : Initiative) :
  ordered_fields a → ordered_fields b → lex_le a b →
  Num.gtb (compare a b) Num.zero = false.
Proof.
  intros Ha Hb Hle. destruct (Num.gtb (compare a b) Num.zero) eqn:H; [|done].
  apply OrderFacts.compare_pos in H; [|done..]. exfalso.
  apply (OrderFacts.lex_lt_not_le b a); [|done].
  destruct H as [H|[Heq H]]; [by left|by right].
Qed.

Lemma insert_sorted_head (x : Initiative) (l : list Initiative) :
  ordered_fields x → Forall ordered_fields l → Forall (lex_le x) l →
  insert_sorted x l = x :: l.
Proof.
  destruct l as [|y l]; [done|]. intros Hx Hl Hle. cbn [insert_sorted].
  rewrite lex_le_not_pos; [done|done|by inv Hl|by inv Hle].
Qed.

Lemma insert_sorted_filter (P : Initiative → Prop) `{∀ x, Decision (P x)}
    (x : Initiative) (s : list Initiative) :
  P x → ordered_fields x → Forall ordered_fields s →
  StronglySorted lex_le s →
  insert_sorted x (filter P s) = filter P (insert_sorted x s).
Proof.
  intros HP Hx. induction s as [|y s IH]; intros Hs Hsorted.
  { cbn [insert_sorted]. rewrite filter_nil, filter_cons_True by done.
    by rewrite filter_nil. }
  inv Hs. inv Hsorted. cbn [insert_sorted].
  destruct (Num.gtb (compare x y) Num.zero) eqn:Hc.
  - destruct (decide (P y)) as [Hy|Hy].
    + rewrite !filter_cons_True by done. cbn [insert_sorted].
      rewrite Hc. f_equal. by apply IH.
    + rewrite !filter_cons_False by done. by apply IH.
  - rewrite (filter_cons_True P x) by done.
    apply insert_sorted_head; [done| |].
    + apply Forall_forall. intros z Hz%list_elem_of_filter.
      destruct Hz as [_ Hz]. rewrite Forall_forall in * |-.
      apply elem_of_cons in Hz as [->|Hz]; auto.
    + assert (lex_le x y) as Hxy by (by apply OrderFacts.compare_nonpos_le).
      apply Forall_forall. intros z Hz%list_elem_of_filter.
      destruct Hz as [_ Hz]. apply elem_of_cons in Hz as [->|Hz]; [done|].
      apply (OrderFacts.lex_le_trans x y z); [done|].
      rewrite Forall_forall in * |-. auto.
Qed.

Lemma insert_sorted_filter_out (P : Initiative → Prop) `{∀ x, Decision (P x)}
    (x : Initiative) (s : list Initiative) :
  ¬ P x → filter P (insert_sorted x s) = filter P s.
Proof.
  intros HP. induction s as [|y s IH]; cbn [insert_sorted].
  - by rewrite filter_cons_False.
  - destruct (Num.gtb (compare x y) Num.zero).
    + rewrite !(filter_cons P y). by rewrite IH.
    + by rewrite filter_cons_False.
Qed.

(** Sorting and dropping entries can be done in either order. *)
Lemma sort_filter (P : Initiative → Prop) `{∀ x, Decision (P x)}
    (l : list Initiative) :
  Forall ordered_fields l → sort (filter P l) = filter P (sort l).
Proof.
  induction 1 as [|x l Hx Hl IH]; [done|].
  change (sort (x :: l)) with (insert_sorted x (sort l)).
  destruct (decide (P x)) as [HP|HP].
  - rewrite filter_cons_True by done.
    change (sort (x :: filter P l)) with (insert_sorted x (sort (filter P l))).
    rewrite IH. apply insert_sorted_filter; [done..| |by apply sort_sorted].
    by rewrite sort_perm.
  - rewrite filter_cons_False by done. rewrite IH.
    by rewrite insert_sorted_filter_out.
Qed.

Lemma schedule_items_filter (fuel : nat) (cap sw : number)
    (items : list Initiative) (st : weekmap * list Initiative) :
  schedule_items fuel cap sw
    (filter (λ i, Num.gtb (effortManDays i) Num.zero = true) items) st
  = schedule_items fuel cap sw items st.
Proof.
  revert st. induction items as [|item items IH]; intros st; [done|].
  destruct (Num.gtb (effortManDays item) Num.zero) eqn:Hpos.
  - rewrite filter_cons_True by done. cbn [schedule_items].
    unfold mbind, outcome_bind.
    destruct (schedule_item fuel cap sw st item); cbn [bind]; [apply IH|done..].
  - rewrite filter_cons_False by (by rewrite Hpos). cbn [schedule_items].
    rewrite schedule_item_idle by done. unfold mbind, outcome_bind.
    cbn [bind]. apply IH.
Qed.

(** X6.  The initiatives having a [week] and an [id] other than [NaN]:
    those whose [effortManDays] is 0, negative or [NaN] have no effect on
    the outcome, which is the one the engine gives for the list without
    them. *)
Theorem idle_initiatives_ignored (initiatives : list Initiative)
    (manDays timelineWeeks : number) :
  Forall ordered_fields initiatives →
  schedule (filter (λ i, Num.gtb (effortManDays i) Num.zero = true) initiatives)
    manDays timelineWeeks
  = schedule initiatives manDays timelineWeeks.
Proof.
  intros Hl. unfold schedule, schedule_fuel.
  by rewrite sort_filter, schedule_items_filter.
Qed.

Lemma idle_initiatives_ignored_witness :
  let A := mkInitiative (Num.of_Z 1) "A" (Num.of_Z 3) (Num.of_Z 1) "" [] [] in
  let N := mkInitiative (Num.of_Z 2) "N" NaN (Num.of_Z 1) "" [] [] in
  let M := mkInitiative (Num.of_Z 3) "M" (Num.of_Z (-4)) (Num.of_Z 1) "" [] [] in
  filter (λ i, Num.gtb (effortManDays i) Num.zero = true) [N; A; M] = [A]
  ∧ schedule (filter (λ i, Num.gtb (effortManDays i) Num.zero = true) [N; A; M])
      (Num.of_Z 10) (Num.of_Z 2)
    = schedule [N; A; M] (Num.of_Z 10) (Num.of_Z 2).
Proof.
  intros A N M. split; [vm_compute; reflexivity|].
  apply (idle_initiatives_ignored [N; A; M]).
  repeat constructor.
Defined.

(** ** One fragment per initiative and week *)

Lemma distinct_in_weeks_more (seen : list number) (x : number) (bw : weekmap) :
  distinct_in_weeks seen bw → distinct_in_weeks (x :: seen) bw.
Proof.
  intros Hd k frs Hl. destruct (Hd k frs Hl) as [Hnd Hin].
  split; [done|]. intros f Hf. apply list_elem_of_further. by apply Hin.
Qed.

(** While the loop runs for [item], the weeks from the cursor on hold
    nothing of it yet. *)
Lemma place_distinct (seen : list number) (fuel : nat) (cap sw : number)
    (item : Initiative) (s s' : loop_state) :
  id item ∉ seen → distinct_in_weeks seen (weeks s) →
  place fuel cap sw item s = Done s' →
  distinct_in_weeks (id item :: seen) (weeks s').
Proof.
  intros Hnew Hd Hp.
  apply (place_invariant
           (λ s, distinct_in_weeks (id item :: seen) (weeks s)
                 ∧ ∀ j k frs f, cursor s = Num.of_Z j → j ≤ k →
                     weeks s !! k = Some frs → f ∈ frs → id f ∈ seen)
           cap sw item) in Hp as [[H _] _]; [done| |].
  - intros s1 s2 [Hd1 Hfrom] _ Hb.
    apply loop_body_Done in Hb as (k & frs & Hk & Hl & Hk' & Hcases).
    assert (∀ j k' frs' f, cursor s2 = Num.of_Z j → j ≤ k' →
              weeks s1 !! k' = Some frs' → f ∈ frs' → id f ∈ seen) as Hnext.
    { intros j k' frs' f Hj Hle. rewrite Hk' in Hj.
      apply NumFacts.of_Z_inj in Hj. apply (Hfrom k); [done|lia]. }
    destruct Hcases as [(_ & _ & ->)|(_ & _ & ->)]; [by split|]. split.
    + intros k' frs'. destruct (decide (k = k')) as [<-|Hne].
      * rewrite lookup_insert_eq. intros [= <-].
        destruct (Hd1 k frs Hl) as [Hnd Hin]. split.
        { rewrite fmap_app. apply NoDup_app. split; [done|]. split.
          - intros x Hx Hx'. cbn in Hx'.
            apply list_elem_of_singleton in Hx' as ->.
            apply list_elem_of_fmap in Hx as (f & Hid & Hf).
            apply Hnew. rewrite Hid. apply (Hfrom k k frs f); [done|lia|done..].
          - apply NoDup_singleton. }
        intros f Hf. apply elem_of_app in Hf as [Hf|Hf]; [by apply Hin|].
        apply list_elem_of_singleton in Hf as ->. apply list_elem_of_here.
      * rewrite lookup_insert_ne by done. apply Hd1.
    + intros j k' frs' f Hj Hle. rewrite Hk' in Hj.
      apply NumFacts.of_Z_inj in Hj. rewrite lookup_insert_ne by lia.
      apply (Hfrom k); [done|lia].
  - split; [by apply distinct_in_weeks_more|].
    intros j k frs f _ _ Hl Hf. destruct (Hd k frs Hl) as [_ Hin]. by apply Hin.
Qed.

Lemma schedule_items_distinct (fuel : nat) (cap sw : number)
    (items : list Initiative) (seen : list number)
    (st st' : weekmap * list Initiative) :
  NoDup (id <$> items) → (∀ i, i ∈ items → id i ∉ seen) →
  distinct_in_weeks seen st.1 →
  schedule_items fuel cap sw items st = Done st' →
  ∃ seen', distinct_in_weeks seen' st'.1.
Proof.
  revert seen st. induction items as [|item items IH]; intros seen st Hnd Hnew Hd;
    cbn [schedule_items].
  - intros [= <-]. by exists seen.
  - unfold mbind, outcome_bind.
    destruct (schedule_item fuel cap sw st item) as [st1| |] eqn:Hi;
      cbn [bind]; try done.
    apply schedule_item_Done in Hi as (s & Hp & Hw & _).
    apply (place_distinct seen) in Hp;
      [|apply Hnew, list_elem_of_here|done].
    rewrite fmap_cons in Hnd. apply NoDup_cons in Hnd as [Hitem Hnd].
    apply (IH (id item :: seen)); [done| |by rewrite Hw].
    intros i Hin Hx. apply elem_of_cons in Hx as [Hx|Hx].
    + apply Hitem. rewrite <- Hx. by apply list_elem_of_fmap_2.
    + apply (Hnew i); [by apply list_elem_of_further|done].
Qed.

(** X9.  The identifiers of the initiatives being pairwise distinct, the
    fragments of a week carry pairwise distinct identifiers: an initiative
    has at most one fragment in a week. *)
Theorem one_fragment_per_week (initiatives : list Initiative)
    (manDays timelineWeeks : number) (out : Plan)
    (k : Z) (frs : list Initiative) :
  NoDup (id <$> initiatives) →
  schedule initiatives manDays timelineWeeks = Done out →
  byWeek out !! k = Some frs → NoDup (id <$> frs).
Proof.
  intros Hnd Hrun Hl. apply schedule_Done in Hrun.
  apply (schedule_items_distinct _ _ _ _ []) in Hrun as [seen Hd].
  - by destruct (Hd k frs Hl).
  - by rewrite (sort_perm initiatives).
  - intros i _ Hi. by apply elem_of_nil in Hi.
  - intros j frs'. cbn [fst]. rewrite init_byWeek_lookup.
    case_decide; [|done]. intros [= <-]. split; [constructor|].
    intros f Hf. by apply elem_of_nil in Hf.
Qed.

Lemma one_fragment_per_week_witness :
  let A := mkInitiative (Num.of_Z 1) "A" (Num.of_Z 7) (Num.of_Z 1) "" [] [] in
  let B := mkInitiative (Num.of_Z 2) "B" (Num.of_Z 4) (Num.of_Z 1) "" [] [] in
  NoDup (id <$> [fragment A (Num.of_Z 2) (Num.of_Z 2);
                 fragment B (Num.of_Z 3) (Num.of_Z 2)]).
Proof.
  intros A B.
  apply (one_fragment_per_week [A; B] (Num.of_Z 10) (Num.of_Z 2)
           (mkPlan {[ 1 := [fragment A (Num.of_Z 5) (Num.of_Z 1)];
                      2 := [fragment A (Num.of_Z 2) (Num.of_Z 2);
                            fragment B (Num.of_Z 3) (Num.of_Z 2)] ]} [B]) 2).
  - apply (bool_decide_unpack _). vm_compute. exact I.
  - vm_compute; reflexivity.
  - vm_compute; reflexivity.
Defined.

(** ** Fields the engine does not read *)

Lemma compare_map (f : Initiative → Initiative) (a b : Initiative) :
  metadata_only f → compare (f a) (f b) = compare a b.
Proof.
  intros [Hkeep _]. unfold compare.
  destruct (Hkeep a) as (-> & -> & _). by destruct (Hkeep b) as (-> & -> & _).
Qed.

Lemma insert_sorted_map (f : Initiative → Initiative) (x : Initiative)
    (l : list Initiative) :
  metadata_only f → insert_sorted (f x) (f <$> l) = f <$> insert_sorted x l.
Proof.
  intros Hf. induction l as [|y l IH]; [done|].
  cbn [insert_sorted fmap list_fmap].
  rewrite compare_map by done.
  destruct (Num.gtb (compare x y) Num.zero); [|done].
  cbn [fmap list_fmap]. f_equal. apply IH.
Qed.

Lemma sort_map (f : Initiative → Initiative) (l : list Initiative) :
  metadata_only f → sort (f <$> l) = f <$> sort l.
Proof.
  intros Hf. induction l as [|x l IH]; [done|].
  change (sort (f <$> x :: l)) with (insert_sorted (f x) (sort (f <$> l))).
  rewrite IH. by apply insert_sorted_map.
Qed.

Lemma used_of_map (f : Initiative → Initiative) (frs : list Initiative) :
  metadata_only f → used_of (f <$> frs) = used_of frs.
Proof.
  intros [Hkeep _]. unfold used_of. generalize Num.zero.
  induction frs as [|x frs IH]; intros a; [done|].
  cbn [fmap list_fmap foldl]. destruct (Hkeep x) as (_ & _ & ->). apply IH.
Qed.

Lemma week_slot_map (f : Initiative → Initiative) (bw : weekmap) (w : number) :
  week_slot (map_weeks f bw) w
  = (λ kf : Z * list Initiative, (kf.1, f <$> kf.2)) <$> week_slot bw w.
Proof.
  unfold week_slot, map_weeks. destruct (Num.to_Z w) as [k|]; [|done].
  cbn. rewrite lookup_fmap. by destruct (bw !! k).
Qed.

Lemma loop_body_map (f : Initiative → Initiative) (cap : number)
    (item : Initiative) (s : loop_state) :
  metadata_only f →
  loop_body cap (f item) (map_loop f s)
  = map_outcome (map_loop f) (loop_body cap item s).
Proof.
  intros Hf. pose proof Hf as [_ Hfrag]. unfold loop_body.
  cbn [map_loop weeks cursor remaining].
  rewrite week_slot_map. destruct (week_slot (weeks s) (cursor s)) as [[k frs]|];
    [|done].
  cbn [fmap option_fmap option_map fst snd]. rewrite used_of_map by done.
  destruct (Num.leb (Num.sub cap (used_of frs)) Num.zero); [done|].
  cbn [map_outcome]. unfold map_loop. cbn [weeks cursor remaining].
  do 2 f_equal. unfold map_weeks. rewrite fmap_insert, fmap_app.
  cbn [fmap list_fmap]. by rewrite Hfrag.
Qed.

Lemma place_map (f : Initiative → Initiative) (fuel : nat) (cap sw : number)
    (item : Initiative) (s : loop_state) :
  metadata_only f →
  place fuel cap sw (f item) (map_loop f s)
  = map_outcome (map_loop f) (place fuel cap sw item s).
Proof.
  intros Hf. revert s. induction fuel as [|fuel IH]; intros s; cbn [place];
    change (loop_guard sw (map_loop f s)) with (loop_guard sw s);
    destruct (loop_guard sw s); try done.
  rewrite loop_body_map by done. unfold mbind, outcome_bind.
  destruct (loop_body cap item s) as [s1| |]; cbn [map_outcome bind]; [|done..].
  apply IH.
Qed.

Lemma schedule_item_map (f : Initiative → Initiative) (fuel : nat)
    (cap sw : number) (st : weekmap * list Initiative) (item : Initiative) :
  metadata_only f →
  schedule_item fuel cap sw (map_state f st) (f item)
  = map_outcome (map_state f) (schedule_item fuel cap sw st item).
Proof.
  intros Hf. pose proof Hf as [Hkeep _]. unfold schedule_item.
  destruct (Hkeep item) as (_ & -> & ->).
  change (mkLoop (effortManDays item) (Num.max Num.one (week item))
            (map_state f st).1)
    with (map_loop f (mkLoop (effortManDays item)
                        (Num.max Num.one (week item)) st.1)).
  rewrite place_map by done. unfold mbind, outcome_bind.
  destruct (place fuel cap sw item _) as [s| |]; cbn [map_outcome bind]; [|done..].
  unfold map_state. cbn [fst snd map_loop weeks remaining]. do 2 f_equal.
  destruct (Num.gtb (remaining s) Num.zero); [|done]. by rewrite fmap_app.
Qed.

Lemma schedule_items_map (f : Initiative → Initiative) (fuel : nat)
    (cap sw : number) (items : list Initiative)
    (st : weekmap * list Initiative) :
  metadata_only f →
  schedule_items fuel cap sw (f <$> items) (map_state f st)
  = map_outcome (map_state f) (schedule_items fuel cap sw items st).
Proof.
  intros Hf. revert st. induction items as [|item items IH]; intros st; [done|].
  cbn [fmap list_fmap schedule_items]. rewrite schedule_item_map by done.
  unfold mbind, outcome_bind.
  destruct (schedule_item fuel cap sw st item) as [st1| |];
    cbn [map_outcome bind]; [|done..].
  apply IH.
Qed.

Lemma init_byWeek_map (f : Initiative → Initiative) (sw : number) :
  map_weeks f (init_byWeek sw) = init_byWeek sw.
Proof.
  apply map_eq. intros k. unfold map_weeks.
  rewrite lookup_fmap, init_byWeek_lookup. by case_decide.
Qed.

Lemma schedule_fuel_map (f : Initiative → Initiative) (fuel : nat)
    (initiatives : list Initiative) (manDays timelineWeeks : number) :
  metadata_only f →
  schedule_fuel fuel (f <$> initiatives) manDays timelineWeeks
  = map_outcome (map_plan f)
      (schedule_fuel fuel initiatives manDays timelineWeeks).
Proof.
  intros Hf. unfold schedule_fuel. rewrite sort_map by done.
  set (sw := safeWeeks timelineWeeks).
  set (cap := weeklyCapacity manDays timelineWeeks).
  replace (init_byWeek sw, @nil Initiative)
    with (map_state f (init_byWeek sw, [])) at 1
    by (unfold map_state; cbn [fst snd]; by rewrite init_byWeek_map).
  rewrite schedule_items_map by done. unfold mbind, outcome_bind.
  by destruct (schedule_items fuel cap sw (sort initiatives) _) as [st| |].
Qed.

(** X10.  Take a change of the initiatives that keeps [id], [week] and
    [effortManDays] and sets the other fields without reading those two.
    The engine commutes with it: the outcome for the changed list is the
    outcome for the given list with the change applied to every fragment
    and backlog entry.  So the changed list raises exactly when the given
    one does, and a week of its plan holds the same efforts in the same
    order. *)
Theorem metadata_invisible (f : Initiative → Initiative)
    (initiatives : list Initiative) (manDays timelineWeeks : number) :
  metadata_only f →
  schedule (f <$> initiatives) manDays timelineWeeks
  = map_outcome (map_plan f) (schedule initiatives manDays timelineWeeks)
  ∧ (∀ e, schedule (f <$> initiatives) manDays timelineWeeks = Throw e
          ↔ schedule initiatives manDays timelineWeeks = Throw e)
  ∧ (∀ out k frs,
       schedule initiatives manDays timelineWeeks = Done out →
       byWeek out !! k = Some frs →
       ∃ out', schedule (f <$> initiatives) manDays timelineWeeks = Done out'
               ∧ byWeek out' !! k = Some (f <$> frs)
               ∧ effortManDays <$> (f <$> frs) = effortManDays <$> frs).
Proof.
  intros Hf.
  assert (schedule (f <$> initiatives) manDays timelineWeeks
          = map_outcome (map_plan f)
              (schedule initiatives manDays timelineWeeks)) as Heq
    by (by apply schedule_fuel_map).
  split; [done|]. split.
  - intros e. rewrite Heq.
    destruct (schedule initiatives manDays timelineWeeks); cbn [map_outcome];
      split; congruence.
  - intros out k frs Hrun Hl. rewrite Heq, Hrun. cbn [map_outcome].
    eexists. split; [done|]. cbn [map_plan byWeek]. unfold map_weeks.
    rewrite lookup_fmap, Hl. split; [done|].
    rewrite <- list_fmap_compose. apply list_fmap_ext. intros _ x _.
    cbn. destruct Hf as [Hkeep _]. by destruct (Hkeep x) as (_ & _ & ->).
Qed.

Lemma metadata_invisible_witness :
  let A := mkInitiative (Num.of_Z 1) "A" (Num.of_Z 7) (Num.of_Z 1) "" [] [] in
  let B := mkInitiative (Num.of_Z 2) "B" (Num.of_Z 4) (Num.of_Z 1) "" [] [] in
  let f := App.with_title "renamed" in
  schedule (f <$> [A; B]) (Num.of_Z 10) (Num.of_Z 2)
  = map_outcome (map_plan f) (schedule [A; B] (Num.of_Z 10) (Num.of_Z 2)).
Proof.
  intros A B f.
  apply (metadata_invisible f [A; B] (Num.of_Z 10) (Num.of_Z 2)).
  split; [intros i; repeat split | intros i e w; reflexivity].
Defined.

(** ** Edits of one initiative *)

Lemma update_by_id_metadata (target : number) (h : Initiative → Initiative) :
  metadata_only h →
  metadata_only (λ x, if Num.eqb (id x) target then h x else x).
Proof.
  intros [Hkeep Hfrag]. split.
  - intros i. destruct (Num.eqb (id i) target); [apply Hkeep|done].
  - intros i e w. cbn [id fragment].
    destruct (Num.eqb (id i) target); [apply Hfrag|done].
Qed.

Lemma update_by_id_commutes (target : number) (h : Initiative → Initiative)
    (l : list Initiative) (manDays timelineWeeks : number) :
  metadata_only h →
  schedule (App.update_by_id target h l) manDays timelineWeeks
  = map_outcome (edit_plan (App.update_by_id target h))
      (schedule l manDays timelineWeeks).
Proof.
  intros Hh. apply (update_by_id_metadata target) in Hh.
  unfold App.update_by_id, schedule. by rewrite schedule_fuel_map.
Qed.

Lemma edit_plan_id (o : outcome Plan) :
  o = map_outcome (edit_plan (λ prev, prev)) o.
Proof.
  destruct o as [[bw bl]| |]; cbn [map_outcome]; [|done..].
  unfold edit_plan. cbn [byWeek backlog]. f_equal. f_equal.
  symmetry. apply map_fmap_id.
Qed.

(** X11.  Editing the title of an initiative, or adding or removing one
    of its task or team dependencies, commutes with the engine: the
    outcome for the edited list is the outcome for the list as it was with
    the same edit applied to each week and to the backlog.  No fragment
    moves and no effort changes. *)
Theorem edits_commute_with_planning (target : number) (l : list Initiative)
    (manDays timelineWeeks : number) :
  let commutes (op : list Initiative → list Initiative) :=
    schedule (op l) manDays timelineWeeks
    = map_outcome (edit_plan op) (schedule l manDays timelineWeeks) in
  (∀ v, commutes (App.setTitle target v))
  ∧ (∀ val, commutes (App.addTaskDependency target val))
  ∧ (∀ val, commutes (App.addTeamDependency target val))
  ∧ (∀ d, commutes (App.removeTaskDependency target d))
  ∧ (∀ d, commutes (App.removeTeamDependency target d)).
Proof.
  intros commutes. unfold commutes.
  split; [|split; [|split; [|split]]].
  - intros v. by apply update_by_id_commutes.
  - intros val. unfold App.addTaskDependency.
    destruct (bool_decide (val = "")); [apply edit_plan_id|].
    by apply update_by_id_commutes.
  - intros val. unfold App.addTeamDependency.
    destruct (bool_decide (val = "")); [apply edit_plan_id|].
    by apply update_by_id_commutes.
  - intros d. by apply update_by_id_commutes.
  - intros d. by apply update_by_id_commutes.
Qed.

Lemma setEffort_ordered (target v : number) (l : list Initiative) :
  Forall ordered_fields l → Forall ordered_fields (App.setEffort target v l).
Proof.
  intros Hl. unfold App.setEffort, App.update_by_id. apply Forall_fmap.
  eapply Forall_impl; [exact Hl|]. intros x Hx. cbn.
  by destruct (Num.eqb (id x) target).
Qed.

Lemma setEffort_idle_filter (target v : number) (l : list Initiative) :
  Num.gtb v Num.zero = false →
  filter (λ i, Num.gtb (effortManDays i) Num.zero = true)
    (App.setEffort target v l)
  = filter (λ i, Num.gtb (effortManDays i) Num.zero = true)
      (filter (λ i, Num.eqb (id i) target = false) l).
Proof.
  intros Hv. unfold App.setEffort, App.update_by_id.
  induction l as [|x l IH]; [done|]. cbn [fmap list_fmap].
  destruct (Num.eqb (id x) target) eqn:Hid.
  - rewrite filter_cons_False by (cbn [App.with_effort effortManDays]; by rewrite Hv).
    rewrite (filter_cons_False _ x l) by (by rewrite Hid). apply IH.
  - rewrite (filter_cons_True (λ i, Num.eqb (id i) target = false)) by done.
    rewrite !(filter_cons (λ i, Num.gtb (effortManDays i) Num.zero = true)).
    by rewrite IH.
Qed.

(** X12.  The initiatives having a [week] and an [id] other than [NaN]:
    once the effort field of an initiative is set to 0, to a negative
    number or to [NaN], the outcome is the one for the list without the
    initiatives of that [id], and a plan then has no fragment and no
    backlog entry with that [id]. *)
Theorem zero_effort_hides (target v : number) (l : list Initiative)
    (manDays timelineWeeks : number) :
  Forall ordered_fields l → Num.gtb v Num.zero = false →
  schedule (App.setEffort target v l) manDays timelineWeeks
  = schedule (filter (λ i, Num.eqb (id i) target = false) l)
      manDays timelineWeeks
  ∧ ∀ out, schedule (App.setEffort target v l) manDays timelineWeeks = Done out →
      (∀ k frs f, byWeek out !! k = Some frs → f ∈ frs →
         Num.eqb (id f) target = false)
      ∧ (∀ b, b ∈ backlog out → Num.eqb (id b) target = false).
Proof.
  intros Hl Hv.
  set (rest := filter (λ i, Num.eqb (id i) target = false) l).
  assert (schedule (App.setEffort target v l) manDays timelineWeeks
          = schedule rest manDays timelineWeeks) as Heq.
  { unfold schedule, schedule_fuel.
    set (pos := λ i : Initiative, Num.gtb (effortManDays i) Num.zero = true).
    rewrite <- (schedule_items_filter _ _ _ (sort (App.setEffort target v l))).
    rewrite <- (schedule_items_filter _ _ _ (sort rest)).
    fold pos. rewrite <- !(sort_filter pos).
    - unfold pos, rest. by rewrite setEffort_idle_filter.
    - apply Forall_forall. intros x [_ Hx]%list_elem_of_filter.
      rewrite Forall_forall in Hl. by apply Hl.
    - by apply setEffort_ordered. }
  split; [done|]. intros out Hrun. rewrite Heq in Hrun.
  apply schedule_Done in Hrun. split.
  - intros k frs f Hk Hin.
    apply (schedule_items_sourced rest) in Hrun;
      [| by intros x; rewrite sort_perm | apply init_sourced].
    destruct (Hrun k frs f Hk Hin) as (item & e & Hitem & -> & _).
    by apply list_elem_of_filter in Hitem as [Hid _].
  - intros b Hb.
    apply schedule_items_extends in Hrun as (_ & added & Hadd & Hsub).
    cbn [snd] in Hadd. rewrite app_nil_l in Hadd. subst added.
    apply (elem_of_sublist _ _ _ Hb) in Hsub. rewrite sort_perm in Hsub.
    by apply list_elem_of_filter in Hsub as [Hid _].
Qed.

Lemma zero_effort_hides_witness :
  let A := mkInitiative (Num.of_Z 1) "A" (Num.of_Z 7) (Num.of_Z 1) "" [] [] in
  let B := mkInitiative (Num.of_Z 2) "B" (Num.of_Z 4) (Num.of_Z 1) "" [] [] in
  App.setEffort (Num.of_Z 1) (Num.of_Z 0) [A; B]
  = [mkInitiative (Num.of_Z 1) "A" (Num.of_Z 0) (Num.of_Z 1) "" [] []; B]
  ∧ schedule (App.setEffort (Num.of_Z 1) (Num.of_Z 0) [A; B])
      (Num.of_Z 10) (Num.of_Z 2)
    = schedule (filter (λ i, Num.eqb (id i) (Num.of_Z 1) = false) [A; B])
        (Num.of_Z 10) (Num.of_Z 2).
Proof.
  intros A B. split; [vm_compute; reflexivity|].
  apply (zero_effort_hides (Num.of_Z 1) (Num.of_Z 0) [A; B]).
  - repeat constructor.
  - vm_compute; reflexivity.
Defined.

(** ** Removing an objective *)

(** X13.  Once the cross next to an objective was clicked, a plan made
    from the state has no fragment and no backlog entry whose [okr] is the
    text of that objective.  Initiatives are matched by that text and
    objectives by [id]: another objective stays in the list, also when it
    has the same text. *)
Theorem removed_objective_leaves_plan (o : Okr.t) (s : App.state)
    (manDays timelineWeeks : number) (out : Plan) :
  schedule (App.initiatives (App.removeOkr o s)) manDays timelineWeeks
  = Done out →
  (∀ k frs f, byWeek out !! k = Some frs → f ∈ frs → okr f ≠ Okr.text o)
  ∧ (∀ b, b ∈ backlog out → okr b ≠ Okr.text o)
  ∧ (∀ x, x ∈ App.okrs s → Num.eqb (Okr.id x) (Okr.id o) = false →
          x ∈ App.okrs (App.removeOkr o s)).
Proof.
  intros Hrun. cbn [App.removeOkr App.initiatives App.okrs] in *.
  set (rest := filter (λ i, okr i ≠ Okr.text o) (App.initiatives s)) in *.
  apply schedule_Done in Hrun. split; [|split].
  - intros k frs f Hk Hin.
    apply (schedule_items_sourced rest) in Hrun;
      [| by intros x; rewrite sort_perm | apply init_sourced].
    destruct (Hrun k frs f Hk Hin) as (item & e & Hitem & -> & _).
    by apply list_elem_of_filter in Hitem as [Hne _].
  - intros b Hb.
    apply schedule_items_extends in Hrun as (_ & added & Hadd & Hsub).
    cbn [snd] in Hadd. rewrite app_nil_l in Hadd. subst added.
    apply (elem_of_sublist _ _ _ Hb) in Hsub. rewrite sort_perm in Hsub.
    by apply list_elem_of_filter in Hsub as [Hne _].
  - intros x Hx Hid. by apply list_elem_of_filter.
Qed.

Lemma removed_objective_leaves_plan_witness :
  let A := mkInitiative (Num.of_Z 1) "A" (Num.of_Z 3) (Num.of_Z 1) "grow" [] [] in
  let B := mkInitiative (Num.of_Z 2) "B" (Num.of_Z 4) (Num.of_Z 1) "keep" [] [] in
  let o := Okr.mk (Num.of_Z 1) "grow" in
  let s := App.mkState [A; B] [o; Okr.mk (Num.of_Z 2) "keep"] "" false false None in
  let out := mkPlan {[ 1 := [fragment B (Num.of_Z 4) (Num.of_Z 1)]; 2 := [] ]} [] in
  schedule (App.initiatives (App.removeOkr o s)) (Num.of_Z 10) (Num.of_Z 2)
  = Done out
  ∧ ∀ k frs f, byWeek out !! k = Some frs → f ∈ frs → okr f ≠ Okr.text o.
Proof.
  intros A B o s out.
  assert (schedule (App.initiatives (App.removeOkr o s)) (Num.of_Z 10)
            (Num.of_Z 2) = Done out) as Hrun by (vm_compute; reflexivity).
  split; [exact Hrun|].
  apply (removed_objective_leaves_plan o s _ _ out Hrun).
Defined.

(** ** Dependencies of an initiative *)

Lemma uniq_from (acc l : list string) :
  NoDup acc →
  let r := foldl (λ acc x, if bool_decide (x ∈ acc) then acc else acc ++ [x])
             acc l in
  NoDup r ∧ (∀ x, x ∈ r ↔ x ∈ acc ∨ x ∈ l)
  ∧ (NoDup (acc ++ l) → r = acc ++ l).
Proof.
  revert acc. induction l as [|y l IH]; intros acc Hacc; cbn [foldl].
  - split; [done|]. split; [|by rewrite app_nil_r].
    intros x. split; [by left|]. intros [?|H]; [done|].
    by apply elem_of_nil in H.
  - case_bool_decide as Hy.
    + destruct (IH acc Hacc) as (Hnd & Hin & _). split; [done|]. split.
      * intros x. rewrite Hin, elem_of_cons. split; [tauto|].
        intros [?|[->|?]]; tauto.
      * intros Hfresh. exfalso. apply NoDup_app in Hfresh as (_ & Hfresh & _).
        apply (Hfresh y Hy), list_elem_of_here.
    + assert (NoDup (acc ++ [y])) as Hacc'.
      { apply NoDup_app. split; [done|]. split; [|apply NoDup_singleton].
        intros x Hx Hx'. apply list_elem_of_singleton in Hx' as ->. done. }
      destruct (IH (acc ++ [y]) Hacc') as (Hnd & Hin & Heq).
      split; [done|]. split.
      * intros x. rewrite Hin, elem_of_app, list_elem_of_singleton, elem_of_cons.
        tauto.
      * intros Hfresh. rewrite <- app_assoc in Heq. cbn [app] in Heq.
        by apply Heq.
Qed.

Lemma uniq_spec (l : list string) :
  NoDup (App.uniq l) ∧ (∀ x, x ∈ App.uniq l ↔ x ∈ l)
  ∧ (NoDup l → App.uniq l = l).
Proof.
  destruct (uniq_from [] l) as (Hnd & Hin & Heq); [constructor|].
  split; [done|]. split; [|done].
  intros x. rewrite Hin. split; [|by right].
  intros [H|?]; [by apply elem_of_nil in H|done].
Qed.

Lemma update_by_id_elem (target : number) (h : Initiative → Initiative)
    (prev : list Initiative) (x' : Initiative) :
  x' ∈ App.update_by_id target h prev →
  ∃ x, x ∈ prev
       ∧ x' = if Num.eqb (id x) target then h x else x.
Proof.
  unfold App.update_by_id. intros (x & -> & Hx)%list_elem_of_fmap. by exists x.
Qed.

(** X14.  After a dependency [val] (not empty) was entered for the
    initiatives of an [id], each entry of the list comes from an entry of
    the list before: an entry of another [id] is unchanged, and one of
    that [id] differs in the dependency list only, which now has no
    duplicate and holds [val] and what it held before, nothing else.  The
    same for team dependencies.  An empty [val] changes nothing. *)
Theorem dependency_added_once (target : number) (val : string)
    (prev : list Initiative) :
  val ≠ "" →
  (∀ x', x' ∈ App.addTaskDependency target val prev →
     ∃ x, x ∈ prev ∧
       if Num.eqb (id x) target
       then x' = App.with_task (taskDependencies x') x
            ∧ NoDup (taskDependencies x')
            ∧ ∀ d, d ∈ taskDependencies x' ↔ d ∈ taskDependencies x ∨ d = val
       else x' = x)
  ∧ (∀ x', x' ∈ App.addTeamDependency target val prev →
       ∃ x, x ∈ prev ∧
         if Num.eqb (id x) target
         then x' = App.with_team (teamDependencies x') x
              ∧ NoDup (teamDependencies x')
              ∧ ∀ d, d ∈ teamDependencies x' ↔ d ∈ teamDependencies x ∨ d = val
         else x' = x)
  ∧ App.addTaskDependency target "" prev = prev
  ∧ App.addTeamDependency target "" prev = prev.
Proof.
  intros Hval. unfold App.addTaskDependency, App.addTeamDependency.
  rewrite !(bool_decide_eq_false_2 (val = "")) by done.
  split; [|split; [|done]].
  - intros x' (x & Hx & ->)%update_by_id_elem. exists x. split; [done|].
    destruct (Num.eqb (id x) target); [|done].
    cbn [App.with_task taskDependencies].
    destruct (uniq_spec (taskDependencies x ++ [val])) as (Hnd & Hin & _).
    split; [done|]. split; [done|]. intros d.
    by rewrite Hin, elem_of_app, list_elem_of_singleton.
  - intros x' (x & Hx & ->)%update_by_id_elem. exists x. split; [done|].
    destruct (Num.eqb (id x) target); [|done].
    cbn [App.with_team teamDependencies].
    destruct (uniq_spec (teamDependencies x ++ [val])) as (Hnd & Hin & _).
    split; [done|]. split; [done|]. intros d.
    by rewrite Hin, elem_of_app, list_elem_of_singleton.
Qed.

Lemma dependency_added_once_witness :
  let A := mkInitiative (Num.of_Z 1) "A" (Num.of_Z 3) (Num.of_Z 1) "" ["api"; "api"] [] in
  App.addTaskDependency (Num.of_Z 1) "db" [A]
  = [App.with_task ["api"; "db"] A]
  ∧ App.addTaskDependency (Num.of_Z 1) "" [A] = [A].
Proof.
  intros A. split; [vm_compute; reflexivity|].
  apply (dependency_added_once (Num.of_Z 1) "db" [A]). discriminate.
Defined.

Lemma filter_all {A : Type} (P : A → Prop) `{∀ x, Decision (P x)} (l : list A) :
  Forall P l → filter P l = l.
Proof.
  induction 1 as [|x l Hx _ IH]; [done|].
  rewrite filter_cons_True by done. by rewrite IH.
Qed.

Lemma remove_added (deps : list string) (val : string) :
  NoDup deps → val ∉ deps →
  filter (λ dep, dep ≠ val) (App.uniq (deps ++ [val])) = deps.
Proof.
  intros Hnd Hval. destruct (uniq_spec (deps ++ [val])) as (_ & _ & ->).
  - rewrite filter_app, filter_cons_False, filter_nil, app_nil_r by (by intros ?).
    apply filter_all, Forall_forall. by intros d Hd ->.
  - apply NoDup_app. split; [done|]. split; [|apply NoDup_singleton].
    by intros d Hd ->%list_elem_of_singleton.
Qed.

(** X15.  Entering a dependency and then clicking its cross gives back
    the list as it was, for initiatives whose dependency lists have no
    duplicate and did not hold the dependency; task and team dependencies
    alike. *)
Theorem remove_undoes_add (target : number) (val : string)
    (prev : list Initiative) :
  val ≠ "" →
  ((∀ x, x ∈ prev → Num.eqb (id x) target = true →
      NoDup (taskDependencies x) ∧ val ∉ taskDependencies x) →
   App.removeTaskDependency target val (App.addTaskDependency target val prev)
   = prev)
  ∧ ((∀ x, x ∈ prev → Num.eqb (id x) target = true →
        NoDup (teamDependencies x) ∧ val ∉ teamDependencies x) →
     App.removeTeamDependency target val (App.addTeamDependency target val prev)
     = prev).
Proof.
  intros Hval.
  unfold App.removeTaskDependency, App.addTaskDependency,
    App.removeTeamDependency, App.addTeamDependency, App.update_by_id.
  rewrite !(bool_decide_eq_false_2 (val = "")) by done.
  split; intros Hfresh; rewrite <- list_fmap_compose;
    rewrite <- (list_fmap_id prev) at 2; apply list_fmap_ext;
    intros i x Hx%list_elem_of_lookup_2; cbn [compose];
    destruct (Num.eqb (id x) target) eqn:Hid; cbn [id App.with_task App.with_team];
    rewrite Hid; try done;
    destruct (Hfresh x Hx Hid) as [Hnd Hnew];
    cbn [taskDependencies teamDependencies App.with_task App.with_team];
    rewrite remove_added by done; by destruct x.
Qed.

Lemma remove_undoes_add_witness :
  let A := mkInitiative (Num.of_Z 1) "A" (Num.of_Z 3) (Num.of_Z 1) "" ["api"] [] in
  let B := mkInitiative (Num.of_Z 2) "B" (Num.of_Z 3) (Num.of_Z 1) "" [] ["ops"] in
  App.removeTaskDependency (Num.of_Z 1) "db"
    (App.addTaskDependency (Num.of_Z 1) "db" [A; B])
  = [A; B].
Proof.
  intros A B.
  refine (proj1 (remove_undoes_add (Num.of_Z 1) "db" [A; B] _) _);
    [discriminate|].
  intros x Hx Hid. apply elem_of_cons in Hx as [->|Hx].
  - split; [apply (bool_decide_unpack _); vm_compute; exact I|].
    intros Hin. apply list_elem_of_singleton in Hin. discriminate.
  - apply list_elem_of_singleton in Hx as ->. vm_compute in Hid. discriminate.
Defined.

(** * Further properties of the normalisers *)

(** ** Entries that can and cannot be read *)

(** [v || d] converts when [v] does: a falsy [v] is a primitive. *)
Lemma converts_or_value (v d : jsval) :
  Js.converts d = true → Js.converts (or_value v d) = Js.converts v.
Proof.
  intros Hd. unfold or_value. destruct (Js.truthy v) eqn:Hv; [done|].
  rewrite Hd. by destruct v.
Qed.

Lemma readable_object (fields : list (string * jsval)) :
  readable (JObj fields)
  ↔ Js.converts (Js.assoc "title" fields) = true
    ∧ Js.converts (Js.assoc "effortManDays" fields) = true
    ∧ Js.converts (Js.assoc "week" fields) = true
    ∧ Js.converts (Js.assoc "okr" fields) = true.
Proof.
  unfold readable. cbn [Js.get]. split.
  - intros (_ & _ & H). repeat split; eapply H; try reflexivity;
      repeat first [apply list_elem_of_here | apply list_elem_of_further].
  - intros (H1 & H2 & H3 & H4). split; [done|]. split; [done|].
    intros key v Hkey [= <-].
    repeat (apply elem_of_cons in Hkey as [->|Hkey]; [done|]).
    by apply elem_of_nil in Hkey.
Qed.

Lemma normalise_entry_cases (rt : runtime) (i : jsval) (idx : nat) :
  (readable i ∧ ∃ x, normalise_entry rt i idx = Ok x)
  ∨ (¬ readable i ∧ normalise_entry rt i idx = Raise TypeError).
Proof.
  destruct i as [| |b|n|s|items|fields];
    try (right; split; [by intros (? & ? & _)|done]);
    try (left; split; [by repeat split; try intros ? ? _ [= <-]|by eexists]).
  rewrite readable_object.
  unfold normalise_entry, String_, to_number, mbind, result_bind.
  cbn [Js.get]. rewrite !converts_or_value by done.
  destruct (Js.converts (Js.assoc "title" fields));
    [|right; split; [by intros (? & _)|done]].
  destruct (Js.converts (Js.assoc "effortManDays" fields));
    [|right; split; [by intros (_ & ? & _)|done]].
  destruct (Js.converts (Js.assoc "week" fields));
    [|right; split; [by intros (_ & _ & ? & _)|done]].
  destruct (Js.converts (Js.assoc "okr" fields));
    [|right; split; [by intros (_ & _ & _ & ?)|done]].
  left. split; [done|]. by eexists.
Qed.

Lemma normalize_entry_cases (rt : runtime) (i : jsval) (idx : nat) :
  (readable i ∧ ∃ x, normalize_entry rt i idx = Ok x)
  ∨ (¬ readable i ∧ normalize_entry rt i idx = Raise TypeError).
Proof.
  destruct i as [| |b|n|s|items|fields];
    try (right; split; [by intros (? & ? & _)|done]);
    try (left; split; [by repeat split; try intros ? ? _ [= <-]|by eexists]).
  rewrite readable_object.
  unfold normalize_entry, String_, to_number, mbind, result_bind.
  cbn [Js.get]. rewrite !converts_or_value by done.
  destruct (Js.converts (Js.assoc "title" fields));
    [|right; split; [by intros (? & _)|done]].
  destruct (Js.converts (Js.assoc "effortManDays" fields));
    [|right; split; [by intros (_ & ? & _)|done]].
  destruct (Js.converts (Js.assoc "week" fields));
    [|right; split; [by intros (_ & _ & ? & _)|done]].
  destruct (Js.converts (Js.assoc "okr" fields));
    [|right; split; [by intros (_ & _ & _ & ?)|done]].
  left. split; [done|]. by eexists.
Qed.

(** [map] over the entries: a list of the same length when every entry
    can be read, a [TypeError] when one cannot. *)
Lemma map_entries_cases (f : jsval → nat → result Initiative)
    (items : list jsval) (idx : nat) :
  (∀ i n, (readable i ∧ ∃ x, f i n = Ok x)
          ∨ (¬ readable i ∧ f i n = Raise TypeError)) →
  (Forall readable items
   ∧ ∃ l, map_entries f items idx = Ok l ∧ length l = length items)
  ∨ (¬ Forall readable items ∧ map_entries f items idx = Raise TypeError).
Proof.
  intros Hf. revert idx. induction items as [|i items IH]; intros idx;
    cbn [map_entries].
  { left. split; [constructor|]. by exists []. }
  unfold mbind, result_bind.
  destruct (Hf i idx) as [[Hi [x ->]]|[Hi ->]].
  - destruct (IH (S idx)) as [[Hall (l & -> & Hlen)]|[Hall ->]].
    + left. split; [by constructor|]. exists (x :: l). split; [done|].
      cbn [length]. by rewrite Hlen.
    + right. split; [|done]. intros H. apply Hall. by inv H.
  - right. split; [|done]. intros H. apply Hi. by inv H.
Qed.

(** X16.  On an array, each normaliser returns a list with one initiative
    per entry, in particular of the same length, when every entry can be
    taken: it is not [null] or [undefined], and its [title],
    [effortManDays], [week] and [okr] convert (none is an object with a
    [toString] of its own, or an array holding one).  When an entry
    cannot be taken, each normaliser raises a [TypeError] and returns
    nothing. *)
Theorem normalisers_on_arrays (rt : runtime) (items : list jsval) :
  (Forall readable items →
   ∃ l l', normaliseInitiatives rt (JArr items) = Ok l
           ∧ normalizeInitiatives rt (JArr items) = Ok l'
           ∧ length l = length items ∧ length l' = length items)
  ∧ (¬ Forall readable items →
     normaliseInitiatives rt (JArr items) = Raise TypeError
     ∧ normalizeInitiatives rt (JArr items) = Raise TypeError).
Proof.
  unfold normaliseInitiatives, normalizeInitiatives, or_value.
  cbn [Js.truthy].
  pose proof (map_entries_cases (normalise_entry rt) items 0
                (normalise_entry_cases rt)) as Hfront.
  pose proof (map_entries_cases (normalize_entry rt) items 0
                (normalize_entry_cases rt)) as Hback.
  split; intros Hall.
  - destruct Hfront as [[_ (l & Hl & Hlen)]|[Hno _]]; [|done].
    destruct Hback as [[_ (l' & Hl' & Hlen')]|[Hno _]]; [|done].
    by exists l, l'.
  - destruct Hfront as [[Hyes _]|[_ Hl]]; [done|].
    by destruct Hback as [[Hyes _]|[_ Hl']].
Qed.

(** X17.  On a value that is not an array: the front end's normaliser
    returns the empty list when the value is falsy ([undefined], [null],
    [false], 0, [NaN], the empty string) and raises a [TypeError] when it
    is truthy; the back end's returns the empty list for [undefined] only
    and raises a [TypeError] for every other value, [null] included. *)
Theorem normalisers_off_arrays (rt : runtime) (raw : jsval) :
  (∀ items, raw ≠ JArr items) →
  normaliseInitiatives rt raw
  = (if Js.truthy raw then Raise TypeError else Ok [])
  ∧ normalizeInitiatives rt raw
    = match raw with JUndefined => Ok [] | _ => Raise TypeError end.
Proof.
  intros Hraw. unfold normaliseInitiatives, normalizeInitiatives, or_value.
  destruct raw as [| |b|n|s|items|fields]; cbn [Js.truthy]; try done.
  - by destruct b.
  - by destruct (Num.truthy n).
  - by destruct (negb (bool_decide (s = ""))).
  - by destruct (Hraw items).
Qed.

Lemma normalisers_off_arrays_witness :
  normaliseInitiatives Sample.rt JNull = Ok []
  ∧ normalizeInitiatives Sample.rt JNull = Raise TypeError.
Proof.
  apply (normalisers_off_arrays Sample.rt JNull). discriminate.
Defined.

(** ** What the front end lets into the state *)

Lemma map_entries_Forall (P : Initiative → Prop)
    (f : jsval → nat → result Initiative) (items : list jsval) (idx : nat)
    (l : list Initiative) :
  (∀ i n x, f i n = Ok x → P x) →
  map_entries f items idx = Ok l → Forall P l.
Proof.
  intros Hf. revert idx l. induction items as [|i items IH]; intros idx l;
    cbn [map_entries].
  { by intros [= <-]. }
  unfold mbind, result_bind. destruct (f i idx) as [x|] eqn:Hx; [|done].
  destruct (map_entries f items (S idx)) as [xs|] eqn:Hxs; [|done].
  intros [= <-]. constructor; [by eapply Hf|by eapply IH].
Qed.

Lemma normalise_entry_week (rt : runtime) (i : jsval) (idx : nat)
    (item : Initiative) :
  normalise_entry rt i idx = Ok item →
  ∃ v, Js.get i "week" = Ok v
       ∧ week item = Num.or_else (number_of rt v) Num.one.
Proof.
  intros (v_id & v_title & v_effort & v_week & v_okr & v_task & v_team
          & (_ & _ & _ & Hget & _) & _ & ->)%normalise_entry_Ok.
  by exists v_week.
Qed.

Lemma or_else_not_NaN (x y : number) :
  Num.isNaN y = false → Num.isNaN (Num.or_else x y) = false.
Proof.
  intros Hy. unfold Num.or_else.
  destruct (Num.truthy x) eqn:Hx; [by destruct x|done].
Qed.

Lemma or_else_truthy (x y : number) :
  Num.truthy y = true → Num.truthy (Num.or_else x y) = true.
Proof. intros Hy. unfold Num.or_else. by destruct (Num.truthy x) eqn:Hx. Qed.

Lemma round_not_NaN (x : number) :
  Num.isNaN x = false → Num.isNaN (Num.round x) = false.
Proof. by destruct x. Qed.

Lemma normalised_list (rt : runtime) (raw : jsval) (l : list Initiative) :
  normaliseInitiatives rt raw = Ok l →
  ∃ items, map_entries (normalise_entry rt) items 0 = Ok l.
Proof.
  unfold normaliseInitiatives. destruct (or_value raw (JArr [])); try done.
  intros H. by eexists.
Qed.

(** X18.  Every initiative the front end's normaliser returns has a
    [week] that is neither [NaN] nor 0 and an [effortManDays] that is not
    [NaN] and, when finite, is a whole number.  When the clock gives
    finite numbers it also has a finite [id], so the list can be ordered
    by [week] and [id]. *)
Theorem normalised_state (rt : runtime) (raw : jsval) (l : list Initiative) :
  normaliseInitiatives rt raw = Ok l →
  Forall (λ i, Num.isNaN (week i) = false ∧ Num.truthy (week i) = true
               ∧ Num.isNaN (effortManDays i) = false
               ∧ (Num.isFinite (effortManDays i) = true →
                  Num.is_integer (effortManDays i) = true)) l
  ∧ ((∀ idx, Num.isFinite (now rt idx) = true) →
     Forall (λ i, Num.isFinite (id i) = true) l ∧ Forall ordered_fields l).
Proof.
  intros [items Hl]%normalised_list. split; [|intros Hnow; split].
  - revert Hl. apply map_entries_Forall. intros i n x Hx.
    destruct (normalise_entry_week rt i n x Hx) as (vw & _ & Hw).
    destruct (normalise_entry_effort rt i n x Hx) as (ve & _ & He).
    rewrite Hw, He.
    split; [by apply or_else_not_NaN|]. split; [by apply or_else_truthy|].
    split; [by apply round_not_NaN, or_else_not_NaN|].
    intros Hfin. apply round_integer.
    by destruct (Num.or_else (number_of rt ve) Num.zero).
  - revert Hl. apply map_entries_Forall. intros i n x Hx.
    by destruct (normalised_fields rt i n x (Hnow n) Hx).
  - revert Hl. apply map_entries_Forall. intros i n x Hx.
    by apply (normalised_ordered rt i n).
Qed.

Lemma normalised_state_witness :
  let raw := JArr [JObj [("id", JNum (Num.of_Z 7)); ("title", JStr "A");
                         ("effortManDays", JNum (Fin (Q2Qc (5 # 2))));
                         ("week", JNum (Num.of_Z 0))]] in
  let item := mkInitiative (Num.of_Z 7) "A" (Num.of_Z 3) (Num.of_Z 1)
                "Unassigned" [] [] in
  normaliseInitiatives Sample.rt raw = Ok [item]
  ∧ Forall (λ i, Num.isNaN (week i) = false ∧ Num.truthy (week i) = true
                 ∧ Num.isNaN (effortManDays i) = false
                 ∧ (Num.isFinite (effortManDays i) = true →
                    Num.is_integer (effortManDays i) = true)) [item].
Proof.
  intros raw item.
  assert (normaliseInitiatives Sample.rt raw = Ok [item]) as Hrun
    by (vm_compute; reflexivity).
  split; [exact Hrun|].
  apply (normalised_state Sample.rt raw [item] Hrun).
Defined.

(** ** Through the wire and back *)

Lemma floor_unique (x : Q) (z : Z) :
  (inject_Z z <= x)%Q → (x < inject_Z (z + 1))%Q → Qfloor x = z.
Proof.
  intros H1 H2. pose proof (Qfloor_le x) as H3. pose proof (Qlt_floor x) as H4.
  assert (inject_Z (Qfloor x) < inject_Z (z + 1))%Q as H5 by lra.
  assert (inject_Z z < inject_Z (Qfloor x + 1))%Q as H6 by lra.
  rewrite <- Zlt_Qlt in H5, H6. lia.
Qed.

Lemma round_of_Z (z : Z) : Num.round (Num.of_Z z) = Num.of_Z z.
Proof.
  unfold Num.round, Num.of_Z. do 3 f_equal.
  apply floor_unique; unfold Qcplus, Q2Qc; cbn [this]; rewrite !Qred_correct.
  - lra.
  - rewrite inject_Z_plus. change (inject_Z 1) with 1%Q. lra.
Qed.

(** [Math.round] leaves a whole number as it is. *)
Lemma round_whole (x : number) : Num.is_integer x = true → Num.round x = x.
Proof.
  unfold Num.is_integer. destruct (Num.to_Z x) as [z|] eqn:Hz; [|done].
  intros _. apply NumFacts.to_Z_Some in Hz as ->. apply round_of_Z.
Qed.

Lemma or_else_zero (x : number) :
  Num.isFinite x = true → Num.or_else x Num.zero = x.
Proof.
  destruct x as [q| | |]; try done. intros _. unfold Num.or_else, Num.truthy.
  case_bool_decide as Hq; cbn [negb]; [|done]. by subst q.
Qed.

Lemma wire_get (i : Initiative) :
  Js.get (wire i) "id" = Ok (wire_number (id i))
  ∧ Js.get (wire i) "title" = Ok (JStr (title i))
  ∧ Js.get (wire i) "effortManDays" = Ok (wire_number (effortManDays i))
  ∧ Js.get (wire i) "week" = Ok (wire_number (week i))
  ∧ Js.get (wire i) "okr" = Ok (JStr (okr i))
  ∧ Js.get (wire i) "taskDependencies" = Ok (JArr (JStr <$> taskDependencies i))
  ∧ Js.get (wire i) "teamDependencies" = Ok (JArr (JStr <$> teamDependencies i)).
Proof. repeat split. Qed.

Lemma dependencies_of_wire (rt : runtime) (deps : list string) :
  dependencies_of rt (JArr (JStr <$> deps)) = deps.
Proof.
  cbn [dependencies_of]. rewrite <- list_fmap_compose.
  rewrite <- (list_fmap_id deps) at 2. by apply list_fmap_ext.
Qed.

(** What a wire image holds converts. *)
Lemma String_text (rt : runtime) (t d : string) :
  String_ rt (or_value (JStr t) (JStr d))
  = Ok (string_of rt (or_value (JStr t) (JStr d))).
Proof. unfold String_, or_value. by destruct (Js.truthy (JStr t)). Qed.

Lemma to_number_wire (rt : runtime) (n : number) :
  to_number rt (wire_number n) = Ok (number_of rt (wire_number n)).
Proof. unfold to_number, wire_number. by destruct (Num.isFinite n). Qed.

Lemma wire_entry (rt : runtime) (i : Initiative) (idx : nat) :
  normal i →
  normalise_entry rt (wire i) idx = Ok i ∧ normalize_entry rt (wire i) idx = Ok i.
Proof.
  intros (Hid & Ht & He & Hw & Hwt & Ho).
  destruct (wire_get i) as (G1 & G2 & G3 & G4 & G5 & G6 & G7).
  assert (Num.isFinite (effortManDays i) = true) as Hfin.
  { unfold Num.is_integer in He. by destruct (effortManDays i). }
  unfold normalise_entry, normalize_entry, default_title.
  rewrite G1, G2, G3, G4, G5, G6, G7. unfold mbind, result_bind.
  rewrite !String_text, !to_number_wire.
  rewrite !dependencies_of_wire. unfold wire_number.
  rewrite Hid, Hfin, Hw. cbn [id_of number_of]. rewrite Hid.
  unfold or_value. cbn [Js.truthy].
  rewrite !bool_decide_eq_false_2 by done. cbn [negb string_of].
  rewrite or_else_zero by done. rewrite round_whole by done.
  unfold Num.or_else. rewrite Hwt. by destruct i.
Qed.

Lemma map_entries_wire (f : jsval → nat → result Initiative)
    (l : list Initiative) (idx : nat) :
  (∀ i n, i ∈ l → f (wire i) n = Ok i) →
  map_entries f (wire <$> l) idx = Ok l.
Proof.
  revert idx. induction l as [|i l IH]; intros idx Hf; [done|].
  cbn [fmap list_fmap map_entries]. unfold mbind, result_bind.
  rewrite Hf by apply list_elem_of_here.
  rewrite IH; [done|]. intros j n Hj. by apply Hf, list_elem_of_further.
Qed.

(** X19.  A list of initiatives each with a finite [id], a title and an
    objective that are not empty, a whole number of man-days and a finite
    week other than 0 comes back unchanged from either normaliser after it
    was written as JSON and read again: on such lists the two normalisers
    agree and change nothing. *)
Theorem normalisers_keep_normal (rt : runtime) (l : list Initiative) :
  Forall normal l →
  normaliseInitiatives rt (JArr (wire <$> l)) = Ok l
  ∧ normalizeInitiatives rt (JArr (wire <$> l)) = Ok l.
Proof.
  intros Hl. rewrite Forall_forall in Hl.
  unfold normaliseInitiatives, normalizeInitiatives, or_value.
  cbn [Js.truthy].
  split; apply map_entries_wire; intros i n Hi;
    by destruct (wire_entry rt i n (Hl i Hi)).
Qed.

Lemma normalisers_keep_normal_witness :
  let A := mkInitiative (Num.of_Z 1) "A" (Num.of_Z 7) (Num.of_Z 1) "grow"
             ["api"] [] in
  normaliseInitiatives Sample.rt (JArr (wire <$> [A])) = Ok [A]
  ∧ normalizeInitiatives Sample.rt (JArr (wire <$> [A])) = Ok [A].
Proof.
  intros A. apply (normalisers_keep_normal Sample.rt [A]).
  repeat constructor; try discriminate; vm_compute; reflexivity.
Defined.

Lemma wire_entry_any (rt : runtime) (a : Initiative) (idx : nat) :
  ∃ b, normalise_entry rt (wire a) idx = Ok b
       ∧ effortManDays b
         = (if Num.isFinite (effortManDays a)
            then Num.round (effortManDays a) else Num.zero)
       ∧ week b
         = (if Num.isFinite (week a) && Num.truthy (week a)
            then week a else Num.one)
       ∧ (Num.isFinite (id a) = true → id b = id a)
       ∧ taskDependencies b = taskDependencies a
       ∧ teamDependencies b = teamDependencies a.
Proof.
  destruct (wire_get a) as (G1 & G2 & G3 & G4 & G5 & G6 & G7).
  unfold normalise_entry, default_title. rewrite G1, G2, G3, G4, G5, G6, G7.
  unfold mbind, result_bind. rewrite !String_text, !to_number_wire.
  eexists. split; [reflexivity|].
  cbn [id effortManDays week taskDependencies teamDependencies].
  rewrite !dependencies_of_wire. unfold wire_number.
  split; [|split; [|split; [|done]]].
  - destruct (Num.isFinite (effortManDays a)) eqn:Hfin; cbn [number_of].
    + by rewrite or_else_zero.
    + apply (round_of_Z 0).
  - destruct (Num.isFinite (week a)) eqn:Hfin; cbn [number_of andb]; [|done].
    unfold Num.or_else. by destruct (Num.truthy (week a)).
  - intros Hid. rewrite Hid. cbn [id_of]. by rewrite Hid.
Qed.

(** X20.  Whatever list of initiatives a handler replies with, written as
    JSON and read by the front end's normaliser, the normaliser returns a
    list of the same length and does not raise.  Each initiative it
    returns has a whole number of man-days (the effort sent, rounded, or 0
    when that was not finite) and a finite week other than 0 (the week
    sent, or 1), and keeps a finite [id] and the dependencies. *)
Theorem state_after_reply (rt : runtime) (l : list Initiative) :
  ∃ l', normaliseInitiatives rt (JArr (wire <$> l)) = Ok l'
    ∧ Forall2 (λ a b,
        effortManDays b
        = (if Num.isFinite (effortManDays a)
           then Num.round (effortManDays a) else Num.zero)
        ∧ Num.is_integer (effortManDays b) = true
        ∧ week b
          = (if Num.isFinite (week a) && Num.truthy (week a)
             then week a else Num.one)
        ∧ Num.isFinite (week b) = true ∧ Num.truthy (week b) = true
        ∧ (Num.isFinite (id a) = true → id b = id a)
        ∧ taskDependencies b = taskDependencies a
        ∧ teamDependencies b = teamDependencies a) l l'.
Proof.
  unfold normaliseInitiatives, or_value. cbn [Js.truthy].
  generalize 0%nat. induction l as [|a l IH]; intros idx.
  { exists []. by split; [|constructor]. }
  cbn [fmap list_fmap map_entries]. unfold mbind, result_bind.
  destruct (wire_entry_any rt a idx) as (b & -> & He & Hw & Hid & Htask & Hteam).
  destruct (IH (S idx)) as (l' & -> & Hall).
  exists (b :: l'). split; [done|]. constructor; [|done].
  split; [done|]. split; [|split; [done|split; [|split; [|done]]]].
  - rewrite He. destruct (Num.isFinite (effortManDays a)) eqn:Hfin;
      [by apply round_integer|done].
  - rewrite Hw. destruct (Num.isFinite (week a)) eqn:Hfin; cbn [andb]; [|done].
    by destruct (Num.truthy (week a)).
  - rewrite Hw. destruct (Num.isFinite (week a)); cbn [andb]; [|done].
    by destruct (Num.truthy (week a)) eqn:Ht.
Qed.

(** * Further properties of the handlers *)

(** ** What a handler makes of the producer's reply *)

Lemma after_producer_content (rt : runtime) (fallback : string)
    (raw content : jsval) :
  reply_content raw = Ok content →
  after_producer rt fallback (Ok raw)
  = Respond
      match (if Js.truthy content then
               parsed ← safeJsonParse rt content;
               listed ← Js.get parsed "initiatives";
               normalizeInitiatives rt listed
             else Raise (Error "Empty response from OpenAI")) with
      | Ok initiatives => ReplyInitiatives initiatives
      | Raise e => ReplyError 500 (message_or rt e fallback)
      end.
Proof.
  unfold reply_content, after_producer, mbind, result_bind.
  destruct (Js.get raw "choices") as [c|]; [|done].
  destruct (Js.get_first c) as [f|]; [|done].
  destruct (Js.get f "message") as [m|]; [|done]. by intros ->.
Qed.

(** X21.  Once a handler has read [raw.choices[0].message.content] from
    the producer's reply: a falsy content gives the status 500 with
    "Empty response from OpenAI"; a content that is not a string gives 500
    with the message of the [TypeError]; a string that does not parse gives
    500 with "LLM returned invalid JSON"; a string that parses gives what
    the back end's normaliser makes of the [initiatives] property of the
    parsed value, and so the empty list, with no error, when the parsed
    value has no such property. *)
Theorem producer_reply_outcomes (rt : runtime) (fallback : string)
    (raw content : jsval) :
  reply_content raw = Ok content →
  let answer := after_producer rt fallback (Ok raw) in
  (Js.truthy content = false →
   answer = Respond (ReplyError 500 "Empty response from OpenAI"))
  ∧ (Js.truthy content = true → (∀ t, content ≠ JStr t) →
     answer = Respond (ReplyError 500 (message_or rt TypeError fallback)))
  ∧ (∀ t, content = JStr t → t ≠ "" →
       JSON_parse rt (strip_fences rt t) = None →
       answer = Respond (ReplyError 500 "LLM returned invalid JSON"))
  ∧ (∀ t parsed listed, content = JStr t → t ≠ "" →
       JSON_parse rt (strip_fences rt t) = Some parsed →
       Js.get parsed "initiatives" = Ok listed →
       answer
       = Respond match normalizeInitiatives rt listed with
                 | Ok l => ReplyInitiatives l
                 | Raise e => ReplyError 500 (message_or rt e fallback)
                 end)
  ∧ (∀ t parsed, content = JStr t → t ≠ "" →
       JSON_parse rt (strip_fences rt t) = Some parsed →
       Js.get parsed "initiatives" = Ok JUndefined →
       answer = Respond (ReplyInitiatives [])).
Proof.
  intros Hc answer. unfold answer.
  rewrite (after_producer_content rt fallback raw content Hc).
  unfold mbind, result_bind.
  split; [by intros ->|]. split.
  { intros -> Hstr. destruct content; try done. by destruct (Hstr s). }
  assert (∀ t, t ≠ "" → Js.truthy (JStr t) = true) as Htruthy.
  { intros t Ht. cbn [Js.truthy]. by rewrite bool_decide_eq_false_2. }
  split; [|split].
  - intros t -> Ht Hparse. rewrite Htruthy by done.
    cbn [safeJsonParse]. by rewrite Hparse.
  - intros t parsed listed -> Ht Hparse Hget. rewrite Htruthy by done.
    cbn [safeJsonParse]. by rewrite Hparse, Hget.
  - intros t parsed -> Ht Hparse Hget. rewrite Htruthy by done.
    cbn [safeJsonParse]. by rewrite Hparse, Hget.
Qed.

Lemma producer_reply_outcomes_witness :
  let raw := JObj [("choices",
                    JArr [JObj [("message", JObj [("content", JStr "")])]])] in
  after_producer Sample.rt "Failed to generate roadmap" (Ok raw)
  = Respond (ReplyError 500 "Empty response from OpenAI").
Proof.
  intros raw.
  apply (producer_reply_outcomes Sample.rt "Failed to generate roadmap"
           raw (JStr "")); reflexivity.
Defined.

(** ** Error replies *)

Lemma message_or_nonempty (rt : runtime) (e : js_error) (fallback : string) :
  fallback ≠ "" → message_or rt e fallback ≠ "".
Proof. intros Hf. unfold message_or. by case_bool_decide. Qed.

(** X22.  Every error reply of the two handlers carries a message that
    is not empty, and a status that is 400 or 500: 400 comes with the
    message of the failed check only, and after the producer was called
    the status of an error is 500.  A handler never answers with a list of
    initiatives without having called the producer. *)
Theorem error_replies (rt : runtime) :
  (∀ fallback fetched status m, fallback ≠ "" →
     after_producer rt fallback fetched = Respond (ReplyError status m) →
     status = 500 ∧ m ≠ "")
  ∧ (∀ body status m,
       generate_roadmap rt body = Respond (ReplyError status m) →
       m ≠ "" ∧ ((status = 400 ∧ m = "At least one OKR is required")
                 ∨ status = 500))
  ∧ (∀ body status m,
       modify_roadmap rt body = Respond (ReplyError status m) →
       m ≠ "" ∧ ((status = 400 ∧ m = "Command is required") ∨ status = 500))
  ∧ (∀ body l, generate_roadmap rt body ≠ Respond (ReplyInitiatives l)
               ∧ modify_roadmap rt body ≠ Respond (ReplyInitiatives l)).
Proof.
  split; [|split; [|split]].
  - intros fallback fetched status m Hf H. unfold after_producer in H.
    injection H as H.
    match type of H with match ?x with _ => _ end = _ =>
      destruct x as [l|e] end; [done|].
    injection H as <- <-. split; [done|]. by apply message_or_nonempty.
  - intros body status m. unfold generate_roadmap.
    match goal with |- match ?x with _ => _ end = _ → _ =>
      destruct x as [[[okrs ctx] limits]|e] end.
    + destruct okrs as [| | | | |[|o os]|];
        try (intros [= <- <-]; split; [done|by left]).
      destruct (generate_prompt rt (o :: os) ctx limits); [done|].
      intros [= <- <-]. split; [by apply message_or_nonempty|by right].
    + intros [= <- <-]. split; [by apply message_or_nonempty|by right].
  - intros body status m. unfold modify_roadmap.
    match goal with |- match ?x with _ => _ end = _ → _ =>
      destruct x as [[[[command initiatives] ctx] limits]|e] end.
    + destruct (Js.truthy command).
      * destruct (modify_prompt rt command initiatives ctx limits); [done|].
        intros [= <- <-]. split; [by apply message_or_nonempty|by right].
      * intros [= <- <-]. split; [done|by left].
    + intros [= <- <-]. split; [by apply message_or_nonempty|by right].
  - intros body l. split.
    + unfold generate_roadmap.
      match goal with |- match ?x with _ => _ end ≠ _ =>
        destruct x as [[[okrs ctx] limits]|e] end; [|done].
      destruct okrs as [| | | | |[|o os]|]; try done.
      by destruct (generate_prompt rt (o :: os) ctx limits).
    + unfold modify_roadmap.
      match goal with |- match ?x with _ => _ end ≠ _ =>
        destruct x as [[[[command initiatives] ctx] limits]|e] end; [|done].
      destruct (Js.truthy command); [|done].
      by destruct (modify_prompt rt command initiatives ctx limits).
Qed.

(** * Further properties of the component *)

(** ** Requests to the back end *)

Lemma fetched_list_cases (rt : runtime) (fetched : result App.response) :
  (∃ l res data listed,
     (data ← App.safeFetch fetched; listed ← Js.get data "initiatives";
      normaliseInitiatives rt listed) = Ok l
     ∧ fetched = Ok res ∧ App.ok res = true ∧ App.json res = Ok data
     ∧ Js.get data "initiatives" = Ok listed
     ∧ normaliseInitiatives rt listed = Ok l)
  ∨ (∃ e, (data ← App.safeFetch fetched; listed ← Js.get data "initiatives";
           normaliseInitiatives rt listed) = Raise e
          ∧ ∀ res, fetched = Ok res → App.ok res = false →
                   e = Error (App.text res)).
Proof.
  unfold App.safeFetch, mbind, result_bind.
  destruct fetched as [res|e]; [|right; exists e; by split].
  destruct (App.ok res) eqn:Hok.
  - destruct (App.json res) as [data|e] eqn:Hjson;
      [|right; exists e; split; [done|intros ? [= <-] ?; congruence]].
    destruct (Js.get data "initiatives") as [listed|e] eqn:Hget;
      [|right; exists e; split; [done|intros ? [= <-] ?; congruence]].
    destruct (normaliseInitiatives rt listed) as [l|e] eqn:Hl;
      [|right; exists e; split; [done|intros ? [= <-] ?; congruence]].
    left. by exists l, res, data, listed.
  - right. eexists. split; [done|]. by intros ? [= <-] _.
Qed.

(** X23.  When a request to the back end fails (the call itself, a
    status that is not ok, a body that is not JSON, a body or a list that
    cannot be read), [generateRoadmap] and [applyAiInstruction] leave the
    initiatives as they were and set the error, which for a status that is
    not ok is the text of the response; [applyAiInstruction] also keeps
    the typed command.  When the error is cleared, the initiatives are what
    the front end's normaliser made of the [initiatives] property of the
    body, and the command is emptied.  In both cases the loading flag of
    the handler is off at the end. *)
Theorem request_outcomes (rt : runtime) (fetched : result App.response)
    (s : App.state) :
  let g := App.generateRoadmap rt fetched s in
  let a := App.applyAiInstruction rt fetched s in
  App.generateLoading g = false ∧ App.commandLoading a = false
  ∧ (∀ m, App.error g = Some m →
       App.initiatives g = App.initiatives s ∧ App.command g = App.command s)
  ∧ (∀ m, App.error a = Some m →
       App.initiatives a = App.initiatives s ∧ App.command a = App.command s)
  ∧ (∀ res, fetched = Ok res → App.ok res = false →
       App.error g = Some (App.text res) ∧ App.error a = Some (App.text res))
  ∧ (App.error g = None ∨ App.error a = None →
     ∃ res data listed,
       fetched = Ok res ∧ App.ok res = true ∧ App.json res = Ok data
       ∧ Js.get data "initiatives" = Ok listed
       ∧ normaliseInitiatives rt listed = Ok (App.initiatives g)
       ∧ App.initiatives a = App.initiatives g
       ∧ App.command a = "" ∧ App.command g = App.command s).
Proof.
  intros g a. unfold g, a, App.generateRoadmap, App.applyAiInstruction.
  destruct (fetched_list_cases rt fetched)
    as [(l & res & data & listed & -> & Hf & Hok & Hjson & Hget & Hl)
       |(e & -> & Hbad)]; cbn.
  - split; [done|]. split; [done|]. split; [done|]. split; [done|]. split.
    + intros res' Hres Hno. rewrite Hf in Hres. injection Hres as <-.
      by rewrite Hok in Hno.
    + intros _. by exists res, data, listed.
  - split; [done|]. split; [done|]. split; [done|]. split; [done|]. split.
    + intros res Hres Hno. by rewrite (Hbad res Hres Hno).
    + by intros [?|?].
Qed.

(** X24.  A reply whose body has no list under [initiatives] (the property
    is missing, [null], or another falsy value) is not an error for the
    component: it replaces the initiatives with the empty list and clears
    the error. *)
Theorem reply_without_list_empties (rt : runtime) (res : App.response)
    (data listed : jsval) (s : App.state) :
  App.ok res = true → App.json res = Ok data →
  Js.get data "initiatives" = Ok listed → Js.truthy listed = false →
  App.initiatives (App.generateRoadmap rt (Ok res) s) = []
  ∧ App.error (App.generateRoadmap rt (Ok res) s) = None
  ∧ App.initiatives (App.applyAiInstruction rt (Ok res) s) = []
  ∧ App.error (App.applyAiInstruction rt (Ok res) s) = None.
Proof.
  intros Hok Hjson Hget Hfalsy.
  assert (normaliseInitiatives rt listed = Ok []) as Hl.
  { unfold normaliseInitiatives, or_value. by rewrite Hfalsy. }
  unfold App.generateRoadmap, App.applyAiInstruction, App.safeFetch,
    mbind, result_bind.
  by rewrite Hok, Hjson, Hget, Hl.
Qed.

Lemma reply_without_list_empties_witness :
  let A := mkInitiative (Num.of_Z 1) "A" (Num.of_Z 7) (Num.of_Z 1) "" [] [] in
  let s := App.mkState [A] [] "move A" true false None in
  let res := App.mkResponse true "" (Ok (JObj [("items", JArr [])])) in
  App.initiatives (App.generateRoadmap Sample.rt (Ok res) s) = []
  ∧ App.error (App.generateRoadmap Sample.rt (Ok res) s) = None
  ∧ App.initiatives (App.applyAiInstruction Sample.rt (Ok res) s) = []
  ∧ App.error (App.applyAiInstruction Sample.rt (Ok res) s) = None.
Proof.
  intros A s res.
  apply (reply_without_list_empties Sample.rt res
           (JObj [("items", JArr [])]) JUndefined s); reflexivity.
Defined.

(** ** Dropping a card on another *)

Lemma findIndex_found {A : Type} (p : A → bool) (l : list A) :
  0 ≤ Drag.findIndex p l →
  ∃ x, l !! Z.to_nat (Drag.findIndex p l) = Some x ∧ p x = true.
Proof.
  induction l as [|y l IH]; cbn [Drag.findIndex]; [lia|].
  destruct (p y) eqn:Hy; [intros _; by exists y|].
  destruct (Z.ltb_spec (Drag.findIndex p l) 0) as [Hlt|Hge]; [lia|].
  intros _. destruct (IH Hge) as (x & Hx & Hp). exists x. split; [|done].
  by rewrite Z2Nat.inj_add, Nat.add_1_r by lia.
Qed.

Lemma arrayMove_in_range {A : Type} (l : list A) (from to : nat) (x : A) :
  l !! from = Some x → (to < length l)%nat →
  ∃ l', Drag.arrayMove l (Z.of_nat from) (Z.of_nat to) = Some l'
        ∧ l' !! to = Some x ∧ delete to l' = delete from l.
Proof.
  intros Hx Hto. pose proof (lookup_lt_Some _ _ _ Hx) as Hfrom.
  unfold Drag.arrayMove, Drag.splice_out, Drag.splice_in, Drag.splice_start.
  rewrite !(proj2 (Z.ltb_ge (Z.of_nat to) 0)) by lia.
  rewrite !(proj2 (Z.ltb_ge (Z.of_nat from) 0)) by lia.
  rewrite !(Z.min_l (Z.of_nat from)), !Nat2Z.id by lia.
  rewrite Hx. cbn [mbind option_bind].
  rewrite length_delete by done.
  rewrite !(Z.min_l (Z.of_nat to)), !Nat2Z.id by lia.
  eexists. split; [done|].
  assert (length (take to (delete from l)) = to) as Hlen.
  { rewrite length_take, length_delete by done. lia. }
  split.
  - rewrite <- Hlen at 1. apply list_lookup_middle. done.
  - rewrite <- Hlen at 1. rewrite delete_middle. apply take_drop.
Qed.

(** X25.  When a card is dropped on another card and both identifiers
    are in the list, the list after the drag has the first initiative
    carrying the dragged identifier at the position where the first one
    carrying the target identifier was; taking it out of the new list
    gives the old list without it, so the other initiatives keep their
    order. *)
Theorem drag_lands_on_target (active o : number) (prev : list Initiative) :
  let from := Drag.findIndex (λ i, Num.eqb (id i) active) prev in
  let to := Drag.findIndex (λ i, Num.eqb (id i) o) prev in
  Num.eqb active o = false → 0 ≤ from → 0 ≤ to →
  ∃ l' x,
    Drag.onDragEnd active (Some o) prev = Some l'
    ∧ prev !! Z.to_nat from = Some x ∧ Num.eqb (id x) active = true
    ∧ l' !! Z.to_nat to = Some x
    ∧ delete (Z.to_nat to) l' = delete (Z.to_nat from) prev.
Proof.
  intros from to Hne Hfrom Hto. unfold Drag.onDragEnd. rewrite Hne.
  destruct (findIndex_found _ prev Hfrom) as (x & Hx & Hid).
  destruct (findIndex_found _ prev Hto) as (y & Hy & _).
  apply lookup_lt_Some in Hy.
  destruct (arrayMove_in_range prev (Z.to_nat from) (Z.to_nat to) x Hx Hy)
    as (l' & Hmove & Hl' & Hdel).
  rewrite !Z2Nat.id in Hmove by done.
  by exists l', x.
Qed.

Lemma drag_lands_on_target_witness :
  let A := mkInitiative (Num.of_Z 1) "A" (Num.of_Z 7) (Num.of_Z 1) "" [] [] in
  let B := mkInitiative (Num.of_Z 2) "B" (Num.of_Z 4) (Num.of_Z 1) "" [] [] in
  let C := mkInitiative (Num.of_Z 3) "C" (Num.of_Z 2) (Num.of_Z 2) "" [] [] in
  Drag.onDragEnd (Num.of_Z 3) (Some (Num.of_Z 1)) [A; B; C] = Some [C; A; B]
  ∧ ∃ l' x,
      Drag.onDragEnd (Num.of_Z 3) (Some (Num.of_Z 1)) [A; B; C] = Some l'
      ∧ [A; B; C] !! Z.to_nat 2 = Some x ∧ Num.eqb (id x) (Num.of_Z 3) = true
      ∧ l' !! Z.to_nat 0 = Some x
      ∧ delete (Z.to_nat 0) l' = delete (Z.to_nat 2) [A; B; C].
Proof.
  intros A B C. split; [vm_compute; reflexivity|].
  apply (drag_lands_on_target (Num.of_Z 3) (Num.of_Z 1) [A; B; C]).
  - vm_compute; reflexivity.
  - vm_compute. discriminate.
  - vm_compute. discriminate.
Defined.

(** * Further properties of the engine, continued *)

(** ** Whole weeks *)



